(** * tcpf: a TCP port forwarder (tcpf.go)

    The program is a set of goroutines: [main] accepts connections, the
    realm goroutine started by [TunnelRealm.listen] admits them, and every
    tunnel runs the four pumps started by [TCPTunnel.listen].  The embedding
    is an interleaving transition system: one action is one operation of one
    goroutine on shared state or on a connection (Accept, the rendezvous on
    an unbuffered channel, Dial, the map insert, Read, Write, the map delete,
    Close) together with the straight-line code up to the next such
    operation.  What the network does (the outcome of Accept, Dial, Read and
    Write) is carried by the action.

    Where the Go functions are:
    - [generateID], [newTCPTunnel], [readFromConn], [writeToConn],
      [listTunnels], [NewTunnelRealm] and [String] under their names;
    - the start of [main], with [flag.Arg]: [main_start] and [flag_Arg];
    - the loop of [main]: [main_accept], then the action [DoJoining];
    - [TunnelRealm.listen]: the states [AtSelect], [AtJoin], [AtRegister];
    - [TunnelRealm.join]: [newTCPTunnel] (action [DoDial]), then
      [join_register] (action [DoRegister]);
    - [TCPTunnel.listen]: the four pumps of a new tunnel, in [newTCPTunnel];
    - [readFromInbound], [writeToOutbound], [readFromOutbound],
      [writeToInbound]: the loops are the actions [DoRead], [DoHandoff] and
      [DoWrite]; what follows the loop, with [closeTunnel] and
      [TunnelRealm.leave], is [pump_exit] (action [DoExit], three steps:
      [leave_delete], then [leave_close] on each handle). *)

From Stdlib Require Import ZArith DecimalString DecimalZ.
From stdpp Require Import gmap strings list fin_maps.

Local Open Scope Z_scope.

(** ** Constants and the identity generator *)

(** [readBufSize = 1024], the default socket read buffer size. *)
Definition readBufSize : nat := 1024%nat.

(** Go's [int] on a 64-bit target: two's complement, [id++] wraps. *)
Definition intSize : Z := 64.

Definition wrap_int (z : Z) : Z :=
  (z + 2 ^ (intSize - 1)) mod 2 ^ intSize - 2 ^ (intSize - 1).

(** [strconv.Itoa]: the decimal representation, with a leading minus sign
    for negative numbers. *)
Definition Itoa (z : Z) : string := NilEmpty.string_of_int (Z.to_int z).

(** [generateID]: [id++; return strconv.Itoa(id)], as a function of the
    package variable [id], returning its new value and the string. *)
Definition generateID (id : Z) : Z * string :=
  let id' := wrap_int (id + 1) in (id', Itoa id').

(** ** Connections ([net.Conn]) *)

Abbreviation chunk := (list Byte.byte).

(** [io.EOF] is told apart from every other error by the pumps. *)
Inductive error :=
| EOF
| ErrClosed
| ErrNet (msg : string).

#[global] Instance error_eq_dec : EqDecision error.
Proof. solve_decision. Defined.

(** The state of one connection handle.  [received] lists the chunks handed
    back by the Reads that returned no error, [sent] the chunks a Write
    accepted in full, [torn] the bytes a failing Write had already put on
    the wire. *)
Record Conn := mkConn {
  remoteAddr : string;
  isOpen : bool;
  received : list chunk;
  sent : list chunk;
  torn : chunk;
}.

Definition newConn (addr : string) : Conn :=
  {| remoteAddr := addr; isOpen := true; received := []; sent := []; torn := [] |}.

(** [Read(b)]: the network offers [data] and the error [err]; at most
    [len(b)] bytes are copied to the front of [b].  Returns the buffer, [n],
    the error and the connection.  A closed handle fails without reading. *)
Definition conn_Read (c : Conn) (b : chunk) (data : chunk) (err : option error)
  : chunk * nat * option error * Conn :=
  if isOpen c then
    let n := Nat.min (length b) (length data) in
    let b' := firstn n data ++ skipn n b in
    let c' := match err with
              | None => {| remoteAddr := remoteAddr c; isOpen := isOpen c;
                           received := received c ++ [firstn n data];
                           sent := sent c; torn := torn c |}
              | Some _ => c
              end in
    (b', n, err, c')
  else (b, 0%nat, Some ErrClosed, c).

(** What the network does with one Write. *)
Inductive WriteOutcome :=
| WriteOk
| WriteErr (n : nat) (e : error).

(** [Write(b)]: all of [b] is sent, or the call fails after [n] bytes. *)
Definition conn_Write (c : Conn) (b : chunk) (o : WriteOutcome)
  : nat * option error * Conn :=
  if isOpen c then
    match o with
    | WriteOk =>
        (length b, None,
         {| remoteAddr := remoteAddr c; isOpen := isOpen c; received := received c;
            sent := sent c ++ [b]; torn := torn c |})
    | WriteErr n e =>
        (Nat.min n (length b), Some e,
         {| remoteAddr := remoteAddr c; isOpen := isOpen c; received := received c;
            sent := sent c; torn := torn c ++ firstn n b |})
    end
  else (0%nat, Some ErrClosed, c).

(** [Close()]: closing a closed handle is an error and changes nothing. *)
Definition conn_Close (c : Conn) : option error * Conn :=
  if isOpen c then
    (None, {| remoteAddr := remoteAddr c; isOpen := false; received := received c;
              sent := sent c; torn := torn c |})
  else (Some ErrClosed, c).

(** ** Tunnels and their pumps *)

(** Where a pump goroutine stands. *)
Inductive Pump :=
| AtRead                   (* readFromConn, at [conn.Read(bytes)] *)
| AtSend (bytes : chunk)   (* readFromConn, blocked at [channel <- bytes[:n]] *)
| AtRecv                   (* writeToConn, blocked at [<-channel] *)
| AtWrite (bytes : chunk)  (* writeToConn, at [conn.Write(bytes)] *)
| Returned (err : error)   (* readFromConn / writeToConn returned [err] *)
| CloseInbound             (* leave, at [tunnel.inbound.Close()] *)
| CloseOutbound            (* leave, at [tunnel.outbound.Close()] *)
| Finished.

Inductive PumpId := RdIn | WrOut | RdOut | WrIn.
Inductive Dir := ToRemote | ToLocal.
Inductive Side := Inbound | Outbound.

#[global] Instance PumpId_eq_dec : EqDecision PumpId.
Proof. solve_decision. Defined.
#[global] Instance Side_eq_dec : EqDecision Side.
Proof. solve_decision. Defined.

(** A [TCPTunnel] and the four goroutines of [tunnel.listen()].  A handle is
    [None] when the interface value is nil.  The channels [local] and
    [remote] are unbuffered: they hold nothing, a chunk passes when the
    sender stands at [AtSend] and the receiver at [AtRecv]. *)
Record TCPTunnel := mkTunnel {
  tid : string;
  inbound : option Conn;
  outbound : option Conn;
  readFromInbound : Pump;
  writeToOutbound : Pump;
  readFromOutbound : Pump;
  writeToInbound : Pump;
}.

Definition reader (d : Dir) : PumpId :=
  match d with ToRemote => RdIn | ToLocal => RdOut end.
Definition writer (d : Dir) : PumpId :=
  match d with ToRemote => WrOut | ToLocal => WrIn end.
Definition srcSide (d : Dir) : Side :=
  match d with ToRemote => Inbound | ToLocal => Outbound end.
Definition dstSide (d : Dir) : Side :=
  match d with ToRemote => Outbound | ToLocal => Inbound end.

Definition pump (k : PumpId) (t : TCPTunnel) : Pump :=
  match k with
  | RdIn => readFromInbound t
  | WrOut => writeToOutbound t
  | RdOut => readFromOutbound t
  | WrIn => writeToInbound t
  end.

Definition conn (sd : Side) (t : TCPTunnel) : option Conn :=
  match sd with Inbound => inbound t | Outbound => outbound t end.

Definition set_pump (k : PumpId) (p : Pump) (t : TCPTunnel) : TCPTunnel :=
  {| tid := tid t; inbound := inbound t; outbound := outbound t;
     readFromInbound := if decide (k = RdIn) then p else readFromInbound t;
     writeToOutbound := if decide (k = WrOut) then p else writeToOutbound t;
     readFromOutbound := if decide (k = RdOut) then p else readFromOutbound t;
     writeToInbound := if decide (k = WrIn) then p else writeToInbound t |}.

Definition set_conn (sd : Side) (c : Conn) (t : TCPTunnel) : TCPTunnel :=
  {| tid := tid t;
     inbound := if decide (sd = Inbound) then Some c else inbound t;
     outbound := if decide (sd = Outbound) then Some c else outbound t;
     readFromInbound := readFromInbound t; writeToOutbound := writeToOutbound t;
     readFromOutbound := readFromOutbound t; writeToInbound := writeToInbound t |}.

(** The outcome of a piece of Go code that may dereference a nil interface. *)
Inductive Res (A : Type) :=
| Done (a : A)
| Panic.
Arguments Done {A} a.
Arguments Panic {A}.

(** One iteration of the loop of [readFromConn]: a fresh buffer of
    [readBufSize] bytes, one Read, and either the error is returned or the
    slice [bytes[:n]] is about to be sent on the channel. *)
Definition readFromConn (conn : option Conn) (data : chunk) (err : option error)
  : Res (Conn * Pump) :=
  match conn with
  | None => Panic
  | Some c =>
      let bytes := replicate readBufSize Byte.x00 in
      let '(bytes, n, err, c') := conn_Read c bytes data err in
      match err with
      | Some e => Done (c', Returned e)
      | None => Done (c', AtSend (firstn n bytes))
      end
  end.

(** One iteration of the loop of [writeToConn], after the chunk [bytes] was
    received from the channel: one Write, whose count is ignored. *)
Definition writeToConn (conn : option Conn) (bytes : chunk) (o : WriteOutcome)
  : Res (Conn * Pump) :=
  match conn with
  | None => Panic
  | Some c =>
      let '(_, err, c') := conn_Write c bytes o in
      match err with
      | Some e => Done (c', Returned e)
      | None => Done (c', AtRecv)
      end
  end.

(** [TCPTunnel.String]: [fmt] recovers from the panic of a [String] method,
    so a nil handle garbles the text and nothing else. *)
Definition String_panic : string :=
  "%!v(PANIC=String method: runtime error: invalid memory address or nil pointer dereference)".

Definition String (t : TCPTunnel) : string :=
  match inbound t, outbound t with
  | Some i, Some o => remoteAddr i +:+ " -> " +:+ remoteAddr o
  | _, _ => String_panic
  end.

(** ** The process *)

Inductive LogLine :=
| LogError (err : error)                          (* Error occured: %v *)
| LogUnavailable (address : string) (err : error) (* Destination address is not available *)
| LogAdded (id : string) (tunnel : string)        (* Added tunnel: %v:[%v] *)
| LogTunnels (tunnels : gmap string string)       (* The realm has the following tunnels *)
| LogLeaving (tunnel : string)                    (* Tunnel leaving realm and being closed *)
| LogClosed (tunnel : string).                    (* Connection closed for %v *)

(** The calls made to the network, with what they returned. *)
Inductive Syscall :=
| SysDial (address : string) (err : option error)
| SysClose (tunnel : nat) (sd : Side) (err : option error).

#[global] Instance Syscall_eq_dec : EqDecision Syscall.
Proof. solve_decision. Defined.

Inductive Proc :=
| Running
| Exited (code : Z)   (* os.Exit *)
| Panicked.           (* a goroutine panicked and nothing recovers *)

(** The goroutine of [main], in its accept loop. *)
Inductive MainG :=
| AtAccept                       (* at [serverSock.Accept()] *)
| AtJoining (conn : option Conn). (* blocked at [realm.joining <- conn] *)

(** The goroutine of [TunnelRealm.listen]. *)
Inductive RealmG :=
| AtSelect                     (* blocked at [<-realm.joining] *)
| AtJoin (conn : option Conn)  (* join, at [net.Dial] in newTCPTunnel *)
| AtRegister (tunnel : nat).   (* join, at [realm.tunnels[id] = tunnel] *)

(** [tunnels] maps an identity to a pointer: an index of the heap of tunnel
    objects below. *)
Record TunnelRealm := mkRealm {
  bindIF : string;
  bindPort : string;
  dstHost : string;
  dstPort : string;
  tunnels : gmap string nat;
}.

Record State := mkState {
  proc : Proc;
  id : Z;                 (* the package variable [id] *)
  realm : TunnelRealm;
  heap : list TCPTunnel;  (* every tunnel allocated, in order of allocation *)
  mainG : MainG;
  realmG : RealmG;
  log : list LogLine;
  syscalls : list Syscall;
}.

Definition set_proc (x : Proc) (s : State) : State :=
  {| proc := x; id := id s; realm := realm s; heap := heap s; mainG := mainG s;
     realmG := realmG s; log := log s; syscalls := syscalls s |}.
Definition set_id (x : Z) (s : State) : State :=
  {| proc := proc s; id := x; realm := realm s; heap := heap s; mainG := mainG s;
     realmG := realmG s; log := log s; syscalls := syscalls s |}.
Definition set_tunnels (x : gmap string nat) (s : State) : State :=
  {| proc := proc s; id := id s;
     realm := {| bindIF := bindIF (realm s); bindPort := bindPort (realm s);
                 dstHost := dstHost (realm s); dstPort := dstPort (realm s);
                 tunnels := x |};
     heap := heap s; mainG := mainG s; realmG := realmG s; log := log s;
     syscalls := syscalls s |}.
Definition set_heap (x : list TCPTunnel) (s : State) : State :=
  {| proc := proc s; id := id s; realm := realm s; heap := x; mainG := mainG s;
     realmG := realmG s; log := log s; syscalls := syscalls s |}.
Definition set_mainG (x : MainG) (s : State) : State :=
  {| proc := proc s; id := id s; realm := realm s; heap := heap s; mainG := x;
     realmG := realmG s; log := log s; syscalls := syscalls s |}.
Definition set_realmG (x : RealmG) (s : State) : State :=
  {| proc := proc s; id := id s; realm := realm s; heap := heap s; mainG := mainG s;
     realmG := x; log := log s; syscalls := syscalls s |}.
Definition logf (x : LogLine) (s : State) : State :=
  {| proc := proc s; id := id s; realm := realm s; heap := heap s; mainG := mainG s;
     realmG := realmG s; log := log s ++ [x]; syscalls := syscalls s |}.
Definition sys (x : Syscall) (s : State) : State :=
  {| proc := proc s; id := id s; realm := realm s; heap := heap s; mainG := mainG s;
     realmG := realmG s; log := log s; syscalls := syscalls s ++ [x] |}.

(** Storing through the pointer [p]. *)
Definition store (p : nat) (t : TCPTunnel) (s : State) : State :=
  set_heap (<[p := t]> (heap s)) s.

(** [NewTunnelRealm], once [realm.listen()] has started the realm goroutine
    and [main] has reached its loop.  The log starts here: the start-up
    line of [main] is not kept. *)
Definition NewTunnelRealm (bindIF bindPort dstHost dstPort : string) : State :=
  {| proc := Running; id := 0;
     realm := {| bindIF := bindIF; bindPort := bindPort; dstHost := dstHost;
                 dstPort := dstPort; tunnels := ∅ |};
     heap := []; mainG := AtAccept; realmG := AtSelect; log := []; syscalls := [] |}.

(** [realm.listTunnels]: the map is printed with the [String] of each tunnel. *)
Definition listTunnels (s : State) : State :=
  logf (LogTunnels ((λ p, default String_panic (String <$> heap s !! p))
                      <$> tunnels (realm s))) s.

(** What the network does with one Accept and one Dial. *)
Inductive AcceptOutcome :=
| AcceptOk (peer : string)
| AcceptErr (err : error).

Inductive DialOutcome :=
| DialOk (peer : string)
| DialErr (err : error).

(** [serverSock.Accept()]: a connection, or nil and the error. *)
Definition Accept (o : AcceptOutcome) : option Conn * option error :=
  match o with
  | AcceptOk peer => (Some (newConn peer), None)
  | AcceptErr err => (None, Some err)
  end.

(** The body of the loop of [main] up to the send on [realm.joining]: the
    error is logged, and [conn] is sent whatever [err] is. *)
Definition main_accept (o : AcceptOutcome) (s : State) : State :=
  let '(conn, err) := Accept o in
  let s := match err with
           | Some e => logf (LogError e) s
           | None => s
           end in
  set_mainG (AtJoining conn) s.

(** [newTCPTunnel], up to its return: the dial, [os.Exit(1)] when it fails,
    else the identity, the tunnel object and [tunnel.listen()], which
    starts the four pumps.  Returns the pointer to the tunnel. *)
Definition newTCPTunnel (conn : option Conn) (o : DialOutcome) (s : State)
  : State * option nat :=
  let address := dstHost (realm s) +:+ ":" +:+ dstPort (realm s) in
  match o with
  | DialErr err =>
      (set_proc (Exited 1)
         (logf (LogUnavailable address err) (sys (SysDial address (Some err)) s)),
       None)
  | DialOk peer =>
      let s := sys (SysDial address None) s in
      let '(id', name) := generateID (id s) in
      let tunnel := {| tid := name; inbound := conn; outbound := Some (newConn peer);
                       readFromInbound := AtRead; writeToOutbound := AtRecv;
                       readFromOutbound := AtRead; writeToInbound := AtRecv |} in
      (set_heap (heap s ++ [tunnel]) (set_id id' s), Some (length (heap s)))
  end.

(** The rest of [realm.join] once [newTCPTunnel] has returned [tunnel]. *)
Definition join_register (p : nat) (tunnel : TCPTunnel) (s : State) : State :=
  let id := tid tunnel in
  let s := set_tunnels (<[id := p]> (tunnels (realm s))) s in
  let s := logf (LogAdded id (String tunnel)) s in
  listTunnels s.

(** A pump function returned [err]: the wrapper logs it unless it is
    [io.EOF], [closeTunnel] logs, and [realm.leave] logs and deletes the
    registry entry. *)
Definition leave_delete (tunnel : TCPTunnel) (err : error) (s : State) : State :=
  let s := if decide (err = EOF) then s else logf (LogError err) s in
  let s := logf (LogClosed (String tunnel)) s in
  let s := logf (LogLeaving (String tunnel)) s in
  set_tunnels (delete (tid tunnel) (tunnels (realm s))) s.

(** [realm.leave], one of its two Close calls on the tunnel at [p]. *)
Definition leave_close (p : nat) (sd : Side) (tunnel : TCPTunnel) (s : State)
  : Res (TCPTunnel * State) :=
  match conn sd tunnel with
  | None => Panic
  | Some c =>
      let '(err, c') := conn_Close c in
      Done (set_conn sd c' tunnel, sys (SysClose p sd err) s)
  end.

(** One step of pump [k] of the tunnel at [p] after its loop has returned. *)
Definition pump_exit (p : nat) (k : PumpId) (tunnel : TCPTunnel) (s : State)
  : option State :=
  match pump k tunnel with
  | Returned err =>
      Some (store p (set_pump k CloseInbound tunnel) (leave_delete tunnel err s))
  | CloseInbound =>
      match leave_close p Inbound tunnel s with
      | Panic => Some (set_proc Panicked s)
      | Done (tunnel, s) => Some (store p (set_pump k CloseOutbound tunnel) s)
      end
  | CloseOutbound =>
      match leave_close p Outbound tunnel s with
      | Panic => Some (set_proc Panicked s)
      | Done (tunnel, s) =>
          Some (listTunnels (store p (set_pump k Finished tunnel) s))
      end
  | _ => None
  end.

(** ** The transition system *)

Inductive Act :=
| DoAccept (o : AcceptOutcome)    (* main: Accept and the logging *)
| DoJoining                       (* main and realm: rendezvous on [realm.joining] *)
| DoDial (o : DialOutcome)        (* realm: newTCPTunnel *)
| DoRegister                      (* realm: the map insert and the logging *)
| DoRead (p : nat) (d : Dir) (data : chunk) (err : option error)
| DoHandoff (p : nat) (d : Dir)   (* rendezvous on [remote] or [local] *)
| DoWrite (p : nat) (d : Dir) (o : WriteOutcome)
| DoExit (p : nat) (k : PumpId).  (* one step of the teardown by pump [k] *)

Definition step (a : Act) (s : State) : option State :=
  match proc s with
  | Running =>
      match a with
      | DoAccept o =>
          match mainG s with
          | AtAccept => Some (main_accept o s)
          | _ => None
          end
      | DoJoining =>
          match mainG s, realmG s with
          | AtJoining conn, AtSelect =>
              Some (set_realmG (AtJoin conn) (set_mainG AtAccept s))
          | _, _ => None
          end
      | DoDial o =>
          match realmG s with
          | AtJoin conn =>
              match newTCPTunnel conn o s with
              | (s, Some p) => Some (set_realmG (AtRegister p) s)
              | (s, None) => Some s
              end
          | _ => None
          end
      | DoRegister =>
          match realmG s with
          | AtRegister p =>
              tunnel ← heap s !! p;
              Some (set_realmG AtSelect (join_register p tunnel s))
          | _ => None
          end
      | DoRead p d data err =>
          tunnel ← heap s !! p;
          match pump (reader d) tunnel with
          | AtRead =>
              match readFromConn (conn (srcSide d) tunnel) data err with
              | Panic => Some (set_proc Panicked s)
              | Done (c, pm) =>
                  Some (store p (set_pump (reader d) pm (set_conn (srcSide d) c tunnel)) s)
              end
          | _ => None
          end
      | DoHandoff p d =>
          tunnel ← heap s !! p;
          match pump (reader d) tunnel, pump (writer d) tunnel with
          | AtSend bytes, AtRecv =>
              Some (store p (set_pump (writer d) (AtWrite bytes)
                               (set_pump (reader d) AtRead tunnel)) s)
          | _, _ => None
          end
      | DoWrite p d o =>
          tunnel ← heap s !! p;
          match pump (writer d) tunnel with
          | AtWrite bytes =>
              match writeToConn (conn (dstSide d) tunnel) bytes o with
              | Panic => Some (set_proc Panicked s)
              | Done (c, pm) =>
                  Some (store p (set_pump (writer d) pm (set_conn (dstSide d) c tunnel)) s)
              end
          | _ => None
          end
      | DoExit p k =>
          tunnel ← heap s !! p;
          pump_exit p k tunnel s
      end
  | _ => None
  end.

Fixpoint run (l : list Act) (s : State) : option State :=
  match l with
  | [] => Some s
  | a :: l => s' ← step a s; run l s'
  end.

(** The states the process can be in, for a realm started with any
    parameters. *)
Definition reachable (s : State) : Prop :=
  ∃ bindIF bindPort dstHost dstPort l,
    run l (NewTunnelRealm bindIF bindPort dstHost dstPort) = Some s.

(** ** Which goroutine writes the registry *)

Inductive Goroutine :=
| GMain
| GRealm
| GPump (p : nat) (k : PumpId).

#[global] Instance Goroutine_eq_dec : EqDecision Goroutine.
Proof. solve_decision. Defined.

(** The goroutine that executes a write of the map [realm.tunnels] when
    action [a] is taken in [s]: the insert of [join] runs on the realm
    goroutine, the delete of [leave] on the pump that calls [closeTunnel]. *)
Definition writes_registry (a : Act) (s : State) : option Goroutine :=
  match a with
  | DoRegister =>
      match realmG s with
      | AtRegister _ => Some GRealm
      | _ => None
      end
  | DoExit p k =>
      match pump k <$> heap s !! p with
      | Some (Returned _) => Some (GPump p k)
      | _ => None
      end
  | _ => None
  end.

(** Two goroutines can each take a step that writes the map, and nothing
    orders the two writes. *)
Definition registry_race (s : State) : Prop :=
  ∃ a1 a2 g1 g2,
    writes_registry a1 s = Some g1 ∧ writes_registry a2 s = Some g2 ∧
    g1 ≠ g2 ∧ is_Some (step a1 s) ∧ is_Some (step a2 s).

(** ** Predicates on states *)

Definition closed (c : option Conn) : bool :=
  match c with
  | Some c => negb (isOpen c)
  | None => false
  end.

(** The tunnel at [p] has both handles closed. *)
Definition torn_down (p : nat) (s : State) : bool :=
  match heap s !! p with
  | Some t => closed (inbound t) && closed (outbound t)
  | None => false
  end.

(** No entry of the registry points to a tunnel with both handles closed. *)
Definition registry_live (s : State) : Prop :=
  ∀ id p, tunnels (realm s) !! id = Some p → torn_down p s = false.

(** The largest [int]. *)
Definition maxInt : Z := 2 ^ (intSize - 1) - 1.

(** The counter counts the tunnels allocated, and the tunnel allocated
    [i]-th (from 0) is named after the counter value [i + 1]. *)
Definition uniq_ids (s : State) : Prop :=
  id s = wrap_int (Z.of_nat (length (heap s))) ∧
  ∀ i t, heap s !! i = Some t → tid t = Itoa (wrap_int (Z.of_nat i + 1)).

(** ** What a direction has read and written *)

Definition received_of (c : option Conn) : list chunk :=
  match c with Some c => received c | None => [] end.
Definition sent_of (c : option Conn) : list chunk :=
  match c with Some c => sent c | None => [] end.
Definition torn_of (c : option Conn) : chunk :=
  match c with Some c => torn c | None => [] end.

(** The chunks the reader of direction [d] got from its source without an
    error, in the order of the Reads, and the chunks the writer put on its
    destination, in the order of the Writes. *)
Definition chunks_read (d : Dir) (t : TCPTunnel) : list chunk :=
  received_of (conn (srcSide d) t).
Definition chunks_written (d : Dir) (t : TCPTunnel) : list chunk :=
  sent_of (conn (dstSide d) t).

(** The bytes that reached the destination: the chunks written and what a
    failing Write had sent of its chunk. *)
Definition bytes_delivered (d : Dir) (t : TCPTunnel) : chunk :=
  concat (chunks_written d t) ++ torn_of (conn (dstSide d) t).

(** The chunk a reader holds while blocked on the channel. *)
Definition held (pm : Pump) : list chunk :=
  match pm with AtSend bytes => [bytes] | _ => [] end.

(** What is read is what is written followed by the chunks in flight: the
    one the writer has received and not yet written, then the one the
    reader holds.  Once the writer has failed, its last chunk and whatever
    is read afterwards stay behind. *)
Definition relay_inv (d : Dir) (t : TCPTunnel) : Prop :=
  let rd := chunks_read d t in
  let wr := chunks_written d t in
  let tn := torn_of (conn (dstSide d) t) in
  match pump (writer d) t with
  | AtRecv => rd = wr ++ held (pump (reader d) t) ∧ tn = []
  | AtWrite bytes => rd = wr ++ bytes :: held (pump (reader d) t) ∧ tn = []
  | AtRead | AtSend _ => False
  | _ => ∃ bytes rest, rd = wr ++ bytes :: rest ∧ tn `prefix_of` bytes
  end.

(** A schedule that relays [chunks] one after the other in direction [d]:
    the network offers each to the reader, the channel passes it on and
    the Write succeeds. *)
Fixpoint relay (p : nat) (d : Dir) (chunks : list chunk) : list Act :=
  match chunks with
  | [] => []
  | data :: chunks =>
      DoRead p d data None :: DoHandoff p d :: DoWrite p d WriteOk :: relay p d chunks
  end.

(** Direction [d] is at rest with both handles open. *)
Definition relay_ready (d : Dir) (t : TCPTunnel) : Prop :=
  pump (reader d) t = AtRead ∧ pump (writer d) t = AtRecv ∧
  closed (conn (srcSide d) t) = false ∧ closed (conn (dstSide d) t) = false ∧
  is_Some (inbound t) ∧ is_Some (outbound t).

(** What one step of the process does to the tunnel it works on, with the
    Close calls the step makes and what they return. *)
Inductive tunnel_step (t : TCPTunnel) : list (Side * option error) → TCPTunnel → Prop :=
| ts_read d data err c pm :
    pump (reader d) t = AtRead →
    readFromConn (conn (srcSide d) t) data err = Done (c, pm) →
    tunnel_step t [] (set_pump (reader d) pm (set_conn (srcSide d) c t))
| ts_handoff d bytes :
    pump (reader d) t = AtSend bytes → pump (writer d) t = AtRecv →
    tunnel_step t [] (set_pump (writer d) (AtWrite bytes) (set_pump (reader d) AtRead t))
| ts_write d bytes o c pm :
    pump (writer d) t = AtWrite bytes →
    writeToConn (conn (dstSide d) t) bytes o = Done (c, pm) →
    tunnel_step t [] (set_pump (writer d) pm (set_conn (dstSide d) c t))
| ts_leave k e :
    pump k t = Returned e → tunnel_step t [] (set_pump k CloseInbound t)
| ts_close_in k c :
    pump k t = CloseInbound → inbound t = Some c →
    tunnel_step t [(Inbound, (conn_Close c).1)]
      (set_pump k CloseOutbound (set_conn Inbound (conn_Close c).2 t))
| ts_close_out k c :
    pump k t = CloseOutbound → outbound t = Some c →
    tunnel_step t [(Outbound, (conn_Close c).1)]
      (set_pump k Finished (set_conn Outbound (conn_Close c).2 t)).

Definition close_calls (p : nat) (calls : list (Side * option error)) : list Syscall :=
  (λ x, SysClose p x.1 x.2) <$> calls.

(** A handle nothing was read from or written to, and that is not closed. *)
Definition idle_conn (c : option Conn) : Prop :=
  received_of c = [] ∧ sent_of c = [] ∧ torn_of c = [] ∧ closed c = false.

Definition pending_idle (s : State) : Prop :=
  (∀ c, mainG s = AtJoining c → idle_conn c) ∧
  (∀ c, realmG s = AtJoin c → idle_conn c).

Definition fresh_tunnel (t : TCPTunnel) : Prop :=
  idle_conn (inbound t) ∧ idle_conn (outbound t) ∧
  readFromInbound t = AtRead ∧ writeToOutbound t = AtRecv ∧
  readFromOutbound t = AtRead ∧ writeToInbound t = AtRecv.

(** ** Teardown *)

(** The three steps of pump [k] of the tunnel at [p] from the return of its
    loop to the end of [leave]. *)
Definition teardown (p : nat) (k : PumpId) : list Act :=
  [DoExit p k; DoExit p k; DoExit p k].

(** The ways pump [k] of the tunnel [t] at [p] comes to its end, with the
    actions it takes: it has returned already, or it stands at a Read or a
    Write that fails. *)
Inductive terminates (p : nat) (t : TCPTunnel) (k : PumpId) : list Act → Prop :=
| term_returned e :
    pump k t = Returned e → terminates p t k (teardown p k)
| term_read d data err :
    k = reader d → pump k t = AtRead →
    terminates p t k (DoRead p d data err :: teardown p k)
| term_write d bytes o :
    k = writer d → pump k t = AtWrite bytes →
    terminates p t k (DoWrite p d o :: teardown p k).

(** The successful Close calls made so far on handle [sd] of the tunnel at
    [p]. *)
Definition closes (p : nat) (sd : Side) (s : State) : nat :=
  count_occ Syscall_eq_dec (syscalls s) (SysClose p sd None).

(** A handle is closed by exactly one successful Close, and no Close call
    was made on a tunnel that is not allocated yet. *)
Definition closed_once (s : State) : Prop :=
  (∀ p t sd, heap s !! p = Some t →
             closes p sd s = if closed (conn sd t) then 1%nat else 0%nat) ∧
  (∀ p sd e, SysClose p sd e ∈ syscalls s → (p < length (heap s))%nat).

(** A pump that has closed a handle in its teardown finds it closed ever
    after: at its second Close the inbound handle is closed, and once it
    has finished both are. *)
Definition finished_inv (t : TCPTunnel) : Prop :=
  ∀ k, (pump k t = CloseOutbound → closed (inbound t) = true) ∧
       (pump k t = Finished → closed (inbound t) = true ∧ closed (outbound t) = true).

(** The state after the three steps of the teardown by pump [k], which
    returned [e], of the tunnel [t] at [p] with handles [ci] and [co]. *)
Definition after_teardown (p : nat) (k : PumpId) (t : TCPTunnel) (e : error)
    (ci co : Conn) (s : State) : State :=
  let t1 := set_conn Inbound (conn_Close ci).2 (set_pump k CloseInbound t) in
  let t2 := set_conn Outbound (conn_Close co).2 (set_pump k CloseOutbound t1) in
  listTunnels
    (store p (set_pump k Finished t2)
       (sys (SysClose p Outbound (conn_Close co).1)
          (store p (set_pump k CloseOutbound t1)
             (sys (SysClose p Inbound (conn_Close ci).1)
                (store p (set_pump k CloseInbound t) (leave_delete t e s)))))).

(** Teardown is complete in [s']: the registry has no entry for the tunnel,
    both handles are closed, and the log of [s] was extended by the error
    line, unless the error is [io.EOF], and the lines of [closeTunnel] and
    [leave]. *)
Definition teardown_done (p : nat) (t : TCPTunnel) (e : error) (s s' : State) : Prop :=
  proc s' = Running ∧
  tunnels (realm s') !! tid t = None ∧
  torn_down p s' = true ∧
  ∃ m, log s' = log s ++ (if decide (e = EOF) then [] else [LogError e]) ++
                [LogClosed (String t); LogLeaving (String t); LogTunnels m].

(** The Close calls of an invocation of [leave] on handles already closed. *)
Definition failed_closes (p : nat) : list Syscall :=
  [SysClose p Inbound (Some ErrClosed); SysClose p Outbound (Some ErrClosed)].

(** ** The registry, the dials and the ends of the process *)

(** The tunnel a pump action works on; [None] for the actions of [main]
    and of the realm goroutine. *)
Definition tunnel_of (a : Act) : option nat :=
  match a with
  | DoRead p _ _ _ | DoHandoff p _ | DoWrite p _ _ | DoExit p _ => Some p
  | _ => None
  end.

(** What each action needs and does, read back from [step]. *)
Definition step_spec (a : Act) (s s' : State) : Prop :=
  match a with
  | DoAccept o => mainG s = AtAccept ∧ s' = main_accept o s
  | DoJoining =>
      ∃ c, mainG s = AtJoining c ∧ realmG s = AtSelect ∧
           s' = set_realmG (AtJoin c) (set_mainG AtAccept s)
  | DoDial o =>
      ∃ c, realmG s = AtJoin c ∧
           s' = match newTCPTunnel c o s with
                | (s1, Some p) => set_realmG (AtRegister p) s1
                | (s1, None) => s1
                end
  | DoRegister =>
      ∃ p t, realmG s = AtRegister p ∧ heap s !! p = Some t ∧
             s' = set_realmG AtSelect (join_register p t s)
  | DoRead p d data err =>
      ∃ t, heap s !! p = Some t ∧ pump (reader d) t = AtRead ∧
           s' = match readFromConn (conn (srcSide d) t) data err with
                | Panic => set_proc Panicked s
                | Done (c, pm) =>
                    store p (set_pump (reader d) pm (set_conn (srcSide d) c t)) s
                end
  | DoHandoff p d =>
      ∃ t bytes, heap s !! p = Some t ∧ pump (reader d) t = AtSend bytes ∧
                 pump (writer d) t = AtRecv ∧
                 s' = store p (set_pump (writer d) (AtWrite bytes)
                                 (set_pump (reader d) AtRead t)) s
  | DoWrite p d o =>
      ∃ t bytes, heap s !! p = Some t ∧ pump (writer d) t = AtWrite bytes ∧
                 s' = match writeToConn (conn (dstSide d) t) bytes o with
                      | Panic => set_proc Panicked s
                      | Done (c, pm) =>
                          store p (set_pump (writer d) pm (set_conn (dstSide d) c t)) s
                      end
  | DoExit p k => ∃ t, heap s !! p = Some t ∧ pump_exit p k t s = Some s'
  end.

(** Every entry of the registry points to an allocated tunnel that carries
    the key as its identity, and the tunnel [join] is about to insert is
    allocated. *)
Definition registry_wf (s : State) : Prop :=
  (∀ id p, tunnels (realm s) !! id = Some p → ∃ t, heap s !! p = Some t ∧ tid t = id) ∧
  (∀ p, realmG s = AtRegister p → is_Some (heap s !! p)).

(** The address [newTCPTunnel] dials. *)
Definition destination (s : State) : string :=
  dstHost (realm s) +:+ ":" +:+ dstPort (realm s).

(** The Dial calls that succeeded. *)
Definition dial_ok (c : Syscall) : bool :=
  match c with SysDial _ None => true | _ => false end.

Definition dials_ok (s : State) : nat :=
  length (filter (λ c, dial_ok c = true) (syscalls s)).

(** What the dials have left behind: they all went to the destination of
    the realm, each successful one allocated a tunnel, a tunnel has an
    outbound handle, and the process has exited after a failed one. *)
Definition dials_inv (s : State) : Prop :=
  (∀ addr e, SysDial addr e ∈ syscalls s → addr = destination s) ∧
  dials_ok s = length (heap s) ∧
  (∀ p t, heap s !! p = Some t → is_Some (outbound t)) ∧
  (∀ addr e, SysDial addr (Some e) ∈ syscalls s → proc s = Exited 1).


(** ** The life of a tunnel *)

(** A pump that has left its loop. *)
Definition gone (pm : Pump) : bool :=
  match pm with
  | Returned _ | CloseInbound | CloseOutbound | Finished => true
  | _ => false
  end.

(** What stays of a tunnel whatever its pumps do: its identity and the
    peers of its two handles. *)
Definition same_tunnel (t t' : TCPTunnel) : Prop :=
  tid t' = tid t ∧
  remoteAddr <$> inbound t' = remoteAddr <$> inbound t ∧
  remoteAddr <$> outbound t' = remoteAddr <$> outbound t.

(** The map [listTunnels] prints in state [s]. *)
Definition listing (s : State) : gmap string string :=
  (λ p, default String_panic (String <$> heap s !! p)) <$> tunnels (realm s).

(** A chunk that fits the read buffer. *)
Definition small (b : chunk) : Prop := (length b ≤ readBufSize)%nat.

Definition bounded (t : TCPTunnel) : Prop :=
  (∀ sd, Forall small (received_of (conn sd t)) ∧ Forall small (sent_of (conn sd t))) ∧
  (∀ k b, pump k t = AtSend b ∨ pump k t = AtWrite b → small b).

(** The chunks of direction [d] read and not yet written. *)
Definition in_flight (d : Dir) (t : TCPTunnel) : list chunk :=
  drop (length (chunks_written d t)) (chunks_read d t).

(** A handle is closed only by the teardown of a pump: when the inbound
    handle is closed some pump is past its first Close, when the outbound
    handle is closed some pump has finished. *)
Definition closed_by_leave (t : TCPTunnel) : Prop :=
  (closed (inbound t) = true → ∃ k, pump k t = CloseOutbound ∨ pump k t = Finished) ∧
  (closed (outbound t) = true → ∃ k, pump k t = Finished).

(** ** The start of [main] *)

(** [flag.Arg(i)] on the arguments [flag.Parse] has left: the [i]-th, or
    the empty string when there is none. *)
Definition flag_Arg (args : list string) (i : nat) : string := nth i args "".

(** [main] up to its loop: the three values of the start-up line, the
    address given to [net.Listen], and the state in which [main] stands at
    its first Accept.  The error of [net.Listen] is dropped: when there is
    one, [serverSock] is nil and that first Accept panics. *)
Record Startup := mkStartup {
  starting : string * string * string;
  listening : string;
  started : State;
}.

Definition main_start (args : list string) (listen : option error) : Startup :=
  let bindPort := flag_Arg args 0 in
  let remoteHost := flag_Arg args 1 in
  let remotePort := flag_Arg args 2 in
  let realm := NewTunnelRealm "" bindPort remoteHost remotePort in
  {| starting := (bindPort, remoteHost, remotePort);
     listening := "127.0.0.1:" +:+ bindPort;
     started := match listen with
                | None => realm
                | Some _ => set_proc Panicked realm
                end |}.

(** ** Runs without failures *)

(** The network fails nothing in action [a]: no Accept, Dial, Read or
    Write returns an error (the end of a stream, [io.EOF], is one). *)
Definition healthy (a : Act) : bool :=
  match a with
  | DoAccept (AcceptErr _) | DoDial (DialErr _) => false
  | DoRead _ _ _ (Some _) | DoWrite _ _ (WriteErr _ _) => false
  | _ => true
  end.

(** A handle that is there and open. *)
Definition open_conn (c : option Conn) : Prop := ∃ c0, c = Some c0 ∧ isOpen c0 = true.

(** Both handles are there and open and the four pumps are in their loops. *)
Definition healthy_tunnel (t : TCPTunnel) : Prop :=
  open_conn (inbound t) ∧ open_conn (outbound t) ∧ ∀ k, gone (pump k t) = false.

(** The lines of [join]: no error, no tunnel leaving. *)
Definition quiet (x : LogLine) : bool :=
  match x with LogAdded _ _ | LogTunnels _ => true | _ => false end.

(** Nothing has failed so far: the connections on their way to a tunnel
    and the tunnels are as they should be, no Close was called and no
    error logged, and a tunnel is in the registry from the insert of
    [join] on. *)
Definition healthy_inv (s : State) : Prop :=
  proc s = Running ∧
  (∀ c, mainG s = AtJoining c → open_conn c) ∧
  (∀ c, realmG s = AtJoin c → open_conn c) ∧
  (∀ p t, heap s !! p = Some t → healthy_tunnel t) ∧
  (∀ c, c ∈ syscalls s → dial_ok c = true) ∧
  (∀ x, x ∈ log s → quiet x = true) ∧
  (Z.of_nat (length (heap s)) ≤ maxInt →
   ∀ p t, heap s !! p = Some t →
          tunnels (realm s) !! tid t = Some p ∨ realmG s = AtRegister p).

(** ** A connection from Accept to the end of [leave] *)

(** The tunnel [newTCPTunnel] builds in state [s] around the connection
    of [peer], once connected to [dst]. *)
Definition tunnel_for (peer dst : string) (s : State) : TCPTunnel :=
  {| tid := (generateID (id s)).2; inbound := Some (newConn peer);
     outbound := Some (newConn dst);
     readFromInbound := AtRead; writeToOutbound := AtRecv;
     readFromOutbound := AtRead; writeToInbound := AtRecv |}.

(** The client goes away: the inbound Read fails and its pump tears the
    tunnel at [p] down. *)
Definition hangup (p : nat) (data : chunk) (e : error) : list Act :=
  DoRead p ToRemote data (Some e) :: teardown p RdIn.

(** ** How often a handle is closed *)

(** The pump is past its Close of handle [sd] in [leave]. *)
Definition past_close (sd : Side) (pm : Pump) : bool :=
  match sd, pm with
  | Inbound, (CloseOutbound | Finished) => true
  | Outbound, Finished => true
  | _, _ => false
  end.

(** The number of pumps of [t] past their Close of handle [sd]. *)
Definition closers (sd : Side) (t : TCPTunnel) : nat :=
  sum_list_with (λ k, Nat.b2n (past_close sd (pump k t))) [RdIn; WrOut; RdOut; WrIn].

(** The Close calls made on handle [sd] of the tunnel at [p], whatever
    they returned. *)
Definition is_close (p : nat) (sd : Side) (c : Syscall) : bool :=
  match c with
  | SysClose q sd' _ => bool_decide (q = p ∧ sd' = sd)
  | SysDial _ _ => false
  end.

Definition close_count (p : nat) (sd : Side) (s : State) : nat :=
  sum_list_with (λ c, Nat.b2n (is_close p sd c)) (syscalls s).

Definition close_count_inv (s : State) : Prop :=
  ∀ p sd, (∀ t, heap s !! p = Some t → close_count p sd s = closers sd t) ∧
          ((length (heap s) ≤ p)%nat → close_count p sd s = 0%nat).

(** ** Sample runs *)

Definition sample : State := NewTunnelRealm "" "9000" "example.org" "7".

Definition admission (peer dst : string) : list Act :=
  [DoAccept (AcceptOk peer); DoJoining; DoDial (DialOk dst); DoRegister].

(** The state [l] leads to from [sample]; [sample] itself when [l] cannot
    be run. *)
Definition after (l : list Act) : State := default sample (run l sample).

(** The tunnel at [p] and its handles, with placeholders where there is
    none. *)
Definition tunnel_at (p : nat) (s : State) : TCPTunnel :=
  default {| tid := ""; inbound := None; outbound := None;
             readFromInbound := Finished; writeToOutbound := Finished;
             readFromOutbound := Finished; writeToInbound := Finished |}
          (heap s !! p).

Definition handle (sd : Side) (t : TCPTunnel) : Conn :=
  default (newConn "") (conn sd t).

Definition ping : chunk := [Byte.x70; Byte.x69; Byte.x6e; Byte.x67].
Definition pong : chunk := [Byte.x70; Byte.x6f; Byte.x6e; Byte.x67].

(** One connection, [ping] relayed to the server and [pong] read from the
    client but still held by the reader. *)
Definition relaying : list Act :=
  admission "client" "server" ++
  [DoRead 0 ToRemote ping None; DoHandoff 0 ToRemote; DoWrite 0 ToRemote WriteOk;
   DoRead 0 ToRemote pong None].

(** One connection on which the client has closed and the server has reset:
    both readers have returned. *)
Definition closing : list Act :=
  admission "client" "server" ++
  [DoRead 0 ToRemote [] (Some EOF); DoRead 0 ToLocal [] (Some (ErrNet "reset"))].

(** One connection on which the client has closed: the inbound reader has
    returned, the outbound reader still stands at its Read. *)
Definition client_gone : list Act :=
  admission "client" "server" ++ [DoRead 0 ToRemote [] (Some EOF)].

(** A client that disconnects at once, both readers finishing their
    teardown before [join] inserts the tunnel. *)
Definition early_close : list Act :=
  [DoAccept (AcceptOk "client"); DoJoining; DoDial (DialOk "server");
   DoRead 0 ToRemote [] (Some EOF)] ++ teardown 0 RdIn ++
  [DoRead 0 ToLocal [] None] ++ teardown 0 RdOut ++ [DoRegister].

(** A first tunnel whose client has disconnected, while a second
    connection is being admitted. *)
Definition two_writers : list Act :=
  admission "c1" "server" ++ [DoRead 0 ToRemote [] (Some EOF)] ++
  [DoAccept (AcceptOk "c2"); DoJoining; DoDial (DialOk "server")].

(** * Properties *)

(** Closed statements about sample runs are settled by evaluation. *)
Ltac evaluate :=
  repeat match goal with |- _ ∧ _ => split end; vm_compute; reflexivity.

Lemma run_app l1 l2 s :
  run (l1 ++ l2) s = s' ← run l1 s; run l2 s'.
Proof.
  revert s. induction l1 as [|a l1 IH]; intros s; simpl; [done|].
  destruct (step a s); simpl; auto.
Qed.

Lemma reachable_step a s s' : reachable s → step a s = Some s' → reachable s'.
Proof.
  intros (b1 & b2 & d1 & d2 & l & Hl) Hs.
  exists b1, b2, d1, d2, (l ++ [a]). rewrite run_app, Hl. simpl. by rewrite Hs.
Qed.

Lemma reachable_run l s s' : reachable s → run l s = Some s' → reachable s'.
Proof.
  revert s. induction l as [|a l IH]; intros s Hr; simpl.
  - by intros [= <-].
  - destruct (step a s) as [s1|] eqn:E; [|done]. simpl.
    eauto using reachable_step.
Qed.

Lemma reachable_ind (P : State → Prop) :
  (∀ b1 b2 d1 d2, P (NewTunnelRealm b1 b2 d1 d2)) →
  (∀ a s s', reachable s → P s → step a s = Some s' → P s') →
  ∀ s, reachable s → P s.
Proof.
  intros H0 HS s (b1 & b2 & d1 & d2 & l & Hl). revert s Hl.
  induction l as [|a l IH] using rev_ind; intros s.
  - simpl. intros [= <-]. apply H0.
  - rewrite run_app. destruct (run l _) as [s1|] eqn:E; [|done]. simpl.
    destruct (step a s1) as [s2|] eqn:E2; [|done]. intros [= <-].
    apply (HS a s1 s2); [by exists b1, b2, d1, d2, l|by apply IH|done].
Qed.

(** *** C3: a failed dial is fatal *)

(** C3.  Whenever the realm is admitting a connection (it stands at the
    dial of [newTCPTunnel]) and the dial fails, the process exits with
    status 1: no action is possible afterwards, so there is no retry; the
    one dial made went to the fixed destination [dstHost:dstPort]; and no
    tunnel was created or registered. *)
Theorem dial_failure_exits (s : State) (conn : option Conn) (err : error) :
  proc s = Running →
  realmG s = AtJoin conn →
  ∃ s', step (DoDial (DialErr err)) s = Some s' ∧
        proc s' = Exited 1 ∧
        (∀ a, step a s' = None) ∧
        syscalls s' =
          syscalls s ++ [SysDial (dstHost (realm s) +:+ ":" +:+ dstPort (realm s)) (Some err)] ∧
        log s' =
          log s ++ [LogUnavailable (dstHost (realm s) +:+ ":" +:+ dstPort (realm s)) err] ∧
        heap s' = heap s ∧ tunnels (realm s') = tunnels (realm s) ∧ id s' = id s.
Proof.
  intros Hp Hr. eexists. unfold step. rewrite Hp, Hr. simpl.
  split; [reflexivity|]. repeat split; reflexivity.
Qed.

Lemma dial_failure_exits_witness :
  ∃ s', step (DoDial (DialErr (ErrNet "connection refused")))
          (after [DoAccept (AcceptOk "client"); DoJoining]) = Some s' ∧
        proc s' = Exited 1.
Proof.
  destruct (dial_failure_exits (after [DoAccept (AcceptOk "client"); DoJoining])
              (Some (newConn "client")) (ErrNet "connection refused"))
    as (s' & H1 & H2 & _); [reflexivity|reflexivity|].
  exists s'. split; assumption.
Defined.

(** *** C7: one iteration of a reader pump *)

Lemma firstn_min_length {A} (n : nat) (l : list A) :
  firstn (Nat.min n (length l)) l = firstn n l.
Proof.
  destruct (Nat.le_ge_cases n (length l)) as [H|H].
  - by rewrite Nat.min_l.
  - rewrite Nat.min_r by done. by rewrite !firstn_all2 by lia.
Qed.

Lemma firstn_slice {A} (n : nat) (data b : list A) :
  firstn (Nat.min n (length data)) (firstn (Nat.min n (length data)) data ++ b)
  = firstn n data.
Proof.
  rewrite firstn_app, length_firstn.
  replace (Nat.min n (length data) - Nat.min (Nat.min n (length data)) (length data))%nat
    with 0%nat by lia.
  simpl. rewrite app_nil_r, firstn_firstn, Nat.min_id. apply firstn_min_length.
Qed.

(** The three ways one iteration of [readFromConn] can go. *)
Lemma readFromConn_data (c : Conn) (data : chunk) :
  isOpen c = true →
  readFromConn (Some c) data None
  = Done ({| remoteAddr := remoteAddr c; isOpen := isOpen c;
             received := received c ++ [firstn readBufSize data];
             sent := sent c; torn := torn c |},
          AtSend (firstn readBufSize data)).
Proof.
  intros Ho. unfold readFromConn, conn_Read. rewrite Ho, length_replicate.
  by rewrite firstn_slice, firstn_min_length.
Qed.

Lemma readFromConn_error (c : Conn) (data : chunk) (e : error) :
  isOpen c = true →
  readFromConn (Some c) data (Some e) = Done (c, Returned e).
Proof. intros Ho. unfold readFromConn, conn_Read. by rewrite Ho. Qed.

Lemma readFromConn_closed (c : Conn) (data : chunk) (err : option error) :
  isOpen c = false →
  readFromConn (Some c) data err = Done (c, Returned ErrClosed).
Proof. intros Ho. unfold readFromConn, conn_Read. by rewrite Ho. Qed.

Lemma firstn_readBufSize_nil (data : chunk) :
  firstn readBufSize data = [] ↔ data = [].
Proof. split; [|by intros ->]. by destruct data. Qed.

(** C7, as the code has it.  In one iteration [readFromConn] either hands a
    chunk to the channel or returns.  It hands a chunk exactly when the Read
    returns no error; the chunk is then the first [readBufSize] = 1024
    bytes the network offered (fewer when fewer were offered), so at most
    1024 bytes, and it is empty exactly when the Read returned zero bytes:
    nothing in the loop tests [n].  It returns exactly when the Read returns
    an error, with that error, and hands nothing. *)
Theorem readFromConn_iteration (c : Conn) (data : chunk) (err : option error) :
  match readFromConn (Some c) data err with
  | Done (c', AtSend bytes) =>
      isOpen c = true ∧ err = None ∧
      bytes = firstn readBufSize data ∧ (length bytes ≤ readBufSize)%nat ∧
      (bytes = [] ↔ data = []) ∧
      received c' = received c ++ [bytes]
  | Done (c', Returned e) =>
      (if isOpen c then err = Some e else e = ErrClosed) ∧ c' = c
  | _ => False
  end.
Proof.
  destruct (isOpen c) eqn:Ho.
  - destruct err as [e|].
    + by rewrite readFromConn_error.
    + rewrite readFromConn_data by done. simpl.
      repeat split; try done.
      * rewrite length_firstn. lia.
      * apply firstn_readBufSize_nil.
      * apply firstn_readBufSize_nil.
  - by rewrite readFromConn_closed.
Qed.

(** C7, the claim as stated fails: a Read that returns zero bytes and no
    error makes the reader hand an empty chunk to the channel, and the
    writer pump receives it. *)
Lemma reader_hands_empty_chunk :
  readFromConn (Some (newConn "client")) [] None
  = Done ({| remoteAddr := "client"; isOpen := true; received := [[]];
             sent := []; torn := [] |}, AtSend []) ∧
  pump WrOut <$> heap (after (admission "client" "server" ++
                                [DoRead 0 ToRemote [] None; DoHandoff 0 ToRemote])) !! 0%nat
  = Some (AtWrite []).
Proof. evaluate. Qed.

(** Under the discipline of a stream socket, whose Read never returns zero
    bytes without an error, only non-empty chunks are handed off. *)
Lemma readFromConn_stream (c c' : Conn) (data bytes : chunk) (err : option error) :
  (data = [] → err ≠ None) →
  readFromConn (Some c) data err = Done (c', AtSend bytes) →
  bytes ≠ [].
Proof.
  intros Hs E. destruct (isOpen c) eqn:Ho.
  - destruct err as [e|].
    + by rewrite readFromConn_error in E.
    + rewrite readFromConn_data in E by done. injection E as _ <-.
      intros Hn. apply (proj1 (firstn_readBufSize_nil _)) in Hn. exact (Hs Hn eq_refl).
  - by rewrite readFromConn_closed in E.
Qed.

(** *** C10 and C8: an Accept that fails *)

Lemma main_accept_error (s : State) (err : error) :
  proc s = Running → mainG s = AtAccept →
  step (DoAccept (AcceptErr err)) s
  = Some (set_mainG (AtJoining None) (logf (LogError err) s)).
Proof. intros Hp Hm. unfold step. by rewrite Hp, Hm. Qed.

Lemma realm_admits_nil (s : State) (peer : string) :
  proc s = Running → mainG s = AtJoining None → realmG s = AtSelect →
  ∃ s2 s3 s4 tunnel,
    step DoJoining s = Some s2 ∧ realmG s2 = AtJoin None ∧
    step (DoDial (DialOk peer)) s2 = Some s3 ∧
    heap s3 = heap s ++ [tunnel] ∧ inbound tunnel = None ∧
    realmG s3 = AtRegister (length (heap s)) ∧ proc s3 = Running ∧
    step DoRegister s3 = Some s4 ∧
    tunnels (realm s4) !! tid tunnel = Some (length (heap s)).
Proof.
  intros Hp Hm Hr.
  set (s2 := set_realmG (AtJoin None) (set_mainG AtAccept s)).
  assert (step DoJoining s = Some s2) as E2
    by (unfold step; by rewrite Hp, Hm, Hr).
  destruct (newTCPTunnel None (DialOk peer) s2) as [s3' o] eqn:E.
  unfold newTCPTunnel in E. simpl in E. injection E as <- <-.
  set (tunnel := {| tid := Itoa (wrap_int (id s + 1)); inbound := None;
                    outbound := Some (newConn peer);
                    readFromInbound := AtRead; writeToOutbound := AtRecv;
                    readFromOutbound := AtRead; writeToInbound := AtRecv |}).
  set (s3 := set_realmG (AtRegister (length (heap s)))
               (set_heap (heap s ++ [tunnel])
                  (set_id (wrap_int (id s + 1))
                     (sys (SysDial (dstHost (realm s) +:+ ":" +:+ dstPort (realm s)) None)
                        s2)))).
  assert (step (DoDial (DialOk peer)) s2 = Some s3) as E3
    by (unfold step; simpl; by rewrite Hp).
  assert (step DoRegister s3 = Some (set_realmG AtSelect
                                       (join_register (length (heap s)) tunnel s3))) as E4.
  { unfold step. simpl. rewrite Hp. simpl.
    by rewrite list_lookup_middle. }
  eexists s2, s3, _, tunnel. repeat split; try done.
  simpl. apply lookup_insert_eq.
Qed.

(** C10.  In every iteration of the accept loop in which Accept fails, the
    error is logged and the nil handle that came with it is what [main]
    sends on [realm.joining]; and whenever [main] stands at that send and
    the realm goroutine is ready to receive, the realm takes the nil handle
    into [join], dials the destination and, the dial succeeding, allocates
    a tunnel whose inbound handle is nil and inserts it in the registry. *)
Theorem accept_error_sends_nil (s : State) (err : error) :
  proc s = Running →
  mainG s = AtAccept →
  ∃ s1, step (DoAccept (AcceptErr err)) s = Some s1 ∧
        log s1 = log s ++ [LogError err] ∧
        mainG s1 = AtJoining None ∧
        ∀ s' peer,
          proc s' = Running → mainG s' = AtJoining None → realmG s' = AtSelect →
          ∃ s2 s3 s4 tunnel,
            step DoJoining s' = Some s2 ∧ realmG s2 = AtJoin None ∧
            step (DoDial (DialOk peer)) s2 = Some s3 ∧
            heap s3 = heap s' ++ [tunnel] ∧ inbound tunnel = None ∧
            step DoRegister s3 = Some s4 ∧
            tunnels (realm s4) !! tid tunnel = Some (length (heap s')).
Proof.
  intros Hp Hm. eexists. split; [by apply main_accept_error|].
  split; [reflexivity|]. split; [reflexivity|].
  intros s' peer Hp' Hm' Hr'.
  destruct (realm_admits_nil s' peer Hp' Hm' Hr')
    as (s2 & s3 & s4 & t & H1 & H2 & H3 & H4 & H5 & _ & _ & H6 & H7).
  by exists s2, s3, s4, t.
Qed.

Lemma accept_error_sends_nil_witness :
  ∃ s1, step (DoAccept (AcceptErr (ErrNet "too many open files"))) sample = Some s1 ∧
        mainG s1 = AtJoining None.
Proof.
  destruct (accept_error_sends_nil sample (ErrNet "too many open files"))
    as (s1 & H1 & _ & H2 & _); [reflexivity|reflexivity|].
  exists s1. split; assumption.
Defined.

(** The nil handle ends the process whatever the network does next: a
    failed dial exits, and after a successful one the inbound reader calls
    Read on the nil interface. *)
Lemma accept_error_fatal (s : State) (err : error) :
  proc s = Running → mainG s = AtAccept → realmG s = AtSelect →
  (∀ e, proc <$> run [DoAccept (AcceptErr err); DoJoining; DoDial (DialErr e)] s
        = Some (Exited 1)) ∧
  (∀ peer data rerr,
     proc <$> run [DoAccept (AcceptErr err); DoJoining; DoDial (DialOk peer);
                   DoRead (length (heap s)) ToRemote data rerr] s
     = Some Panicked).
Proof.
  intros Hp Hm Hr. split.
  - intros e. unfold run, step. do 4 (simpl; rewrite ?Hp, ?Hm, ?Hr). reflexivity.
  - intros peer data rerr. unfold run, step.
    do 4 (simpl; rewrite ?Hp, ?Hm, ?Hr).
    rewrite list_lookup_middle by done. reflexivity.
Qed.

(** C8, the code at a failing Accept: the error is logged and [main] goes
    on, but with the nil handle, and the process is gone as soon as the
    inbound reader of the tunnel built around it runs (or at once when the
    dial fails). *)
Lemma accept_error_ends_process :
  log <$> run [DoAccept (AcceptErr (ErrNet "too many open files"))] sample
  = Some [LogError (ErrNet "too many open files")] ∧
  proc <$> run [DoAccept (AcceptErr (ErrNet "too many open files")); DoJoining;
                DoDial (DialOk "server"); DoRead 0 ToRemote [] None] sample
  = Some Panicked ∧
  proc <$> run [DoAccept (AcceptErr (ErrNet "too many open files")); DoJoining;
                DoDial (DialErr (ErrNet "connection refused"))] sample
  = Some (Exited 1).
Proof. intros; evaluate. Qed.

(** *** C4: the registry and closed tunnels *)

Lemma reachable_after (l : list Act) :
  run l sample = Some (after l) → reachable (after l).
Proof. intros H. by exists "", "9000", "example.org", "7", l. Qed.

Lemma early_close_run :
  run early_close sample = Some (after early_close) ∧
  tunnels (realm (after early_close)) !! "1" = Some 0%nat ∧
  torn_down 0 (after early_close) = true ∧
  (pump RdIn <$> heap (after early_close) !! 0%nat) = Some Finished ∧
  (pump RdOut <$> heap (after early_close) !! 0%nat) = Some Finished ∧
  (pump WrIn <$> heap (after early_close) !! 0%nat) = Some AtRecv ∧
  (pump WrOut <$> heap (after early_close) !! 0%nat) = Some AtRecv.
Proof. evaluate. Qed.

(** C4, the code on a client that disconnects at once: [newTCPTunnel] has
    started the pumps before [join] inserts the tunnel, so both readers can
    finish their teardown first; the insert then registers, under the
    identity 1, a tunnel whose two handles are closed.  Both readers have
    finished and both writers wait on their channels: no pump is left to
    remove the entry. *)
Theorem registry_holds_closed_tunnel :
  reachable (after early_close) ∧
  tunnels (realm (after early_close)) !! "1" = Some 0%nat ∧
  torn_down 0 (after early_close) = true ∧
  ¬ registry_live (after early_close) ∧
  pump RdIn (tunnel_at 0 (after early_close)) = Finished ∧
  pump RdOut (tunnel_at 0 (after early_close)) = Finished ∧
  pump WrIn (tunnel_at 0 (after early_close)) = AtRecv ∧
  pump WrOut (tunnel_at 0 (after early_close)) = AtRecv.
Proof.
  destruct early_close_run as (Hr & Ht & Hc & _).
  split; [by apply reachable_after|]. split; [done|]. split; [done|].
  split; [intros H; specialize (H _ _ Ht); congruence|].
  evaluate.
Qed.

(** *** C9: who writes the registry *)

Lemma two_writers_run :
  run two_writers sample = Some (after two_writers) ∧
  writes_registry (DoExit 0 RdIn) (after two_writers) = Some (GPump 0 RdIn) ∧
  writes_registry DoRegister (after two_writers) = Some GRealm ∧
  tunnels (realm (after two_writers)) !! "1" = Some 0%nat ∧
  (s' ← step (DoExit 0 RdIn) (after two_writers); Some (tunnels (realm s') !! "1"))
  = Some None ∧
  (s' ← step DoRegister (after two_writers); Some (tunnels (realm s') !! "2"))
  = Some (Some 1%nat).
Proof. evaluate. Qed.

(** C9, the code with one tunnel whose client has disconnected while a
    second connection is being admitted: the delete of [leave] is run by
    the reader pump itself, not by the realm goroutine, and it does remove
    the entry 1; in the same state the realm goroutine stands at the insert
    of the entry 2; both steps are enabled and nothing orders them. *)
Theorem registry_written_by_pump :
  reachable (after two_writers) ∧
  writes_registry (DoExit 0 RdIn) (after two_writers) = Some (GPump 0 RdIn) ∧
  writes_registry DoRegister (after two_writers) = Some GRealm ∧
  tunnels (realm (after two_writers)) !! "1" = Some 0%nat ∧
  (s' ← step (DoExit 0 RdIn) (after two_writers); Some (tunnels (realm s') !! "1"))
  = Some None ∧
  (s' ← step DoRegister (after two_writers); Some (tunnels (realm s') !! "2"))
  = Some (Some 1%nat) ∧
  registry_race (after two_writers).
Proof.
  destruct two_writers_run as (Hr & H1 & H2 & H0 & H3 & H4).
  split; [by apply reachable_after|].
  split; [done|]. split; [done|]. split; [done|]. split; [done|]. split; [done|].
  exists (DoExit 0 RdIn), DoRegister, (GPump 0 RdIn), GRealm.
  split; [done|]. split; [done|]. split; [done|].
  split.
  - destruct (step (DoExit 0 RdIn) _); [by eexists|done].
  - destruct (step DoRegister _); [by eexists|done].
Qed.

(** *** C5: tunnel identities *)

Lemma wrap_int_small z : - 2 ^ (intSize - 1) ≤ z ≤ maxInt → wrap_int z = z.
Proof.
  unfold wrap_int, maxInt, intSize. intros H. rewrite Z.mod_small; lia.
Qed.

Lemma wrap_int_succ z : wrap_int (wrap_int z + 1) = wrap_int (z + 1).
Proof.
  unfold wrap_int.
  replace ((z + 2 ^ (intSize - 1)) mod 2 ^ intSize - 2 ^ (intSize - 1) + 1 + 2 ^ (intSize - 1))
    with ((z + 2 ^ (intSize - 1)) mod 2 ^ intSize + 1) by lia.
  rewrite Zplus_mod_idemp_l. f_equal. f_equal. lia.
Qed.

Lemma Itoa_inj a b : Itoa a = Itoa b → a = b.
Proof.
  unfold Itoa. intros H.
  assert (Some (Z.to_int a) = Some (Z.to_int b)) as E
    by (rewrite <- !NilEmpty.isi; by rewrite H).
  injection E as E. rewrite <- (DecimalZ.of_to a), <- (DecimalZ.of_to b). by rewrite E.
Qed.

Lemma insert_tids (p : nat) (t : TCPTunnel) (h : list TCPTunnel) :
  (∀ t0, h !! p = Some t0 → tid t = tid t0) →
  tid <$> <[p := t]> h = tid <$> h.
Proof.
  intros H. rewrite list_fmap_insert.
  destruct (h !! p) as [t0|] eqn:E.
  - rewrite (H t0 eq_refl). apply list_insert_id. by rewrite list_lookup_fmap, E.
  - apply list_insert_ge. rewrite length_fmap. by apply lookup_ge_None.
Qed.

Lemma heap_leave_delete t e s : heap (leave_delete t e s) = heap s.
Proof. unfold leave_delete. by destruct (decide _). Qed.
Lemma id_leave_delete t e s : id (leave_delete t e s) = id s.
Proof. unfold leave_delete. by destruct (decide _). Qed.
Lemma heap_store p t s : heap (store p t s) = <[p := t]> (heap s).
Proof. done. Qed.
Lemma id_store p t s : id (store p t s) = id s.
Proof. done. Qed.

Lemma step_allocates a s s' :
  step a s = Some s' →
  (tid <$> heap s' = tid <$> heap s ∧ id s' = id s) ∨
  (∃ t, heap s' = heap s ++ [t] ∧ id s' = wrap_int (id s + 1) ∧ tid t = Itoa (id s')).
Proof.
  unfold step. intros H.
  destruct (proc s); [|done..].
  destruct a; simpl in H.
  - destruct (mainG s); [|done]. injection H as <-. left.
    unfold main_accept. destruct o; done.
  - repeat case_match; try done. injection H as <-. by left.
  - destruct (realmG s); try done. destruct o; simpl in H.
    + injection H as <-. right. eexists. simpl. done.
    + injection H as <-. by left.
  - destruct (realmG s); try done.
    destruct (heap s !! tunnel) eqn:E; [|done]. simpl in H. injection H as <-.
    by left.
  - destruct (heap s !! p) as [t|] eqn:E; [|done]. simpl in H.
    destruct (pump (reader d) t); try done.
    destruct (readFromConn _ _ _) as [[c pm]|]; injection H as <-.
    + left. split; [|done]. apply insert_tids. intros t0 E0. by simplify_eq.
    + by left.
  - destruct (heap s !! p) as [t|] eqn:E; [|done]. simpl in H.
    repeat case_match; try done. injection H as <-.
    left. split; [|done]. apply insert_tids. intros t0 E0. by simplify_eq.
  - destruct (heap s !! p) as [t|] eqn:E; [|done]. simpl in H.
    destruct (pump (writer d) t); try done.
    destruct (writeToConn _ _ _) as [[c pm]|]; injection H as <-.
    + left. split; [|done]. apply insert_tids. intros t0 E0. by simplify_eq.
    + by left.
  - destruct (heap s !! p) as [t|] eqn:E; [|done]. simpl in H.
    unfold pump_exit, leave_close in H. simpl in H.
    destruct (pump k t); try done.
    + injection H as <-. left. split; [|by rewrite id_store, id_leave_delete].
      rewrite heap_store, heap_leave_delete. apply insert_tids. intros t0 E0. by simplify_eq.
    + destruct (inbound t) as [c|]; [|injection H as <-; by left].
      destruct (conn_Close c) as [e c']. injection H as <-. left. split; [|done].
      apply insert_tids. intros t0 E0. by simplify_eq.
    + destruct (outbound t) as [c|]; [|injection H as <-; by left].
      destruct (conn_Close c) as [e c']. injection H as <-. left. split; [|done].
      apply insert_tids. intros t0 E0. by simplify_eq.
Qed.

Lemma tids_lookup (h h' : list TCPTunnel) i t :
  tid <$> h' = tid <$> h → h' !! i = Some t → ∃ t0, h !! i = Some t0 ∧ tid t0 = tid t.
Proof.
  intros E H. assert ((tid <$> h) !! i = Some (tid t)) as H'
    by (rewrite <- E, list_lookup_fmap, H; done).
  rewrite list_lookup_fmap in H'. destruct (h !! i) as [t0|]; [|done].
  injection H' as H'. by exists t0.
Qed.

Lemma uniq_ids_reachable s : reachable s → uniq_ids s.
Proof.
  induction 1 as [|a s s' Hr [IH1 IH2] Hs] using reachable_ind.
  - split; [done|]. intros i t H. done.
  - destruct (step_allocates a s s' Hs) as [[Eh Ei]|(t & Eh & Ei & Et)].
    + split.
      * rewrite Ei, IH1. f_equal. f_equal.
        apply (f_equal length) in Eh. rewrite !length_fmap in Eh. by rewrite Eh.
      * intros i t H. destruct (tids_lookup _ _ _ _ Eh H) as (t0 & H0 & <-). eauto.
    + split.
      * rewrite Ei, IH1, Eh, length_app, wrap_int_succ. simpl. f_equal. lia.
      * intros i t' H. rewrite Eh in H. apply lookup_app_Some in H as [H|[Hl H]]; [eauto|].
        destruct (i - length (heap s))%nat as [|n] eqn:En; [|done].
        injection H as <-. rewrite Et, Ei, IH1, wrap_int_succ. do 2 f_equal.
        apply Nat.sub_0_le in En. lia.
Qed.

(** C5.  In every state the process reaches, by whatever interleaving of
    admissions with the other goroutines, and as long as no more tunnels
    were created than [int] can count: the counter [id] equals the number
    of identities allocated, the [i]-th tunnel allocated carries the
    decimal string of [i + 1], two different tunnels never carry the same
    identity, and a step leaves the counter alone or adds one to it, so it
    is never reset and no identity comes back. *)
Theorem identities_unique (s : State) :
  reachable s →
  Z.of_nat (length (heap s)) ≤ maxInt →
  id s = Z.of_nat (length (heap s)) ∧
  (∀ i t, heap s !! i = Some t → tid t = Itoa (Z.of_nat i + 1)) ∧
  (∀ i j ti tj, heap s !! i = Some ti → heap s !! j = Some tj → i ≠ j →
                tid ti ≠ tid tj) ∧
  (∀ a s', step a s = Some s' → Z.of_nat (length (heap s')) ≤ maxInt →
           id s' = id s ∨ id s' = id s + 1).
Proof.
  intros Hr Hb. destruct (uniq_ids_reachable s Hr) as [Hi Ht].
  assert (∀ i t, heap s !! i = Some t → tid t = Itoa (Z.of_nat i + 1)) as Ht'.
  { intros i t H. rewrite (Ht i t H). f_equal. apply wrap_int_small.
    apply lookup_lt_Some in H. unfold maxInt, intSize in *. lia. }
  assert (id s = Z.of_nat (length (heap s))) as Hi'.
  { rewrite Hi. apply wrap_int_small. unfold maxInt, intSize in *. lia. }
  split; [done|]. split; [done|]. split.
  - intros i j ti tj Hti Htj Hne E.
    rewrite (Ht' i ti Hti), (Ht' j tj Htj) in E. apply Itoa_inj in E. lia.
  - intros a s' Hs Hb'.
    destruct (step_allocates a s s' Hs) as [[_ Ei]|(t & Eh & Ei & _)]; [by left|].
    right. rewrite Ei. apply wrap_int_small.
    rewrite Eh, length_app in Hb'. simpl in Hb'. unfold maxInt, intSize in *. lia.
Qed.

Lemma identities_unique_witness :
  let s := after (admission "c1" "server" ++ admission "c2" "server") in
  id s = Z.of_nat (length (heap s)) ∧
  (∀ i j ti tj, heap s !! i = Some ti → heap s !! j = Some tj → i ≠ j →
                tid ti ≠ tid tj).
Proof.
  intros s.
  destruct (identities_unique s) as (H1 & _ & H2 & _).
  - exists "", "9000", "example.org", "7",
      (admission "c1" "server" ++ admission "c2" "server").
    vm_compute. reflexivity.
  - vm_compute. intros H. discriminate H.
  - split; assumption.
Defined.

(** *** Projections of the tunnel and state updates *)

Lemma pump_set_pump k x t : pump k (set_pump k x t) = x.
Proof. by destruct k. Qed.
Lemma pump_set_pump_ne k k' x t : k ≠ k' → pump k' (set_pump k x t) = pump k' t.
Proof. by destruct k, k'. Qed.
Lemma pump_set_conn k sd c t : pump k (set_conn sd c t) = pump k t.
Proof. by destruct k. Qed.
Lemma String_set_pump k x t : String (set_pump k x t) = String t.
Proof. done. Qed.

Lemma step_DoExit p k t s :
  proc s = Running → heap s !! p = Some t →
  step (DoExit p k) s = pump_exit p k t s.
Proof. intros Hp Ht. unfold step. by rewrite Hp, Ht. Qed.

Lemma mainG_leave_delete t e s : mainG (leave_delete t e s) = mainG s.
Proof. unfold leave_delete. by destruct (decide _). Qed.
Lemma realmG_leave_delete t e s : realmG (leave_delete t e s) = realmG s.
Proof. unfold leave_delete. by destruct (decide _). Qed.

(** *** C1: the order of the chunks *)

Lemma pending_idle_reachable s : reachable s → pending_idle s.
Proof.
  induction 1 as [|a s s' Hr [IH1 IH2] Hs] using reachable_ind;
    [split; intros c Hc; simpl in Hc; discriminate|].
  assert (∀ x : State, mainG x = mainG s → realmG x = realmG s → pending_idle x) as Hsame.
  { intros x E1 E2. split; intros c Hc; [apply IH1|apply IH2]; congruence. }
  unfold step in Hs. destruct (proc s); [|done..].
  destruct a; simpl in Hs.
  - destruct (mainG s) eqn:Em; [|done]. injection Hs as <-.
    unfold main_accept.
    destruct o; simpl; (split; [|exact IH2]); intros c Hc; simpl in Hc;
      injection Hc as <-; by unfold idle_conn.
  - destruct (mainG s) eqn:Em; [done|]. destruct (realmG s) eqn:Er; try done.
    injection Hs as <-. split; intros c Hc; simpl in Hc; [done|].
    injection Hc as <-. by apply IH1.
  - destruct (realmG s) eqn:Er; try done. destruct o; simpl in Hs; injection Hs as <-.
    + split; intros c Hc; simpl in Hc; [by apply IH1|done].
    + split; intros c Hc; simpl in Hc; rewrite ?Er in Hc; [by apply IH1|by apply IH2].
  - destruct (realmG s) eqn:Er; try done.
    destruct (heap s !! tunnel); [|done]. simpl in Hs. injection Hs as <-.
    split; intros c Hc; simpl in Hc; [by apply IH1|done].
  - destruct (heap s !! p) as [t|]; [|done]. simpl in Hs.
    destruct (pump (reader d) t); try done.
    destruct (readFromConn _ _ _) as [[c pm]|]; injection Hs as <-; by apply Hsame.
  - destruct (heap s !! p) as [t|]; [|done]. simpl in Hs.
    repeat case_match; try done. injection Hs as <-. by apply Hsame.
  - destruct (heap s !! p) as [t|]; [|done]. simpl in Hs.
    destruct (pump (writer d) t); try done.
    destruct (writeToConn _ _ _) as [[c pm]|]; injection Hs as <-; by apply Hsame.
  - destruct (heap s !! p) as [t|]; [|done]. simpl in Hs.
    unfold pump_exit, leave_close in Hs. simpl in Hs.
    destruct (pump k t); try done.
    + injection Hs as <-.
      apply Hsame; [apply mainG_leave_delete|apply realmG_leave_delete].
    + destruct (inbound t) as [c|]; [|injection Hs as <-; by apply Hsame].
      destruct (conn_Close c). injection Hs as <-. by apply Hsame.
    + destruct (outbound t) as [c|]; [|injection Hs as <-; by apply Hsame].
      destruct (conn_Close c). injection Hs as <-. by apply Hsame.
Qed.

Lemma step_heap a s s' :
  pending_idle s →
  step a s = Some s' →
  (heap s' = heap s ∧
   (syscalls s' = syscalls s ∨ ∃ addr e, syscalls s' = syscalls s ++ [SysDial addr e])) ∨
  (∃ t addr, heap s' = heap s ++ [t] ∧ fresh_tunnel t ∧
             syscalls s' = syscalls s ++ [SysDial addr None]) ∨
  (∃ p t calls t', heap s !! p = Some t ∧ heap s' = <[p := t']> (heap s) ∧
                   tunnel_step t calls t' ∧
                   syscalls s' = syscalls s ++ close_calls p calls).
Proof.
  unfold step. intros [_ Hpi] H.
  destruct (proc s); [|done..].
  destruct a; simpl in H.
  - destruct (mainG s); [|done]. injection H as <-. left.
    unfold main_accept. destruct o; simpl; auto.
  - repeat case_match; try done. injection H as <-. left. auto.
  - destruct (realmG s) as [|c|]; try done. destruct o; simpl in H.
    + injection H as <-. right. left. eexists _, _. simpl. split; [done|].
      split; [|done]. unfold fresh_tunnel. simpl. split; [by apply Hpi|]. done.
    + injection H as <-. left. simpl. eauto.
  - destruct (realmG s); try done.
    destruct (heap s !! tunnel) eqn:E; [|done]. simpl in H. injection H as <-.
    left. auto.
  - destruct (heap s !! p) as [t|] eqn:E; [|done]. simpl in H.
    destruct (pump (reader d) t) eqn:Ep; try done.
    destruct (readFromConn _ _ _) as [[c pm]|] eqn:Er; injection H as <-.
    + right. right. eexists p, t, [], _. split; [done|]. split; [done|].
      split; [by eapply ts_read|]. simpl. by rewrite app_nil_r.
    + left. auto.
  - destruct (heap s !! p) as [t|] eqn:E; [|done]. simpl in H.
    destruct (pump (reader d) t) eqn:Ep; try done.
    destruct (pump (writer d) t) eqn:Ew; try done. injection H as <-.
    right. right. eexists p, t, [], _. split; [done|]. split; [done|].
    split; [by eapply ts_handoff|]. simpl. by rewrite app_nil_r.
  - destruct (heap s !! p) as [t|] eqn:E; [|done]. simpl in H.
    destruct (pump (writer d) t) eqn:Ep; try done.
    destruct (writeToConn _ _ _) as [[c pm]|] eqn:Er; injection H as <-.
    + right. right. eexists p, t, [], _. split; [done|]. split; [done|].
      split; [by eapply ts_write|]. simpl. by rewrite app_nil_r.
    + left. auto.
  - destruct (heap s !! p) as [t|] eqn:E; [|done]. simpl in H.
    unfold pump_exit, leave_close in H. simpl in H.
    destruct (pump k t) eqn:Ep; try done.
    + injection H as <-. right. right. eexists p, t, [], _. split; [done|].
      split; [|split; [by eapply ts_leave|]].
      * change (heap (store p (set_pump k CloseInbound t) (leave_delete t err s)))
          with (<[p := set_pump k CloseInbound t]> (heap (leave_delete t err s))).
        by rewrite heap_leave_delete.
      * change (syscalls (store p (set_pump k CloseInbound t) (leave_delete t err s)))
          with (syscalls (leave_delete t err s)).
        unfold leave_delete. destruct (decide _); simpl; by rewrite app_nil_r.
    + destruct (inbound t) as [c|] eqn:Ec; [|injection H as <-; left; auto].
      destruct (conn_Close c) as [e c'] eqn:Ecl. injection H as <-.
      right. right. eexists p, t, _, _. split; [done|]. split; [done|].
      replace c' with (conn_Close c).2 by by rewrite Ecl.
      split; [by eapply ts_close_in|]. simpl. by rewrite Ecl.
    + destruct (outbound t) as [c|] eqn:Ec; [|injection H as <-; left; auto].
      destruct (conn_Close c) as [e c'] eqn:Ecl. injection H as <-.
      right. right. eexists p, t, _, _. split; [done|]. split; [done|].
      replace c' with (conn_Close c).2 by by rewrite Ecl.
      split; [by eapply ts_close_out|]. simpl. by rewrite Ecl.
Qed.

Lemma readFromConn_logs oc data err c pm :
  readFromConn oc data err = Done (c, pm) →
  ∃ c0, oc = Some c0 ∧ sent c = sent c0 ∧ torn c = torn c0 ∧
        ((∃ bytes, pm = AtSend bytes ∧ received c = received c0 ++ [bytes]) ∨
         (∃ e, pm = Returned e ∧ received c = received c0)).
Proof.
  destruct oc as [c0|]; [|done]. intros H. exists c0. split; [done|].
  destruct (isOpen c0) eqn:Ho; [destruct err as [e|]|].
  - rewrite readFromConn_error in H by done. simplify_eq. eauto 10.
  - rewrite readFromConn_data in H by done. simplify_eq. simpl. eauto 10.
  - rewrite readFromConn_closed in H by done. simplify_eq. eauto 10.
Qed.

Lemma writeToConn_logs oc bytes o c pm :
  writeToConn oc bytes o = Done (c, pm) →
  ∃ c0, oc = Some c0 ∧ received c = received c0 ∧
        ((pm = AtRecv ∧ sent c = sent c0 ++ [bytes] ∧ torn c = torn c0) ∨
         (∃ e n, pm = Returned e ∧ sent c = sent c0 ∧
                 torn c = torn c0 ++ firstn n bytes)).
Proof.
  destruct oc as [c0|]; [|done]. intros H. exists c0. split; [done|].
  unfold writeToConn, conn_Write in H.
  destruct (isOpen c0) eqn:Ho; [destruct o as [|n e]|]; simpl in H; simplify_eq; simpl.
  - eauto.
  - split; [done|]. right. by exists e, n.
  - split; [done|]. right. exists ErrClosed, 0%nat. by rewrite app_nil_r.
Qed.

Lemma conn_Close_logs c :
  received (conn_Close c).2 = received c ∧ sent (conn_Close c).2 = sent c ∧
  torn (conn_Close c).2 = torn c.
Proof. unfold conn_Close. by destruct (isOpen c). Qed.

Lemma relay_inv_fresh d t : fresh_tunnel t → relay_inv d t.
Proof.
  intros ((Hi1 & Hi2 & Hi3 & _) & (Ho1 & Ho2 & Ho3 & _) & H1 & H2 & H3 & H4).
  unfold relay_inv, chunks_read, chunks_written. destruct d; simpl; rewrite ?H1, ?H2, ?H3, ?H4; simpl;
    by rewrite ?Hi1, ?Hi2, ?Hi3, ?Ho1, ?Ho2, ?Ho3.
Qed.

Ltac relay_hyps :=
  repeat match goal with
         | H : _ ∧ _ |- _ => destruct H
         | H : ∃ _, _ |- _ => destruct H
         | H : _ ∨ _ |- _ => destruct H
         end;
  simplify_eq; simpl in *.

Ltac relay_rewrite :=
  repeat match goal with
         | H : received _ = _ |- _ => rewrite H; clear H
         | H : sent _ = _ |- _ => rewrite H; clear H
         | H : torn _ = _ |- _ => rewrite H; clear H
         | H : received_of _ = _ |- _ => rewrite H; clear H
         | H : torn_of _ = _ |- _ => rewrite H; clear H
         end.

Ltac relay_close :=
  first [ done
        | split; [by rewrite <- ?app_assoc|done]
        | eexists _, _; split;
          [rewrite <- ?app_assoc; simpl; reflexivity
          |first [done | apply prefix_take | by apply prefix_nil]] ].

Lemma relay_inv_step d t calls t' :
  tunnel_step t calls t' → relay_inv d t → relay_inv d t'.
Proof.
  intros Hs. destruct Hs as [d0 data err c pm Hp Hr|d0 bytes Hp Hw|d0 bytes o c pm Hp Hw
                             |k e Hp|k c Hp Hc|k c Hp Hc].
  - apply readFromConn_logs in Hr as (c0 & Hc0 & Hsent & Htorn & Hrd).
    unfold relay_inv, chunks_read, chunks_written. destruct d, d0; simpl in *; rewrite ?Hp, ?Hc0; simpl;
      match goal with |- context [match ?x with _ => _ end] => destruct x end;
      try done; intros Hinv; relay_hyps; relay_rewrite; relay_close.
  - unfold relay_inv, chunks_read, chunks_written. destruct d, d0; simpl in *; rewrite ?Hp, ?Hw; simpl;
      try done;
      match goal with |- context [match ?x with _ => _ end] => destruct x end;
      try done; intros Hinv; relay_hyps; relay_rewrite; relay_close.
  - apply writeToConn_logs in Hw as (c0 & Hc0 & Hrecv & Hw).
    unfold relay_inv, chunks_read, chunks_written. destruct d, d0; simpl in *; rewrite ?Hp, ?Hc0; simpl;
      try (match goal with |- context [match ?x with _ => _ end] => destruct x end);
      try done; intros Hinv; relay_hyps; relay_rewrite; relay_close.
  - unfold relay_inv, chunks_read, chunks_written. destruct d, k; simpl in *; rewrite ?Hp; simpl;
      try (match goal with |- context [match ?x with _ => _ end] => destruct x end);
      try done; intros Hinv; relay_hyps; relay_rewrite; relay_close.
  - destruct (conn_Close_logs c) as (H1 & H2 & H3).
    unfold relay_inv, chunks_read, chunks_written. destruct d, k; simpl in *; rewrite ?Hp, ?Hc; simpl;
      try (match goal with |- context [match ?x with _ => _ end] => destruct x end);
      try done; intros Hinv; relay_hyps; relay_rewrite; relay_close.
  - destruct (conn_Close_logs c) as (H1 & H2 & H3).
    unfold relay_inv, chunks_read, chunks_written. destruct d, k; simpl in *; rewrite ?Hp, ?Hc; simpl;
      try (match goal with |- context [match ?x with _ => _ end] => destruct x end);
      try done; intros Hinv; relay_hyps; relay_rewrite; relay_close.
Qed.

Lemma relay_inv_reachable s :
  reachable s → ∀ p t d, heap s !! p = Some t → relay_inv d t.
Proof.
  induction 1 as [|a s s' Hr IH Hs] using reachable_ind; [done|].
  intros q t d Hq.
  destruct (step_heap a s s' (pending_idle_reachable s Hr) Hs)
    as [[E _]|[(t0 & addr & E & Hf & _)|(p & t0 & calls & t' & Ht0 & E & Hst & _)]];
    rewrite E in Hq.
  - eauto.
  - apply lookup_app_Some in Hq as [Hq|[_ Hq]]; [eauto|].
    apply list_lookup_singleton_Some in Hq as [_ <-]. by apply relay_inv_fresh.
  - destruct (decide (p = q)) as [->|Hne].
    + rewrite list_lookup_insert_eq in Hq by by eapply lookup_lt_Some.
      injection Hq as <-. eapply relay_inv_step; eauto.
    + rewrite list_lookup_insert_ne in Hq by done. eauto.
Qed.

(** Relaying does happen: any chunks offered are delivered. *)

Lemma writeToConn_ok c bytes :
  isOpen c = true →
  writeToConn (Some c) bytes WriteOk
  = Done ({| remoteAddr := remoteAddr c; isOpen := isOpen c; received := received c;
             sent := sent c ++ [bytes]; torn := torn c |}, AtRecv).
Proof. intros Ho. unfold writeToConn, conn_Write. by rewrite Ho. Qed.

Lemma step_DoRead p d data err t c pm s :
  proc s = Running → heap s !! p = Some t → pump (reader d) t = AtRead →
  readFromConn (conn (srcSide d) t) data err = Done (c, pm) →
  step (DoRead p d data err) s
  = Some (store p (set_pump (reader d) pm (set_conn (srcSide d) c t)) s).
Proof. intros Hp Ht Hr Hc. unfold step. rewrite Hp, Ht. simpl. by rewrite Hr, Hc. Qed.

Lemma step_DoHandoff p d bytes t s :
  proc s = Running → heap s !! p = Some t →
  pump (reader d) t = AtSend bytes → pump (writer d) t = AtRecv →
  step (DoHandoff p d) s
  = Some (store p (set_pump (writer d) (AtWrite bytes) (set_pump (reader d) AtRead t)) s).
Proof. intros Hp Ht Hr Hw. unfold step. rewrite Hp, Ht. simpl. by rewrite Hr, Hw. Qed.

Lemma step_DoWrite p d o bytes t c pm s :
  proc s = Running → heap s !! p = Some t → pump (writer d) t = AtWrite bytes →
  writeToConn (conn (dstSide d) t) bytes o = Done (c, pm) →
  step (DoWrite p d o) s
  = Some (store p (set_pump (writer d) pm (set_conn (dstSide d) c t)) s).
Proof. intros Hp Ht Hw Hc. unfold step. rewrite Hp, Ht. simpl. by rewrite Hw, Hc. Qed.

Lemma store_store p t t' s : store p t' (store p t s) = store p t' s.
Proof. unfold store, set_heap. simpl. by rewrite list_insert_insert_eq. Qed.

Lemma lookup_store p t s :
  (p < length (heap s))%nat → heap (store p t s) !! p = Some t.
Proof. intros H. simpl. by apply list_lookup_insert_eq. Qed.

Lemma relay_once p d data s t :
  proc s = Running → heap s !! p = Some t → relay_ready d t →
  ∃ t', run [DoRead p d data None; DoHandoff p d; DoWrite p d WriteOk] s
        = Some (store p t' s) ∧
        relay_ready d t' ∧
        chunks_read d t' = chunks_read d t ++ [firstn readBufSize data] ∧
        chunks_written d t' = chunks_written d t ++ [firstn readBufSize data].
Proof.
  intros Hp Ht (Hr & Hw & Hcs & Hcd & [ci Hi] & [co Ho]).
  assert (p < length (heap s))%nat as Hlt by by eapply lookup_lt_Some.
  assert (∃ cs, conn (srcSide d) t = Some cs ∧ isOpen cs = true) as (cs & Hs & Hso).
  { destruct (conn (srcSide d) t) as [cs|] eqn:E.
    - exists cs. split; [done|]. by apply negb_false_iff.
    - destruct d; simpl in E; congruence. }
  assert (∃ cd, conn (dstSide d) t = Some cd ∧ isOpen cd = true) as (cd & Hd & Hdo).
  { destruct (conn (dstSide d) t) as [cd|] eqn:E.
    - exists cd. split; [done|]. by apply negb_false_iff.
    - destruct d; simpl in E; congruence. }
  set (cs' := {| remoteAddr := remoteAddr cs; isOpen := isOpen cs;
                 received := received cs ++ [firstn readBufSize data];
                 sent := sent cs; torn := torn cs |}).
  set (t1 := set_pump (reader d) (AtSend (firstn readBufSize data))
               (set_conn (srcSide d) cs' t)).
  set (t2 := set_pump (writer d) (AtWrite (firstn readBufSize data))
               (set_pump (reader d) AtRead t1)).
  assert (conn (dstSide d) t2 = Some cd) as Hd2 by (by destruct d).
  set (cd' := {| remoteAddr := remoteAddr cd; isOpen := isOpen cd; received := received cd;
                 sent := sent cd ++ [firstn readBufSize data]; torn := torn cd |}).
  set (t3 := set_pump (writer d) AtRecv (set_conn (dstSide d) cd' t2)).
  exists t3. split; [|split; [|split]].
  - assert (step (DoRead p d data None) s = Some (store p t1 s)) as E1.
    { apply step_DoRead; [done..|]. by rewrite Hs, readFromConn_data. }
    assert (step (DoHandoff p d) (store p t1 s) = Some (store p t2 s)) as E2.
    { rewrite <- (store_store p t1 t2 s).
      apply step_DoHandoff; [done|by apply lookup_store|by destruct d|by destruct d]. }
    assert (step (DoWrite p d WriteOk) (store p t2 s) = Some (store p t3 s)) as E3.
    { rewrite <- (store_store p t2 t3 s).
      apply (step_DoWrite p d WriteOk (firstn readBufSize data));
        [done|by apply lookup_store|by destruct d|by rewrite Hd2, writeToConn_ok]. }
    cbn [run]. rewrite E1. cbn [mbind option_bind]. rewrite E2. cbn [mbind option_bind].
    by rewrite E3.
  - unfold relay_ready. destruct d; simpl in *; rewrite ?Hs, ?Hd, ?Hi, ?Ho in *;
      simpl; rewrite ?Hso, ?Hdo; simpl; eauto 10.
  - unfold chunks_read. destruct d; simpl in *; by rewrite Hs.
  - unfold chunks_written. destruct d; simpl in *; by rewrite Hd.
Qed.

Lemma relay_delivers p d chunks : ∀ s t,
  proc s = Running → heap s !! p = Some t → relay_ready d t →
  ∃ s' t', run (relay p d chunks) s = Some s' ∧
           heap s' !! p = Some t' ∧
           chunks_read d t' = chunks_read d t ++ (firstn readBufSize <$> chunks) ∧
           chunks_written d t' = chunks_written d t ++ (firstn readBufSize <$> chunks).
Proof.
  induction chunks as [|data chunks IH]; intros s t Hp Ht Hrdy.
  - exists s, t. simpl. by rewrite !app_nil_r.
  - destruct (relay_once p d data s t Hp Ht Hrdy) as (t1 & Hrun & Hrdy1 & Hrd & Hwr).
    destruct (IH (store p t1 s) t1) as (s' & t' & Hrun' & Ht' & Hrd' & Hwr'); try done.
    { simpl. apply list_lookup_insert_eq. by eapply lookup_lt_Some. }
    exists s', t'.
    change (relay p d (data :: chunks))
      with ([DoRead p d data None; DoHandoff p d; DoWrite p d WriteOk] ++ relay p d chunks).
    rewrite run_app, Hrun. simpl. split; [done|]. split; [done|].
    rewrite Hrd', Hwr', Hrd, Hwr. by rewrite <- !app_assoc.
Qed.

(** C1.  In every state the process reaches, for every tunnel and each of
    its two directions: the chunks written to the destination are, one for
    one and in the same order, the first chunks read from the source, so
    none is reordered, repeated, split or merged with another; the bytes
    that reached the destination are the first bytes read; when nothing is
    in flight (the writer waits on the channel and the reader holds no
    chunk) the chunks written are all the chunks read, byte for byte; and
    when the direction is at rest with both handles open, any sequence of
    chunks the network offers can be relayed, after which read and written
    have both grown by exactly these chunks, in this order.  Chunks read
    are those of the Reads that returned no error, the only ones the pump
    passes on. *)
Theorem relay_preserves_order (s : State) (p : nat) (t : TCPTunnel) (d : Dir) :
  reachable s →
  heap s !! p = Some t →
  chunks_written d t `prefix_of` chunks_read d t ∧
  bytes_delivered d t `prefix_of` concat (chunks_read d t) ∧
  (pump (writer d) t = AtRecv → held (pump (reader d) t) = [] →
   chunks_written d t = chunks_read d t ∧
   bytes_delivered d t = concat (chunks_read d t)) ∧
  (proc s = Running → relay_ready d t →
   ∀ chunks, ∃ s' t',
     run (relay p d chunks) s = Some s' ∧ heap s' !! p = Some t' ∧
     chunks_read d t' = chunks_read d t ++ (firstn readBufSize <$> chunks) ∧
     chunks_written d t' = chunks_written d t ++ (firstn readBufSize <$> chunks)).
Proof.
  intros Hr Ht. pose proof (relay_inv_reachable s Hr p t d Ht) as Hinv.
  assert (∀ (wr : list chunk) b rest tn,
            tn `prefix_of` b →
            wr `prefix_of` wr ++ b :: rest ∧
            concat wr ++ tn `prefix_of` concat (wr ++ b :: rest)) as Hfail.
  { intros wr b rest tn Hp. split; [by apply prefix_app_r|].
    rewrite concat_app. apply prefix_app. simpl. by apply prefix_app_r. }
  cut (chunks_written d t `prefix_of` chunks_read d t ∧
       bytes_delivered d t `prefix_of` concat (chunks_read d t) ∧
       (pump (writer d) t = AtRecv → held (pump (reader d) t) = [] →
        chunks_written d t = chunks_read d t ∧
        bytes_delivered d t = concat (chunks_read d t))).
  { intros (H1 & H2 & H3). split; [done|]. split; [done|]. split; [done|].
    intros Hp Hrdy chunks. by apply relay_delivers. }
  unfold relay_inv, bytes_delivered in *.
  destruct (pump (writer d) t) eqn:Ew; try done.
  - destruct Hinv as [-> ->]. rewrite app_nil_r. split; [by apply prefix_app_r|].
    split; [rewrite concat_app; by apply prefix_app_r|].
    intros _ ->. by rewrite app_nil_r.
  - destruct Hinv as [-> ->]. rewrite app_nil_r. split; [by apply prefix_app_r|].
    split; [rewrite concat_app; by apply prefix_app_r|]. done.
  - destruct Hinv as (b & rest & -> & Hp). destruct (Hfail (chunks_written d t) b rest _ Hp).
    done.
  - destruct Hinv as (b & rest & -> & Hp). destruct (Hfail (chunks_written d t) b rest _ Hp).
    done.
  - destruct Hinv as (b & rest & -> & Hp). destruct (Hfail (chunks_written d t) b rest _ Hp).
    done.
  - destruct Hinv as (b & rest & -> & Hp). destruct (Hfail (chunks_written d t) b rest _ Hp).
    done.
Qed.

Lemma relaying_run :
  run relaying sample = Some (after relaying) ∧
  heap (after relaying) !! 0%nat = Some (tunnel_at 0 (after relaying)) ∧
  chunks_read ToRemote (tunnel_at 0 (after relaying)) = [ping; pong] ∧
  chunks_written ToRemote (tunnel_at 0 (after relaying)) = [ping].
Proof. evaluate. Qed.

Lemma relay_preserves_order_witness :
  chunks_written ToRemote (tunnel_at 0 (after relaying))
    `prefix_of` chunks_read ToRemote (tunnel_at 0 (after relaying)) ∧
  bytes_delivered ToRemote (tunnel_at 0 (after relaying))
    `prefix_of` concat (chunks_read ToRemote (tunnel_at 0 (after relaying))).
Proof.
  destruct relaying_run as (Hr & Ht & _).
  destruct (relay_preserves_order (after relaying) 0 (tunnel_at 0 (after relaying))
              ToRemote (reachable_after relaying Hr) Ht) as (H1 & H2 & _ & _).
  split; assumption.
Defined.

(** *** C2 and C6: teardown *)

Lemma teardown_run p k t e ci co s :
  proc s = Running → heap s !! p = Some t → pump k t = Returned e →
  inbound t = Some ci → outbound t = Some co →
  run (teardown p k) s = Some (after_teardown p k t e ci co s).
Proof.
  intros Hp Ht Hk Hi Ho.
  assert (p < length (heap s))%nat as Hlt by by eapply lookup_lt_Some.
  unfold teardown. cbn [run].
  rewrite (step_DoExit p k t s Hp Ht). unfold pump_exit at 1. rewrite Hk.
  cbn [mbind option_bind].
  set (s1 := store p (set_pump k CloseInbound t) (leave_delete t e s)).
  assert (proc s1 = Running) as Hp1.
  { unfold s1, leave_delete. by destruct (decide _). }
  assert (heap s1 = <[p := set_pump k CloseInbound t]> (heap s)) as Hh1.
  { unfold s1, leave_delete. by destruct (decide _). }
  assert (heap s1 !! p = Some (set_pump k CloseInbound t)) as Ht1.
  { rewrite Hh1. by apply list_lookup_insert_eq. }
  rewrite (step_DoExit p k _ s1 Hp1 Ht1). unfold pump_exit at 1.
  rewrite pump_set_pump. unfold leave_close at 1. simpl conn. rewrite Hi.
  destruct (conn_Close ci) as [ei ci'] eqn:Ei. cbn [mbind option_bind].
  set (t1 := set_conn Inbound ci' (set_pump k CloseInbound t)).
  set (s2 := store p (set_pump k CloseOutbound t1) (sys (SysClose p Inbound ei) s1)).
  assert (heap s2 !! p = Some (set_pump k CloseOutbound t1)) as Ht2.
  { unfold s2. simpl. apply list_lookup_insert_eq. unfold s1, leave_delete.
    destruct (decide _); simpl; by rewrite length_insert. }
  rewrite (step_DoExit p k _ s2 Hp1 Ht2). unfold pump_exit at 1.
  rewrite pump_set_pump. unfold leave_close at 1. simpl conn. rewrite Ho.
  destruct (conn_Close co) as [eo co'] eqn:Eo. cbn [mbind option_bind].
  unfold after_teardown. rewrite Ei, Eo. reflexivity.
Qed.

Lemma after_teardown_proj p k t e ci co s :
  heap s !! p = Some t →
  proc (after_teardown p k t e ci co s) = proc s ∧
  id (after_teardown p k t e ci co s) = id s ∧
  mainG (after_teardown p k t e ci co s) = mainG s ∧
  realmG (after_teardown p k t e ci co s) = realmG s ∧
  tunnels (realm (after_teardown p k t e ci co s)) = delete (tid t) (tunnels (realm s)) ∧
  heap (after_teardown p k t e ci co s)
  = <[p := set_pump k Finished
             (set_conn Outbound (conn_Close co).2
                (set_conn Inbound (conn_Close ci).2 t))]> (heap s) ∧
  syscalls (after_teardown p k t e ci co s)
  = syscalls s ++ [SysClose p Inbound (conn_Close ci).1;
                   SysClose p Outbound (conn_Close co).1] ∧
  ∃ m, log (after_teardown p k t e ci co s)
       = log s ++ (if decide (e = EOF) then [] else [LogError e]) ++
         [LogClosed (String t); LogLeaving (String t); LogTunnels m].
Proof.
  intros Ht. unfold after_teardown, leave_delete.
  destruct (decide (e = EOF)); simpl.
  - repeat split; try done.
    + rewrite !list_insert_insert_eq. f_equal. by destruct k.
    + by rewrite <- !app_assoc.
    + eexists. rewrite <- !app_assoc. reflexivity.
  - repeat split; try done.
    + rewrite !list_insert_insert_eq. f_equal. by destruct k.
    + by rewrite <- !app_assoc.
    + eexists. rewrite <- !app_assoc. reflexivity.
Qed.

Lemma conn_Close_closed c : isOpen (conn_Close c).2 = false.
Proof. unfold conn_Close. by destruct (isOpen c) eqn:E. Qed.

Lemma conn_Close_open c :
  isOpen c = true →
  conn_Close c = (None, {| remoteAddr := remoteAddr c; isOpen := false;
                           received := received c; sent := sent c; torn := torn c |}).
Proof. unfold conn_Close. by intros ->. Qed.

Lemma conn_Close_again c : isOpen c = false → conn_Close c = (Some ErrClosed, c).
Proof. unfold conn_Close. by intros ->. Qed.

Lemma teardown_tears_down p k t e ci co s :
  proc s = Running → heap s !! p = Some t → pump k t = Returned e →
  inbound t = Some ci → outbound t = Some co →
  ∃ s', run (teardown p k) s = Some s' ∧ teardown_done p t e s s'.
Proof.
  intros Hp Ht Hk Hi Ho. eexists. split; [by eapply teardown_run|].
  destruct (after_teardown_proj p k t e ci co s Ht)
    as (H1 & _ & _ & _ & H2 & H3 & _ & H4).
  split; [congruence|]. split; [rewrite H2; apply lookup_delete_eq|].
  split; [|done]. unfold torn_down. rewrite H3.
  rewrite list_lookup_insert_eq by by eapply lookup_lt_Some.
  simpl. by rewrite !conn_Close_closed.
Qed.

Lemma readFromConn_addr c0 data err c pm :
  readFromConn (Some c0) data err = Done (c, pm) → remoteAddr c = remoteAddr c0.
Proof.
  unfold readFromConn, conn_Read. destruct (isOpen c0); [destruct err|]; simpl;
    intros H; by simplify_eq.
Qed.

Lemma writeToConn_addr c0 bytes o c pm :
  writeToConn (Some c0) bytes o = Done (c, pm) → remoteAddr c = remoteAddr c0.
Proof.
  unfold writeToConn, conn_Write. destruct (isOpen c0); [destruct o|]; simpl;
    intros H; by simplify_eq.
Qed.

Lemma String_set_conn sd c t c0 :
  conn sd t = Some c0 → remoteAddr c = remoteAddr c0 →
  String (set_conn sd c t) = String t.
Proof.
  unfold String. destruct sd; simpl; intros -> E; rewrite ?E; by destruct (inbound t).
Qed.

Lemma io_failure_tears_down p k t t1 e s s1 (a : Act) :
  proc s = Running → heap s !! p = Some t →
  step a s = Some s1 → s1 = store p t1 s →
  pump k t1 = Returned e → tid t1 = tid t → String t1 = String t →
  is_Some (inbound t1) → is_Some (outbound t1) →
  ∃ s', run (a :: teardown p k) s = Some s' ∧ teardown_done p t e s s'.
Proof.
  intros Hp Ht Hs -> Hk Hid Hstr [ci Hi] [co Ho].
  destruct (teardown_tears_down p k t1 e ci co (store p t1 s)) as (s' & Hr & Hd); try done.
  { simpl. apply list_lookup_insert_eq. by eapply lookup_lt_Some. }
  exists s'. split.
  - change (a :: teardown p k) with ([a] ++ teardown p k).
    rewrite run_app. simpl. by rewrite Hs.
  - unfold teardown_done in *. by rewrite <- Hid, <- Hstr.
Qed.

(** Close calls under any interleaving *)

Lemma readFromConn_open c0 data err c pm :
  readFromConn (Some c0) data err = Done (c, pm) → isOpen c = isOpen c0.
Proof.
  unfold readFromConn, conn_Read. destruct (isOpen c0) eqn:E; [destruct err|]; simpl;
    intros H; simplify_eq; done.
Qed.

Lemma writeToConn_open c0 bytes o c pm :
  writeToConn (Some c0) bytes o = Done (c, pm) → isOpen c = isOpen c0.
Proof.
  unfold writeToConn, conn_Write. destruct (isOpen c0) eqn:E; [destruct o|]; simpl;
    intros H; simplify_eq; simpl; congruence.
Qed.

Lemma count_close_other p sd sd' e :
  sd ≠ sd' →
  count_occ Syscall_eq_dec (close_calls p [(sd, e)]) (SysClose p sd' None) = 0%nat.
Proof.
  intros Hne. unfold close_calls. cbn [fmap list_fmap fst snd count_occ].
  destruct (Syscall_eq_dec _ _) as [E|_]; [congruence|done].
Qed.

Lemma count_close_same p sd c :
  (count_occ Syscall_eq_dec (close_calls p [(sd, (conn_Close c).1)]) (SysClose p sd None)
   + (if negb (isOpen c) then 1 else 0)
   = 1)%nat.
Proof.
  unfold close_calls. cbn [fmap list_fmap fst snd].
  destruct (isOpen c) eqn:E.
  - rewrite conn_Close_open by done. cbn [fst count_occ].
    destruct (Syscall_eq_dec _ _); [done|congruence].
  - rewrite conn_Close_again by done. cbn [fst count_occ].
    destruct (Syscall_eq_dec _ _) as [Ed|_]; [discriminate Ed|done].
Qed.

Lemma tunnel_step_closes t calls t' p sd :
  tunnel_step t calls t' →
  (count_occ Syscall_eq_dec (close_calls p calls) (SysClose p sd None)
   + (if closed (conn sd t) then 1 else 0)
   = if closed (conn sd t') then 1 else 0)%nat.
Proof.
  intros Hs. destruct Hs as [d data err c pm Hp Hr|d bytes Hp Hw|d bytes o c pm Hp Hw
                             |k e Hp|k c Hp Hc|k c Hp Hc].
  - simpl. destruct (conn (srcSide d) t) as [c0|] eqn:Ec; [|done].
    apply readFromConn_open in Hr.
    destruct d, sd; simpl in *; rewrite ?Ec, ?Hr; done.
  - by destruct d, sd.
  - simpl. destruct (conn (dstSide d) t) as [c0|] eqn:Ec; [|done].
    apply writeToConn_open in Hw.
    destruct d, sd; simpl in *; rewrite ?Ec, ?Hw; done.
  - done.
  - destruct sd.
    + pose proof (count_close_same p Inbound c) as H1.
      cbn [conn set_pump set_conn inbound closed]. rewrite Hc.
      rewrite decide_True by done. cbn [closed]. rewrite conn_Close_closed. simpl negb.
      cbn [closed] in *. done.
    + rewrite count_close_other by done. done.
  - destruct sd.
    + rewrite count_close_other by done. done.
    + pose proof (count_close_same p Outbound c) as H1.
      cbn [conn set_pump set_conn outbound closed]. rewrite Hc.
      rewrite decide_True by done. cbn [closed]. rewrite conn_Close_closed. simpl negb.
      done.
Qed.

Lemma close_calls_other p q sd calls :
  p ≠ q → count_occ Syscall_eq_dec (close_calls p calls) (SysClose q sd None) = 0%nat.
Proof.
  intros Hne. unfold close_calls.
  induction calls as [|[sd' e] calls IH]; [done|].
  cbn [fmap list_fmap fst snd count_occ] in *.
  destruct (Syscall_eq_dec _ _) as [E|_]; [congruence|done].
Qed.

Lemma close_calls_elem p calls q sd e :
  SysClose q sd e ∈ close_calls p calls → q = p.
Proof.
  unfold close_calls. intros H. apply list_elem_of_fmap in H as (x & E & _). congruence.
Qed.

Lemma count_occ_absent (l : list Syscall) (x : Syscall) :
  x ∉ l → count_occ Syscall_eq_dec l x = 0%nat.
Proof. intros H. apply count_occ_not_In. by rewrite <- list_elem_of_In. Qed.

Lemma closed_once_reachable s : reachable s → closed_once s.
Proof.
  induction 1 as [|a s s' Hr [IH1 IH2] Hs] using reachable_ind.
  { split; [done|]. intros p sd e H. simpl in H. by apply not_elem_of_nil in H. }
  destruct (step_heap a s s' (pending_idle_reachable s Hr) Hs)
    as [[E Hsys]|[(t0 & addr & E & Hf & Hsys)|(p & t0 & calls & t' & Ht0 & E & Hst & Hsys)]].
  - split.
    + intros q t sd Hq. rewrite E in Hq. unfold closes.
      destruct Hsys as [->|(addr & e & ->)]; [by apply IH1|].
      rewrite count_occ_app. cbn [count_occ].
      destruct (Syscall_eq_dec _ _) as [Ed|_]; [discriminate Ed|].
      rewrite Nat.add_0_r. by apply IH1.
    + intros q sd e H. rewrite E.
      destruct Hsys as [Hsys|(addr & e' & Hsys)]; rewrite Hsys in H; [eauto|].
      apply elem_of_app in H as [H|H]; [eauto|].
      apply list_elem_of_singleton in H. discriminate H.
  - split.
    + intros q t sd Hq. rewrite E in Hq. unfold closes. rewrite Hsys, count_occ_app.
      cbn [count_occ].
      destruct (Syscall_eq_dec _ _) as [Ed|_]; [discriminate Ed|].
      rewrite Nat.add_0_r.
      apply lookup_app_Some in Hq as [Hq|[Hl Hq]]; [by apply IH1|].
      apply list_lookup_singleton_Some in Hq as [Hq <-].
      destruct Hf as ((_ & _ & _ & Hi) & (_ & _ & _ & Ho) & _).
      replace (closed (conn sd t0)) with false by (by destruct sd).
      apply count_occ_absent. intros Hin. apply IH2 in Hin. lia.
    + intros q sd e H. rewrite E, length_app. rewrite Hsys in H.
      apply elem_of_app in H as [H|H]; [apply IH2 in H; lia|].
      apply list_elem_of_singleton in H. discriminate H.
  - assert (p < length (heap s))%nat as Hlt by by eapply lookup_lt_Some.
    split.
    + intros q t sd Hq. rewrite E in Hq. unfold closes. rewrite Hsys, count_occ_app.
      destruct (decide (p = q)) as [->|Hne].
      * rewrite list_lookup_insert_eq in Hq by done. injection Hq as <-.
        rewrite <- (tunnel_step_closes t0 calls t' q sd Hst).
        specialize (IH1 q t0 sd Ht0). unfold closes in IH1. lia.
      * rewrite list_lookup_insert_ne in Hq by done.
        rewrite close_calls_other by done. rewrite Nat.add_0_r. by apply IH1.
    + intros q sd e H. rewrite E, length_insert. rewrite Hsys in H.
      apply elem_of_app in H as [H|H]; [eauto|].
      apply close_calls_elem in H as ->. done.
Qed.

Lemma tunnel_step_closed t calls t' sd :
  tunnel_step t calls t' → closed (conn sd t) = true → closed (conn sd t') = true.
Proof.
  intros Hs Hc. pose proof (tunnel_step_closes t calls t' 0 sd Hs) as H.
  rewrite Hc in H. destruct (closed (conn sd t')); [done|lia].
Qed.

Lemma tunnel_step_pump t calls t' k :
  tunnel_step t calls t' →
  pump k t' = pump k t ∨
  (pump k t' ≠ CloseOutbound ∧ pump k t' ≠ Finished) ∨
  (pump k t' = CloseOutbound ∧ closed (inbound t') = true) ∨
  (pump k t' = Finished ∧ pump k t = CloseOutbound ∧ closed (outbound t') = true).
Proof.
  intros Hs. destruct Hs as [d data err c pm Hp Hr|d bytes Hp Hw|d bytes o c pm Hp Hw
                             |k0 e Hp|k0 c Hp Hc|k0 c Hp Hc].
  - destruct (decide (k = reader d)) as [->|Hne].
    + right. left. rewrite pump_set_pump.
      destruct (conn (srcSide d) t) as [c0|]; [|done].
      apply readFromConn_logs in Hr as (c1 & _ & _ & _ & [(b & -> & _)|(e & -> & _)]); done.
    + left. rewrite pump_set_pump_ne by done. apply pump_set_conn.
  - destruct (decide (k = writer d)) as [->|Hne].
    + right. left. by rewrite pump_set_pump.
    + rewrite pump_set_pump_ne by done.
      destruct (decide (k = reader d)) as [->|Hne'].
      * right. left. by rewrite pump_set_pump.
      * left. by rewrite pump_set_pump_ne.
  - destruct (decide (k = writer d)) as [->|Hne].
    + right. left. rewrite pump_set_pump.
      apply writeToConn_logs in Hw as (c1 & _ & _ & [(-> & _)|(e & n & -> & _)]); done.
    + left. rewrite pump_set_pump_ne by done. apply pump_set_conn.
  - destruct (decide (k = k0)) as [->|Hne].
    + right. left. by rewrite pump_set_pump.
    + left. by rewrite pump_set_pump_ne.
  - destruct (decide (k = k0)) as [->|Hne].
    + right. right. left. rewrite pump_set_pump. split; [done|].
      simpl. by rewrite conn_Close_closed.
    + left. rewrite pump_set_pump_ne by done. apply pump_set_conn.
  - destruct (decide (k = k0)) as [->|Hne].
    + right. right. right. rewrite pump_set_pump. split; [done|]. split; [done|].
      simpl. by rewrite conn_Close_closed.
    + left. rewrite pump_set_pump_ne by done. apply pump_set_conn.
Qed.

Lemma finished_inv_step t calls t' :
  tunnel_step t calls t' → finished_inv t → finished_inv t'.
Proof.
  intros Hs Hinv k. destruct (Hinv k) as [H1 H2].
  pose proof (tunnel_step_closed t calls t' Inbound Hs) as Hin.
  pose proof (tunnel_step_closed t calls t' Outbound Hs) as Hout.
  simpl in Hin, Hout.
  destruct (tunnel_step_pump t calls t' k Hs)
    as [E|[[N1 N2]|[[E Hc]|(E & E0 & Hc)]]].
  - rewrite E. split; [by auto|]. intros HF. destruct (H2 HF). auto.
  - done.
  - rewrite E. split; [done|]. done.
  - rewrite E. split; [done|]. intros _. split; [by auto|done].
Qed.

Lemma finished_inv_reachable s :
  reachable s → ∀ p t, heap s !! p = Some t → finished_inv t.
Proof.
  induction 1 as [|a s s' Hr IH Hs] using reachable_ind; [done|].
  intros q t Hq.
  destruct (step_heap a s s' (pending_idle_reachable s Hr) Hs)
    as [[E _]|[(t0 & addr & E & Hf & _)|(p & t0 & calls & t' & Ht0 & E & Hst & _)]];
    rewrite E in Hq.
  - eauto.
  - apply lookup_app_Some in Hq as [Hq|[_ Hq]]; [eauto|].
    apply list_lookup_singleton_Some in Hq as [_ <-].
    destruct Hf as (_ & _ & H1 & H2 & H3 & H4).
    intros k. destruct k; simpl; rewrite ?H1, ?H2, ?H3, ?H4; done.
  - destruct (decide (p = q)) as [->|Hne].
    + rewrite list_lookup_insert_eq in Hq by by eapply lookup_lt_Some.
      injection Hq as <-. eapply finished_inv_step; eauto.
    + rewrite list_lookup_insert_ne in Hq by done. eauto.
Qed.

(** C6.  For a tunnel with its two handles: whichever of the four pumps
    has returned, with whatever error [e], its three teardown steps can
    always be taken and end in a state where the registry has no entry for
    the tunnel and both handles are closed; the log gained the line of the
    error exactly when [e] is not [io.EOF].  The same holds from the failing
    operation on: a reader whose Read makes [readFromConn] return [e], and
    a writer whose Write makes [writeToConn] return [e] (by
    [readFromConn_error], [readFromConn_closed] and [writeToConn_logs] that
    is every Read or Write that fails, end of stream included).  And however
    the steps of all goroutines are interleaved, in every state in which a
    pump of the tunnel has finished its teardown both handles are closed. *)
Theorem pump_termination_tears_down (s : State) (p : nat) (t : TCPTunnel) (ci co : Conn) :
  reachable s →
  proc s = Running →
  heap s !! p = Some t →
  inbound t = Some ci →
  outbound t = Some co →
  (∀ k e, pump k t = Returned e →
     ∃ s', run (teardown p k) s = Some s' ∧ teardown_done p t e s s') ∧
  (∀ d data err c e,
     pump (reader d) t = AtRead →
     readFromConn (conn (srcSide d) t) data err = Done (c, Returned e) →
     ∃ s', run (DoRead p d data err :: teardown p (reader d)) s = Some s' ∧
           teardown_done p t e s s') ∧
  (∀ d bytes o c e,
     pump (writer d) t = AtWrite bytes →
     writeToConn (conn (dstSide d) t) bytes o = Done (c, Returned e) →
     ∃ s', run (DoWrite p d o :: teardown p (writer d)) s = Some s' ∧
           teardown_done p t e s s') ∧
  (∀ l s'' t'' k,
     run l s = Some s'' → heap s'' !! p = Some t'' → pump k t'' = Finished →
     torn_down p s'' = true).
Proof.
  intros Hreach Hp Ht Hi Ho. split; [|split; [|split]].
  - intros k e Hk. by eapply teardown_tears_down.
  - intros d data err c e Hk Hrd.
    assert (∃ c0, conn (srcSide d) t = Some c0) as [c0 Hc0]
      by (destruct d; simpl; eauto).
    rewrite Hc0 in Hrd.
    eapply (io_failure_tears_down p (reader d) t
              (set_pump (reader d) (Returned e) (set_conn (srcSide d) c t))); try done.
    + unfold step. rewrite Hp, Ht. simpl. by rewrite Hk, Hc0, Hrd.
    + apply pump_set_pump.
    + rewrite String_set_pump. eapply String_set_conn; [done|].
      by eapply readFromConn_addr.
    + destruct d; simpl; eauto.
    + destruct d; simpl; eauto.
  - intros d bytes o c e Hk Hwr.
    assert (∃ c0, conn (dstSide d) t = Some c0) as [c0 Hc0]
      by (destruct d; simpl; eauto).
    rewrite Hc0 in Hwr.
    eapply (io_failure_tears_down p (writer d) t
              (set_pump (writer d) (Returned e) (set_conn (dstSide d) c t))); try done.
    + unfold step. rewrite Hp, Ht. simpl. by rewrite Hk, Hc0, Hwr.
    + apply pump_set_pump.
    + rewrite String_set_pump. eapply String_set_conn; [done|].
      by eapply writeToConn_addr.
    + destruct d; simpl; eauto.
    + destruct d; simpl; eauto.
  - intros l s'' t'' k Hrun Ht'' Hk.
    destruct (finished_inv_reachable s'' (reachable_run l s s'' Hreach Hrun) p t'' Ht'' k)
      as [_ Hfin].
    destruct (Hfin Hk) as [Hin Hout]. unfold torn_down. by rewrite Ht'', Hin, Hout.
Qed.

Lemma closing_run :
  run closing sample = Some (after closing) ∧
  proc (after closing) = Running ∧
  heap (after closing) !! 0%nat = Some (tunnel_at 0 (after closing)) ∧
  inbound (tunnel_at 0 (after closing))
  = Some (handle Inbound (tunnel_at 0 (after closing))) ∧
  outbound (tunnel_at 0 (after closing))
  = Some (handle Outbound (tunnel_at 0 (after closing))) ∧
  isOpen (handle Inbound (tunnel_at 0 (after closing))) = true ∧
  isOpen (handle Outbound (tunnel_at 0 (after closing))) = true ∧
  tunnels (realm (after closing)) !! tid (tunnel_at 0 (after closing)) = Some 0%nat ∧
  pump RdIn (tunnel_at 0 (after closing)) = Returned EOF ∧
  pump RdOut (tunnel_at 0 (after closing)) = Returned (ErrNet "reset").
Proof. evaluate. Qed.

Lemma pump_termination_tears_down_witness :
  ∃ s', run (teardown 0 RdIn) (after closing) = Some s' ∧
        teardown_done 0 (tunnel_at 0 (after closing)) EOF (after closing) s'.
Proof.
  destruct closing_run as (Hrun & Hp & Ht & Hi & Ho & _ & _ & _ & Hk & _).
  destruct (pump_termination_tears_down (after closing) 0 (tunnel_at 0 (after closing))
              (handle Inbound (tunnel_at 0 (after closing)))
              (handle Outbound (tunnel_at 0 (after closing)))
              (reachable_after closing Hrun) Hp Ht Hi Ho)
    as [H _].
  exact (H RdIn EOF Hk).
Defined.

Lemma writeToConn_closed c bytes o :
  isOpen c = false → writeToConn (Some c) bytes o = Done (c, Returned ErrClosed).
Proof. intros Ho. unfold writeToConn, conn_Write. by rewrite Ho. Qed.

Lemma terminates_ext p t t' k l :
  pump k t' = pump k t → terminates p t k l → terminates p t' k l.
Proof.
  intros E H. destruct H as [e H|d data err -> H|d bytes o -> H].
  - apply (term_returned _ _ _ e). congruence.
  - apply term_read; congruence.
  - apply (term_write _ _ _ d bytes); congruence.
Qed.

(** A pump that comes to its end on a tunnel already torn down. *)
Lemma late_termination p k l s t ci co :
  proc s = Running → heap s !! p = Some t →
  inbound t = Some ci → outbound t = Some co →
  isOpen ci = false → isOpen co = false →
  tunnels (realm s) !! tid t = None →
  terminates p t k l →
  ∃ s' t', run l s = Some s' ∧ proc s' = Running ∧ id s' = id s ∧
           tunnels (realm s') = tunnels (realm s) ∧
           heap s' = <[p := t']> (heap s) ∧
           tid t' = tid t ∧ inbound t' = Some ci ∧ outbound t' = Some co ∧
           (∀ k', k ≠ k' → pump k' t' = pump k' t) ∧
           syscalls s' = syscalls s ++ failed_closes p.
Proof.
  intros Hp Ht Hi Ho Hci Hco Hreg Hterm.
  assert (p < length (heap s))%nat as Hlt by by eapply lookup_lt_Some.
  assert (∀ s0 t0 e,
            proc s0 = Running → heap s0 = <[p := t0]> (heap s) →
            id s0 = id s → tunnels (realm s0) = tunnels (realm s) →
            syscalls s0 = syscalls s →
            tid t0 = tid t → inbound t0 = Some ci → outbound t0 = Some co →
            (∀ k', k ≠ k' → pump k' t0 = pump k' t) →
            pump k t0 = Returned e →
            ∃ s' t', run (teardown p k) s0 = Some s' ∧ proc s' = Running ∧ id s' = id s ∧
                     tunnels (realm s') = tunnels (realm s) ∧
                     heap s' = <[p := t']> (heap s) ∧
                     tid t' = tid t ∧ inbound t' = Some ci ∧ outbound t' = Some co ∧
                     (∀ k', k ≠ k' → pump k' t' = pump k' t) ∧
                     syscalls s' = syscalls s ++ failed_closes p) as Hdown.
  { intros s0 t0 e Hp0 Hh0 Hid0 Hreg0 Hsys0 Htid0 Hi0 Ho0 Hk0 He0.
    assert (heap s0 !! p = Some t0) as Ht0
      by (rewrite Hh0; by apply list_lookup_insert_eq).
    pose proof (teardown_run p k t0 e ci co s0 Hp0 Ht0 He0 Hi0 Ho0) as Hr.
    destruct (after_teardown_proj p k t0 e ci co s0 Ht0)
      as (H1 & H2 & _ & _ & H3 & H4 & H5 & _).
    rewrite !conn_Close_again in H4, H5 by done. cbn [fst snd] in H4, H5.
    eexists _, _. split; [exact Hr|].
    split; [congruence|]. split; [congruence|].
    split; [rewrite H3, Hreg0, Htid0; by apply delete_id|].
    split; [rewrite H4, Hh0; by apply list_insert_insert_eq|].
    split; [done|]. split; [done|]. split; [done|].
    split; [|by rewrite H5, Hsys0].
    intros k' Hne. rewrite pump_set_pump_ne by done. rewrite !pump_set_conn. by apply Hk0. }
  destruct Hterm as [e He|d data err -> He|d bytes o -> He].
  - apply (Hdown s t e); try done. by rewrite list_insert_id.
  - assert (∃ c, conn (srcSide d) t = Some c ∧ isOpen c = false) as (c & Hc & Hcc)
      by (destruct d; simpl; eauto).
    set (t0 := set_pump (reader d) (Returned ErrClosed) (set_conn (srcSide d) c t)).
    assert (step (DoRead p d data err) s = Some (store p t0 s)) as E
      by (apply step_DoRead; [done..|by rewrite Hc, readFromConn_closed]).
    destruct (Hdown (store p t0 s) t0 ErrClosed) as (s' & t' & Hr & Hrest); try done.
    + destruct d; simpl in *; by simplify_eq.
    + destruct d; simpl in *; by simplify_eq.
    + intros k' Hne. unfold t0. rewrite pump_set_pump_ne by done. apply pump_set_conn.
    + apply pump_set_pump.
    + exists s', t'. split; [|done]. cbn [run]. rewrite E. exact Hr.
  - assert (∃ c, conn (dstSide d) t = Some c ∧ isOpen c = false) as (c & Hc & Hcc)
      by (destruct d; simpl; eauto).
    set (t0 := set_pump (writer d) (Returned ErrClosed) (set_conn (dstSide d) c t)).
    assert (step (DoWrite p d o) s = Some (store p t0 s)) as E
      by (apply (step_DoWrite p d o bytes); [done..|by rewrite Hc, writeToConn_closed]).
    destruct (Hdown (store p t0 s) t0 ErrClosed) as (s' & t' & Hr & Hrest); try done.
    + destruct d; simpl in *; by simplify_eq.
    + destruct d; simpl in *; by simplify_eq.
    + intros k' Hne. unfold t0. rewrite pump_set_pump_ne by done. apply pump_set_conn.
    + apply pump_set_pump.
    + exists s', t'. split; [|done]. cbn [run]. rewrite E. exact Hr.
Qed.

Lemma terminates_all_ext p t t' ks ls :
  (∀ k, k ∈ ks → pump k t' = pump k t) →
  Forall2 (terminates p t) ks ls → Forall2 (terminates p t') ks ls.
Proof.
  intros Hext H. induction H as [|k l ks ls Hk Hks IH]; constructor.
  - eapply terminates_ext; [|done]. apply Hext. by left.
  - apply IH. intros k' Hk'. apply Hext. by right.
Qed.

Lemma teardown_again p ks : ∀ ls s t ci co,
  proc s = Running → heap s !! p = Some t →
  inbound t = Some ci → outbound t = Some co →
  isOpen ci = false → isOpen co = false →
  tunnels (realm s) !! tid t = None →
  NoDup ks → Forall2 (terminates p t) ks ls →
  ∃ s', run (concat ls) s = Some s' ∧
        proc s' = Running ∧ id s' = id s ∧
        tunnels (realm s') = tunnels (realm s) ∧
        inbound <$> heap s' !! p = Some (Some ci) ∧
        outbound <$> heap s' !! p = Some (Some co) ∧
        (∀ q, q ≠ p → heap s' !! q = heap s !! q) ∧
        syscalls s' = syscalls s ++ concat (replicate (length ks) (failed_closes p)).
Proof.
  induction ks as [|k ks IH]; intros ls s t ci co Hp Ht Hi Ho Hci Hco Hreg Hnd Hks.
  - apply Forall2_nil_inv_l in Hks as ->.
    exists s. simpl. rewrite Ht, app_nil_r. simpl. by rewrite Hi, Ho.
  - apply Forall2_cons_inv_l in Hks as (l & ls' & Hl & Hls & ->).
    apply NoDup_cons in Hnd as [Hk Hnd].
    destruct (late_termination p k l s t ci co)
      as (s1 & t1 & Hr & Hp1 & Hid1 & Hreg1 & Hh1 & Htid1 & Hi1 & Ho1 & Hk1 & Hsys1);
      try done.
    assert (heap s1 !! p = Some t1) as Ht1.
    { rewrite Hh1. apply list_lookup_insert_eq. by eapply lookup_lt_Some. }
    destruct (IH ls' s1 t1 ci co)
      as (s' & Hr' & Hp' & Hid' & Hreg' & Hi' & Ho' & Hq' & Hsys'); try done.
    { by rewrite Hreg1, Htid1. }
    { apply (terminates_all_ext p t); [|done].
      intros k' Hk'. apply Hk1. by intros ->. }
    exists s'. cbn [concat]. rewrite run_app, Hr. simpl.
    split; [done|]. split; [done|]. split; [congruence|]. split; [congruence|].
    split; [done|]. split; [done|]. split.
    + intros q Hq. rewrite Hq' by done. rewrite Hh1. by apply list_lookup_insert_ne.
    + rewrite Hsys', Hsys1. cbn [length replicate concat]. by rewrite <- app_assoc.
Qed.

(** C2.  For a registered tunnel with both handles open, let a pump [k]
    that has returned run its teardown first, and let any others [ks] of
    the four come to their end after it, in any order, each having returned
    already or standing at a Read or a Write.  The first teardown removes
    the registry entry and closes each handle: its two Close calls are the
    only ones that succeed.  Every later termination is a no-op on the
    registry and on the handles: the map stays as the first left it, the
    handles stay closed, and its two Close calls fail with the
    already-closed error; other tunnels are never touched.  (The later
    teardowns still write their log lines.)  And however the steps of the
    pumps and of the other goroutines are interleaved from here on, a
    handle is never closed by more than one successful Close, and by
    exactly one once the tunnel is torn down. *)
Theorem teardown_idempotent (s : State) (p : nat) (t : TCPTunnel) (ci co : Conn)
    (k : PumpId) (e : error) (ks : list PumpId) (ls : list (list Act)) :
  reachable s →
  proc s = Running →
  heap s !! p = Some t →
  inbound t = Some ci → outbound t = Some co →
  isOpen ci = true → isOpen co = true →
  tunnels (realm s) !! tid t = Some p →
  pump k t = Returned e →
  NoDup (k :: ks) →
  Forall2 (terminates p t) ks ls →
  (∃ s1 s',
    run (teardown p k) s = Some s1 ∧
    run (concat ls) s1 = Some s' ∧
    tunnels (realm s1) = delete (tid t) (tunnels (realm s)) ∧
    tunnels (realm s1) !! tid t = None ∧
    torn_down p s1 = true ∧
    syscalls s1 = syscalls s ++ [SysClose p Inbound None; SysClose p Outbound None] ∧
    proc s' = Running ∧
    tunnels (realm s') = tunnels (realm s1) ∧
    inbound <$> heap s' !! p = inbound <$> heap s1 !! p ∧
    outbound <$> heap s' !! p = outbound <$> heap s1 !! p ∧
    torn_down p s' = true ∧
    (∀ q, q ≠ p → heap s' !! q = heap s !! q) ∧
    syscalls s' = syscalls s1 ++ concat (replicate (length ks) (failed_closes p))) ∧
  (∀ l s'' sd,
    run l s = Some s'' →
    (closes p sd s'' ≤ 1)%nat ∧ (torn_down p s'' = true → closes p sd s'' = 1%nat)).
Proof.
  intros Hreach Hp Ht Hi Ho Hci Hco Hreg He Hnd Hks. split.
  - apply NoDup_cons in Hnd as [Hk Hnd].
    pose proof (teardown_run p k t e ci co s Hp Ht He Hi Ho) as Hr.
    destruct (after_teardown_proj p k t e ci co s Ht)
      as (H1 & H2 & _ & _ & H3 & H4 & H5 & _).
    rewrite !conn_Close_open in H4, H5 by done. cbn [fst snd] in H4, H5.
    set (s1 := after_teardown p k t e ci co s) in *.
    set (ci' := {| remoteAddr := remoteAddr ci; isOpen := false; received := received ci;
                   sent := sent ci; torn := torn ci |}) in *.
    set (co' := {| remoteAddr := remoteAddr co; isOpen := false; received := received co;
                   sent := sent co; torn := torn co |}) in *.
    set (t1 := set_pump k Finished (set_conn Outbound co' (set_conn Inbound ci' t))) in *.
    assert (heap s1 !! p = Some t1) as Ht1.
    { rewrite H4. apply list_lookup_insert_eq. by eapply lookup_lt_Some. }
    assert (tunnels (realm s1) !! tid t = None) as Hgone
      by (rewrite H3; apply lookup_delete_eq).
    destruct (teardown_again p ks ls s1 t1 ci' co')
      as (s' & Hr' & Hp' & Hid' & Hreg' & Hi' & Ho' & Hq' & Hsys'); try done.
    { congruence. }
    { apply (terminates_all_ext p t); [|done].
      intros k' Hk'. unfold t1. rewrite pump_set_pump_ne by (intros ->; done).
      by rewrite !pump_set_conn. }
    exists s1, s'. split; [done|]. split; [done|]. split; [done|]. split; [done|].
    split; [unfold torn_down; by rewrite Ht1|].
    split; [done|]. split; [done|]. split; [done|].
    split; [by rewrite Hi', Ht1|]. split; [by rewrite Ho', Ht1|].
    split.
    { unfold torn_down. destruct (heap s' !! p) as [t'|]; [|done].
      simpl in Hi', Ho'. injection Hi' as ->. injection Ho' as ->. done. }
    split; [|done].
    intros q Hq. rewrite Hq' by done. rewrite H4. by apply list_lookup_insert_ne.
  - intros l s'' sd Hrun.
    destruct (closed_once_reachable s'' (reachable_run l s s'' Hreach Hrun)) as [Hc Hb].
    unfold torn_down. destruct (heap s'' !! p) as [t''|] eqn:Ht''.
    + rewrite (Hc p t'' sd Ht''). split; [destruct (closed _); lia|].
      intros Htd. apply andb_true_iff in Htd as [Hin Hout].
      destruct sd; simpl; by rewrite ?Hin, ?Hout.
    + split; [|done]. unfold closes. rewrite count_occ_absent; [lia|].
      intros Hin. apply Hb in Hin. apply lookup_ge_None in Ht''. lia.
Qed.

Lemma client_gone_run :
  run client_gone sample = Some (after client_gone) ∧
  proc (after client_gone) = Running ∧
  heap (after client_gone) !! 0%nat = Some (tunnel_at 0 (after client_gone)) ∧
  inbound (tunnel_at 0 (after client_gone))
  = Some (handle Inbound (tunnel_at 0 (after client_gone))) ∧
  outbound (tunnel_at 0 (after client_gone))
  = Some (handle Outbound (tunnel_at 0 (after client_gone))) ∧
  isOpen (handle Inbound (tunnel_at 0 (after client_gone))) = true ∧
  isOpen (handle Outbound (tunnel_at 0 (after client_gone))) = true ∧
  tunnels (realm (after client_gone)) !! tid (tunnel_at 0 (after client_gone))
  = Some 0%nat ∧
  pump RdIn (tunnel_at 0 (after client_gone)) = Returned EOF ∧
  pump RdOut (tunnel_at 0 (after client_gone)) = AtRead.
Proof. evaluate. Qed.

Lemma teardown_idempotent_witness :
  ∃ s1 s',
    run (teardown 0 RdIn) (after client_gone) = Some s1 ∧
    run (DoRead 0 ToLocal [] None :: teardown 0 RdOut) s1 = Some s' ∧
    torn_down 0 s1 = true ∧
    tunnels (realm s') = tunnels (realm s1) ∧
    syscalls s' = syscalls s1 ++ failed_closes 0.
Proof.
  destruct client_gone_run as (Hrun & Hp & Ht & Hi & Ho & Hci & Hco & Hreg & Hk1 & Hk2).
  destruct (teardown_idempotent (after client_gone) 0 (tunnel_at 0 (after client_gone))
              (handle Inbound (tunnel_at 0 (after client_gone)))
              (handle Outbound (tunnel_at 0 (after client_gone))) RdIn EOF [RdOut]
              [DoRead 0 ToLocal [] None :: teardown 0 RdOut]
              (reachable_after client_gone Hrun) Hp Ht Hi Ho Hci Hco Hreg Hk1)
    as [(s1 & s' & H1 & H2 & _ & _ & H3 & _ & _ & H4 & _ & _ & _ & _ & H5) _].
  - apply (bool_decide_unpack (NoDup [RdIn; RdOut])). vm_compute. exact I.
  - constructor; [|constructor]. by apply (term_read _ _ _ ToLocal).
  - exists s1, s'. simpl in H2, H5. done.
Defined.

(** ** Further properties of the code *)

(** *** Inversion of a step *)

Lemma step_inv a s s' : step a s = Some s' → proc s = Running ∧ step_spec a s s'.
Proof.
  unfold step. intros H. destruct (proc s); [|done..]. split; [done|].
  destruct a; simpl in *.
  - destruct (mainG s); [|done]. by injection H as <-.
  - destruct (mainG s) as [|c]; [done|]. destruct (realmG s); try done.
    injection H as <-. by exists c.
  - destruct (realmG s) as [|c|]; try done. exists c. split; [done|].
    destruct (newTCPTunnel c o s) as [s1 [p|]]; by injection H as <-.
  - destruct (realmG s) as [| |p]; try done.
    destruct (heap s !! p) as [t|] eqn:E; [|done]. simpl in H. injection H as <-.
    by exists p, t.
  - destruct (heap s !! p) as [t|] eqn:E; [|done]. simpl in H.
    destruct (pump (reader d) t) eqn:Ep; try done. exists t. split; [done|]. split; [done|].
    destruct (readFromConn _ _ _) as [[c pm]|]; by injection H as <-.
  - destruct (heap s !! p) as [t|] eqn:E; [|done]. simpl in H.
    destruct (pump (reader d) t) eqn:Ep; try done.
    destruct (pump (writer d) t) eqn:Ew; try done. injection H as <-.
    by eexists t, _.
  - destruct (heap s !! p) as [t|] eqn:E; [|done]. simpl in H.
    destruct (pump (writer d) t) eqn:Ep; try done. eexists t, _.
    split; [done|]. split; [done|].
    destruct (writeToConn _ _ _) as [[c pm]|]; by injection H as <-.
  - destruct (heap s !! p) as [t|] eqn:E; [|done]. simpl in H. by exists t.
Qed.

Lemma readFromConn_Panic oc data err : readFromConn oc data err = Panic → oc = None.
Proof.
  destruct oc as [c|]; [|done]. unfold readFromConn.
  destruct (conn_Read _ _ _ _) as [[[b n] [e|]] c']; done.
Qed.

Lemma writeToConn_Panic oc bytes o : writeToConn oc bytes o = Panic → oc = None.
Proof.
  destruct oc as [c|]; [|done]. unfold writeToConn.
  destruct (conn_Write _ _ _) as [[n [e|]] c']; done.
Qed.

Lemma conn_None sd t : conn sd t = None → inbound t = None ∨ outbound t = None.
Proof. destruct sd; simpl; auto. Qed.

(** A step of a pump of the tunnel at [p]: it panics on a nil handle, or it
    is a step of that tunnel, which changes nothing else but, when the pump
    enters [leave], the registry entry of the tunnel. *)
Lemma step_pump a s s' p :
  step a s = Some s' → tunnel_of a = Some p →
  ∃ t, heap s !! p = Some t ∧ mainG s' = mainG s ∧ realmG s' = realmG s ∧
       id s' = id s ∧ destination s' = destination s ∧
       ((s' = set_proc Panicked s ∧ (inbound t = None ∨ outbound t = None)) ∨
        (∃ calls t', tunnel_step t calls t' ∧ heap s' = <[p := t']> (heap s) ∧
                     proc s' = Running ∧
                     syscalls s' = syscalls s ++ close_calls p calls ∧
                     (tunnels (realm s') = tunnels (realm s) ∨
                      tunnels (realm s') = delete (tid t) (tunnels (realm s))))).
Proof.
  intros H Ha. apply step_inv in H as [Hp H]. destruct a; simpl in Ha; simplify_eq;
    simpl in H.
  - destruct H as (t & Ht & Hr & ->). exists t. split; [done|].
    destruct (readFromConn _ _ _) as [[c pm]|] eqn:Er.
    + do 4 (split; [done|]). right. eexists [], _. split; [by eapply ts_read|].
      simpl. rewrite app_nil_r. auto.
    + do 4 (split; [done|]). left. split; [done|].
      by apply readFromConn_Panic, conn_None in Er.
  - destruct H as (t & b & Ht & Hr & Hw & ->). exists t. do 5 (split; [done|]).
    right. eexists [], _. split; [by eapply ts_handoff|].
    simpl. rewrite app_nil_r. auto.
  - destruct H as (t & b & Ht & Hw & ->). exists t. split; [done|].
    destruct (writeToConn _ _ _) as [[c pm]|] eqn:Er.
    + do 4 (split; [done|]). right. eexists [], _. split; [by eapply ts_write|].
      simpl. rewrite app_nil_r. auto.
    + do 4 (split; [done|]). left. split; [done|].
      by apply writeToConn_Panic, conn_None in Er.
  - destruct H as (t & Ht & H). exists t. split; [done|].
    unfold pump_exit, leave_close in H. simpl in H.
    destruct (pump k t) eqn:Ep.
    1-4,8: done.
    + injection H as <-.
      assert (∀ x, proc x = Running → proc (leave_delete t err x) = Running) as Hproc
        by (intros x Hx; unfold leave_delete; by destruct (decide _)).
      unfold leave_delete. destruct (decide _); simpl;
        (do 4 (split; [done|])); right; eexists [], _;
        (split; [by eapply ts_leave|]); simpl; rewrite app_nil_r; auto.
    + destruct (inbound t) as [c|] eqn:Ec.
      * destruct (conn_Close c) as [e c'] eqn:Ecl. injection H as <-. simpl.
        do 4 (split; [done|]). right. eexists [(Inbound, e)], _.
        replace c' with (conn_Close c).2 by by rewrite Ecl.
        replace e with (conn_Close c).1 by by rewrite Ecl.
        split; [by eapply ts_close_in|]. simpl. auto.
      * injection H as <-. simpl. auto 10.
    + destruct (outbound t) as [c|] eqn:Ec.
      * destruct (conn_Close c) as [e c'] eqn:Ecl. injection H as <-. simpl.
        do 4 (split; [done|]). right. eexists [(Outbound, e)], _.
        replace c' with (conn_Close c).2 by by rewrite Ecl.
        replace e with (conn_Close c).1 by by rewrite Ecl.
        split; [by eapply ts_close_out|]. simpl. auto.
      * injection H as <-. simpl. auto 10.
Qed.

(** A step of [main] or of the realm goroutine: the tunnels allocated are
    left as they are, and a successful dial allocates one more. *)
Lemma step_admission a s s' :
  step a s = Some s' → tunnel_of a = None →
  destination s' = destination s ∧
  ((heap s' = heap s ∧ id s' = id s ∧
    (syscalls s' = syscalls s ∨
     ∃ e, a = DoDial (DialErr e) ∧ proc s' = Exited 1 ∧
          syscalls s' = syscalls s ++ [SysDial (destination s) (Some e)])) ∨
   (∃ c peer, a = DoDial (DialOk peer) ∧ realmG s = AtJoin c ∧
              realmG s' = AtRegister (length (heap s)) ∧
              syscalls s' = syscalls s ++ [SysDial (destination s) None] ∧
              heap s' = heap s ++
                [ {| tid := (generateID (id s)).2; inbound := c;
                     outbound := Some (newConn peer);
                     readFromInbound := AtRead; writeToOutbound := AtRecv;
                     readFromOutbound := AtRead; writeToInbound := AtRecv |} ])).
Proof.
  intros H Ha. apply step_inv in H as [Hp H]. destruct a; simpl in Ha; simplify_eq;
    simpl in H.
  - destruct H as [_ ->]. unfold main_accept. destruct o; simpl; (split; [done|]); auto.
  - destruct H as (c & _ & _ & ->). simpl. split; [done|]. auto.
  - destruct H as (c & Hr & ->). destruct o; simpl.
    + split; [done|]. right. by exists c, peer.
    + split; [done|]. left. do 2 (split; [done|]). right. by exists err.
  - destruct H as (p & t & Hr & Ht & ->). simpl. split; [done|]. auto.
Qed.

Lemma tunnel_of_cases a : (∃ p, tunnel_of a = Some p) ∨ tunnel_of a = None.
Proof. destruct a; simpl; eauto. Qed.


(** *** The registry *)

Lemma step_lookup a s s' p t :
  step a s = Some s' → heap s !! p = Some t →
  ∃ t', heap s' !! p = Some t' ∧ (t' = t ∨ ∃ calls, tunnel_step t calls t').
Proof.
  intros H Ht. destruct (tunnel_of_cases a) as [[q Ha]|Ha].
  - destruct (step_pump a s s' q H Ha) as (t0 & Ht0 & _ & _ & _ & _ & [[-> Hn]|Hs]).
    + exists t. auto.
    + destruct Hs as (calls & t' & Hst & E & _). rewrite E.
      destruct (decide (q = p)) as [->|Hne].
      * exists t'. rewrite list_lookup_insert_eq by by eapply lookup_lt_Some.
        split; [done|]. right. exists calls. congruence.
      * exists t. rewrite list_lookup_insert_ne by done. auto.
  - destruct (step_admission a s s' H Ha) as [_ [(E & _)|(c & peer & _ & _ & _ & _ & E)]];
      rewrite E; exists t; split; auto. by apply lookup_app_l_Some.
Qed.

Lemma tunnel_step_tid t calls t' : tunnel_step t calls t' → tid t' = tid t.
Proof. by destruct 1. Qed.

Lemma step_heap_tids a s s' i t :
  step a s = Some s' → heap s !! i = Some t →
  ∃ t', heap s' !! i = Some t' ∧ tid t' = tid t.
Proof.
  intros Hs Hi. destruct (step_lookup a s s' i t Hs Hi) as (t' & Ht' & [E|[calls Hst]]);
    exists t'; (split; [done|]); [by rewrite E|by eapply tunnel_step_tid].
Qed.

(** How a step changes the registry and the realm goroutine. *)
Lemma step_registry a s s' :
  step a s = Some s' →
  (tunnels (realm s') = tunnels (realm s) ∧
   (realmG s' = realmG s ∨ realmG s' = AtSelect ∨ (∃ c, realmG s' = AtJoin c) ∨
    (realmG s' = AtRegister (length (heap s)) ∧ ∃ t, heap s' = heap s ++ [t]))) ∨
  (∃ p t, a = DoRegister ∧ realmG s = AtRegister p ∧ heap s !! p = Some t ∧
          realmG s' = AtSelect ∧ heap s' = heap s ∧
          tunnels (realm s') = <[tid t := p]> (tunnels (realm s))) ∨
  (∃ p t, tunnel_of a = Some p ∧ heap s !! p = Some t ∧ realmG s' = realmG s ∧
          tunnels (realm s') = delete (tid t) (tunnels (realm s))).
Proof.
  intros H. destruct (tunnel_of_cases a) as [[p Ha]|Ha].
  - destruct (step_pump a s s' p H Ha) as (t & Ht & _ & Hg & _ & _ & [[-> Hn]|Hs]).
    + left. auto.
    + destruct Hs as (calls & t' & _ & _ & _ & _ & [E|E]); [left; auto|].
      right. right. by exists p, t.
  - apply step_inv in H as [Hp H]. destruct a; simpl in Ha; simplify_eq; simpl in H.
    + destruct H as [_ ->]. left. unfold main_accept. destruct o; simpl; auto.
    + destruct H as (c & _ & _ & ->). left. simpl. eauto 10.
    + destruct H as (c & Hr & ->). left. destruct o; simpl.
      * split; [done|]. right. right. right. eauto.
      * rewrite Hr. auto.
    + destruct H as (p & t & Hr & Ht & ->). right. left. by exists p, t.
Qed.

Lemma registry_wf_reachable s : reachable s → registry_wf s.
Proof.
  induction 1 as [|a s s' Hr [IH1 IH2] Hs] using reachable_ind.
  { split; [|done]. intros id p H. simpl in H. by rewrite lookup_empty in H. }
  assert (∀ p, is_Some (heap s !! p) → is_Some (heap s' !! p)) as Hkeep.
  { intros p [t Ht]. destruct (step_heap_tids a s s' p t Hs Ht) as (t' & Ht' & _). eauto. }
  destruct (step_registry a s s' Hs)
    as [[E Hg]|[(p & t & _ & Hg & Ht & Hg' & _ & E)|(p & t & _ & Ht & Hg & E)]].
  - split.
    + intros id q Hq. rewrite E in Hq. destruct (IH1 id q Hq) as (t & Ht & <-).
      by eapply step_heap_tids.
    + intros q Hq. destruct Hg as [Hg|[Hg|[[c Hg]|[Hg [t Ht]]]]]; rewrite Hg in Hq.
      * by apply Hkeep, IH2.
      * done.
      * done.
      * injection Hq as <-. rewrite Ht. rewrite list_lookup_middle; eauto.
  - split.
    + intros id q Hq. rewrite E in Hq.
      destruct (decide (tid t = id)) as [<-|Hne].
      * rewrite lookup_insert_eq in Hq. injection Hq as <-. by eapply step_heap_tids.
      * rewrite lookup_insert_ne in Hq by done. destruct (IH1 id q Hq) as (t0 & Ht0 & <-).
        by eapply step_heap_tids.
    + intros q Hq. by rewrite Hg' in Hq.
  - split.
    + intros id q Hq. rewrite E in Hq.
      apply lookup_delete_Some in Hq as [_ Hq]. destruct (IH1 id q Hq) as (t0 & Ht0 & <-).
      by eapply step_heap_tids.
    + intros q Hq. rewrite Hg in Hq. by apply Hkeep, IH2.
Qed.

Lemma admission_run :
  run (admission "client" "server") sample = Some (after (admission "client" "server")).
Proof. vm_compute. reflexivity. Qed.

(** X1.  In every state the process can reach, the registry is well formed:
    an entry points to a tunnel that was allocated and whose identity is the
    key of the entry; no tunnel is registered under two keys; and when
    [join] stands at its map insert the insert can be made, the tunnel
    returned by [newTCPTunnel] being allocated. *)
Theorem registry_wellformed (s : State) :
  reachable s →
  (∀ id p, tunnels (realm s) !! id = Some p → ∃ t, heap s !! p = Some t ∧ tid t = id) ∧
  (∀ id1 id2 p, tunnels (realm s) !! id1 = Some p → tunnels (realm s) !! id2 = Some p →
                id1 = id2) ∧
  (∀ p, realmG s = AtRegister p → proc s = Running → is_Some (step DoRegister s)).
Proof.
  intros Hr. destruct (registry_wf_reachable s Hr) as [H1 H2].
  split; [done|]. split.
  - intros id1 id2 p Ha Hb. destruct (H1 _ _ Ha) as (t & Ht & <-).
    destruct (H1 _ _ Hb) as (t' & Ht' & <-). congruence.
  - intros p Hg Hp. destruct (H2 p Hg) as [t Ht]. unfold step. rewrite Hp, Hg, Ht.
    simpl. eauto.
Qed.

Lemma registry_wellformed_witness :
  tunnels (realm (after (admission "client" "server"))) !! "1" = Some 0%nat ∧
  ∃ t, heap (after (admission "client" "server")) !! 0%nat = Some t ∧ tid t = "1".
Proof.
  split; [vm_compute; reflexivity|].
  apply (registry_wellformed (after (admission "client" "server"))).
  - apply reachable_after, admission_run.
  - vm_compute. reflexivity.
Defined.

(** *** The dials *)

Lemma filter_close_calls p calls :
  filter (λ c, dial_ok c = true) (close_calls p calls) = [].
Proof. induction calls as [|x calls IH]; [done|]. simpl. by rewrite filter_cons_False. Qed.

Lemma tunnel_step_outbound t calls t' :
  tunnel_step t calls t' → is_Some (outbound t) → is_Some (outbound t').
Proof.
  intros Hs Ho. destruct Hs as [d data err c pm Hp Hr|d bytes Hp Hw|d bytes o c pm Hp Hw
                                |k e Hp|k c Hp Hc|k c Hp Hc]; simpl; try done.
  - destruct d; simpl; eauto.
  - destruct d; simpl; eauto.
Qed.

Lemma elem_of_close_calls p calls addr e : SysDial addr e ∉ close_calls p calls.
Proof. intros Hin. apply list_elem_of_fmap in Hin as (x & Hx & _). done. Qed.

Lemma dials_inv_reachable s : reachable s → dials_inv s.
Proof.
  induction 1 as [|a s s' Hr (IH1 & IH2 & IH3 & IH4) Hs] using reachable_ind.
  { split; [|split; [done|split; [done|]]]; intros ? ? H; simpl in H;
      by apply not_elem_of_nil in H. }
  assert (∀ addr e, SysDial addr (Some e) ∉ syscalls s) as Hnofail.
  { intros addr e Hin. apply IH4 in Hin. apply step_inv in Hs as [Hp _]. congruence. }
  unfold dials_inv, dials_ok in *.
  destruct (tunnel_of_cases a) as [[p Ha]|Ha].
  - destruct (step_pump a s s' p Hs Ha) as (t & Ht & _ & _ & _ & Hd & [[-> Hn]|Hst]).
    { simpl. rewrite Hd. split; [done|]. split; [done|]. split; [done|].
      intros addr e Hin. by apply Hnofail in Hin. }
    destruct Hst as (calls & t' & Hst & Eh & Hp & Es & _). rewrite Hd, Es, Eh.
    split; [|split; [|split]].
    + intros addr e Hin. apply elem_of_app in Hin as [Hin|Hin]; [eauto|].
      by apply elem_of_close_calls in Hin.
    + rewrite filter_app, length_app, filter_close_calls, length_insert. simpl. lia.
    + intros q t0 Hq. destruct (decide (p = q)) as [->|Hne].
      * rewrite list_lookup_insert_eq in Hq by by eapply lookup_lt_Some.
        injection Hq as <-. eapply tunnel_step_outbound; eauto.
      * rewrite list_lookup_insert_ne in Hq by done. eauto.
    + intros addr e Hin. apply elem_of_app in Hin as [Hin|Hin];
        [by apply Hnofail in Hin|by apply elem_of_close_calls in Hin].
  - destruct (step_admission a s s' Hs Ha)
      as [Hd [(Eh & _ & [Es|(e & _ & Hp & Es)])|(c & peer & _ & _ & _ & Es & Eh)]];
      rewrite Hd, Es, Eh.
    + split; [done|]. split; [done|]. split; [done|].
      intros addr e Hin. by apply Hnofail in Hin.
    + split; [|split; [|split; [done|done]]].
      * intros addr e0 Hin. apply elem_of_app in Hin as [Hin|Hin]; [eauto|].
        apply list_elem_of_singleton in Hin. congruence.
      * rewrite filter_app, length_app. rewrite filter_cons_False by done. simpl. lia.
    + split; [|split; [|split]].
      * intros addr e0 Hin. apply elem_of_app in Hin as [Hin|Hin]; [eauto|].
        apply list_elem_of_singleton in Hin. congruence.
      * rewrite filter_app, !length_app. rewrite filter_cons_True by done. simpl. lia.
      * intros q t0 Hq. apply lookup_app_Some in Hq as [Hq|[_ Hq]]; [eauto|].
        apply list_lookup_singleton_Some in Hq as [_ <-]. simpl. eauto.
      * intros addr e Hin. apply elem_of_app in Hin as [Hin|Hin];
          [by apply Hnofail in Hin|].
        apply list_elem_of_singleton in Hin. congruence.
Qed.

(** X2.  In every state the process can reach: every dial made went to
    the destination [dstHost:dstPort] of the realm; the dials that
    succeeded are as many as the tunnels allocated, one per connection
    admitted; the outbound handle of a tunnel is never nil; and once a dial
    has failed the process has exited with status 1. *)
Theorem dials_to_destination (s : State) :
  reachable s →
  (∀ addr e, SysDial addr e ∈ syscalls s → addr = dstHost (realm s) +:+ ":" +:+ dstPort (realm s)) ∧
  dials_ok s = length (heap s) ∧
  (∀ p t, heap s !! p = Some t → is_Some (outbound t)) ∧
  (∀ addr e, SysDial addr (Some e) ∈ syscalls s → proc s = Exited 1).
Proof. intros Hr. exact (dials_inv_reachable s Hr). Qed.

Lemma dials_to_destination_witness :
  dials_ok (after (admission "client" "server")) = 1%nat ∧
  length (heap (after (admission "client" "server"))) = 1%nat.
Proof.
  split; [vm_compute; reflexivity|].
  destruct (dials_to_destination (after (admission "client" "server"))) as (_ & H & _).
  - apply reachable_after, admission_run.
  - rewrite <- H. vm_compute. reflexivity.
Defined.

(** *** How the process ends *)






(** *** Invariants of the tunnels *)

(** A property of tunnels that holds of a new tunnel and is kept by the
    steps of its pumps holds of every tunnel of a reachable state. *)
Lemma tunnels_reachable (I : TCPTunnel → Prop) :
  (∀ t, fresh_tunnel t → is_Some (outbound t) → I t) →
  (∀ t calls t', tunnel_step t calls t' → I t → I t') →
  ∀ s, reachable s → ∀ p t, heap s !! p = Some t → I t.
Proof.
  intros Hnew Hstep. induction 1 as [|a s s' Hr IH Hs] using reachable_ind; [done|].
  intros q t Hq. destruct (tunnel_of_cases a) as [[p Ha]|Ha].
  - destruct (step_pump a s s' p Hs Ha) as (t0 & Ht0 & _ & _ & _ & _ & [[-> _]|Hst]);
      [eauto|].
    destruct Hst as (calls & t' & Hst & E & _). rewrite E in Hq.
    destruct (decide (p = q)) as [->|Hne].
    + rewrite list_lookup_insert_eq in Hq by by eapply lookup_lt_Some.
      injection Hq as <-. eauto.
    + rewrite list_lookup_insert_ne in Hq by done. eauto.
  - destruct (step_admission a s s' Hs Ha) as [_ [(E & _)|(c & peer & _ & Hg & _ & _ & E)]];
      rewrite E in Hq; [eauto|].
    apply lookup_app_Some in Hq as [Hq|[_ Hq]]; [eauto|].
    apply list_lookup_singleton_Some in Hq as [_ <-].
    apply Hnew; [|simpl; eauto]. destruct (pending_idle_reachable s Hr) as [_ Hpi].
    unfold fresh_tunnel. simpl. split; [by apply Hpi|]. done.
Qed.

(** A relation between the states of a tunnel that its steps respect
    holds along every run, from any state: the tunnel stays where it is. *)
Lemma run_lookup (R : TCPTunnel → TCPTunnel → Prop) :
  (∀ t, R t t) → (∀ t1 t2 t3, R t1 t2 → R t2 t3 → R t1 t3) →
  (∀ t calls t', tunnel_step t calls t' → R t t') →
  ∀ l s s' p t, run l s = Some s' → heap s !! p = Some t →
                ∃ t', heap s' !! p = Some t' ∧ R t t'.
Proof.
  intros Hrefl Htrans Hstep. induction l as [|a l IH]; intros s s' p t H Ht; simpl in H.
  - injection H as <-. eauto.
  - destruct (step a s) as [s1|] eqn:E; [|done]. simpl in H.
    destruct (step_lookup a s s1 p t E Ht) as (t1 & Ht1 & Hc).
    destruct (IH s1 s' p t1 H Ht1) as (t' & Ht' & HR). exists t'. split; [done|].
    destruct Hc as [->|[calls Hst]]; eauto.
Qed.

(** *** Pumps left behind *)

Ltac pump_cases :=
  repeat match goal with
         | x : Dir |- _ => destruct x
         | x : PumpId |- _ => destruct x
         end;
  simpl in *.

Lemma tunnel_step_blocked d t calls t' :
  tunnel_step t calls t' →
  (pump (writer d) t = AtRecv ∧ gone (pump (reader d) t) = true →
   pump (writer d) t' = AtRecv ∧ gone (pump (reader d) t') = true) ∧
  (∀ b, pump (reader d) t = AtSend b ∧ gone (pump (writer d) t) = true →
        pump (reader d) t' = AtSend b ∧ gone (pump (writer d) t') = true).
Proof.
  intros Hs. destruct Hs as [d0 data err c pm Hp Hr|d0 bytes Hp Hw|d0 bytes o c pm Hp Hw
                             |k e Hp|k c Hp Hc|k c Hp Hc];
    (split; [intros [H1 H2]|intros b [H1 H2]]); pump_cases;
    rewrite ?Hp, ?Hw in *; simplify_eq; simpl in *; eauto.
Qed.

Lemma client_gone_teardown_run :
  run (teardown 0 RdIn) (after client_gone) = Some (after (client_gone ++ teardown 0 RdIn)) ∧
  heap (after client_gone) !! 0%nat = Some (tunnel_at 0 (after client_gone)) ∧
  pump (writer ToRemote) (tunnel_at 0 (after client_gone)) = AtRecv ∧
  gone (pump (reader ToRemote) (tunnel_at 0 (after client_gone))) = true.
Proof. evaluate. Qed.

(** X5.  The channels of a tunnel are never closed, so a pump blocked on
    one stays blocked once its partner has left its loop: a writer waiting
    for a chunk whose reader has returned waits in every later state, and
    so does a reader holding a chunk whose writer has returned, with the
    same chunk.  Such a pump never returns and never runs its teardown. *)
Theorem blocked_pump_stays (l : list Act) (s s' : State) (p : nat) (t : TCPTunnel) (d : Dir) :
  run l s = Some s' → heap s !! p = Some t →
  ∃ t', heap s' !! p = Some t' ∧
        (pump (writer d) t = AtRecv → gone (pump (reader d) t) = true →
         pump (writer d) t' = AtRecv ∧ gone (pump (reader d) t') = true) ∧
        (∀ b, pump (reader d) t = AtSend b → gone (pump (writer d) t) = true →
              pump (reader d) t' = AtSend b ∧ gone (pump (writer d) t') = true).
Proof.
  intros Hl Ht.
  destruct (run_lookup
              (λ t t', (pump (writer d) t = AtRecv ∧ gone (pump (reader d) t) = true →
                        pump (writer d) t' = AtRecv ∧ gone (pump (reader d) t') = true) ∧
                       (∀ b, pump (reader d) t = AtSend b ∧ gone (pump (writer d) t) = true →
                             pump (reader d) t' = AtSend b ∧
                             gone (pump (writer d) t') = true))) with l s s' p t
    as (t' & Ht' & Hw & Hr); try done.
  - intros t1 t2 t3 [Hw1 Hr1] [Hw2 Hr2]. split; [auto|]. intros b Hb. auto.
  - intros t0 calls t1 Hst. by eapply tunnel_step_blocked.
  - exists t'. split; [done|]. split; [auto|]. intros b H1 H2. auto.
Qed.

Lemma blocked_pump_stays_witness :
  ∃ t', heap (after (client_gone ++ teardown 0 RdIn)) !! 0%nat = Some t' ∧
        pump (writer ToRemote) t' = AtRecv.
Proof.
  destruct client_gone_teardown_run as (Hl & Ht & Hw & Hg).
  destruct (blocked_pump_stays (teardown 0 RdIn) (after client_gone)
              (after (client_gone ++ teardown 0 RdIn)) 0
              (tunnel_at 0 (after client_gone)) ToRemote Hl Ht) as (t' & Ht' & H & _).
  exists t'. split; [exact Ht'|]. exact (proj1 (H Hw Hg)).
Defined.

(** *** The name of a tunnel *)

Lemma conn_Close_addr c : remoteAddr (conn_Close c).2 = remoteAddr c.
Proof. unfold conn_Close. by destruct (isOpen c). Qed.

Lemma tunnel_step_same t calls t' : tunnel_step t calls t' → same_tunnel t t'.
Proof.
  intros Hs. destruct Hs as [d0 data err c pm Hp Hr|d0 bytes Hp Hw|d0 bytes o c pm Hp Hw
                             |k e Hp|k c Hp Hc|k c Hp Hc]; unfold same_tunnel; simpl;
    try done.
  - destruct d0; simpl in *.
    + destruct (inbound t) as [c0|]; [|done]. apply readFromConn_addr in Hr.
      simpl. by rewrite Hr.
    + destruct (outbound t) as [c0|]; [|done]. apply readFromConn_addr in Hr.
      simpl. by rewrite Hr.
  - destruct d0; simpl in *.
    + destruct (outbound t) as [c0|]; [|done]. apply writeToConn_addr in Hw.
      simpl. by rewrite Hw.
    + destruct (inbound t) as [c0|]; [|done]. apply writeToConn_addr in Hw.
      simpl. by rewrite Hw.
  - rewrite Hc. simpl. by rewrite conn_Close_addr.
  - rewrite Hc. simpl. by rewrite conn_Close_addr.
Qed.

Lemma same_tunnel_String t t' : same_tunnel t t' → String t' = String t.
Proof.
  intros (_ & Hi & Ho). unfold String.
  destruct (inbound t), (inbound t'), (outbound t), (outbound t'); simpl in *;
    simplify_eq; congruence.
Qed.

Lemma same_tunnel_trans t1 t2 t3 : same_tunnel t1 t2 → same_tunnel t2 t3 → same_tunnel t1 t3.
Proof. intros (H1 & H2 & H3) (H4 & H5 & H6). repeat split; congruence. Qed.

(** X7.  A tunnel object is never freed, moved or renamed: along every
    run, from any state, the tunnel stays at its address and keeps its
    identity, the peers of its two handles and therefore its [String], also
    across the Close of its handles; a nil handle stays nil and a handle
    that is not nil stays so. *)
Theorem tunnel_keeps_name (l : list Act) (s s' : State) (p : nat) (t : TCPTunnel) :
  run l s = Some s' → heap s !! p = Some t →
  ∃ t', heap s' !! p = Some t' ∧ tid t' = tid t ∧ String t' = String t ∧
        remoteAddr <$> inbound t' = remoteAddr <$> inbound t ∧
        remoteAddr <$> outbound t' = remoteAddr <$> outbound t ∧
        (inbound t' = None ↔ inbound t = None) ∧
        (outbound t' = None ↔ outbound t = None).
Proof.
  intros Hl Ht.
  destruct (run_lookup same_tunnel) with l s s' p t as (t' & Ht' & Hs); try done.
  - exact same_tunnel_trans.
  - exact tunnel_step_same.
  - exists t'. split; [done|]. pose proof (same_tunnel_String t t' Hs) as HS.
    destruct Hs as (H1 & H2 & H3). do 4 (split; [done|]).
    split; [destruct (inbound t), (inbound t')|destruct (outbound t), (outbound t')];
      simpl in *; by simplify_eq.
Qed.

Lemma tunnel_keeps_name_witness :
  ∃ t', heap (after (client_gone ++ teardown 0 RdIn)) !! 0%nat = Some t' ∧
        String t' = "client -> server".
Proof.
  destruct client_gone_teardown_run as (Hl & Ht & _).
  destruct (tunnel_keeps_name (teardown 0 RdIn) (after client_gone)
              (after (client_gone ++ teardown 0 RdIn)) 0
              (tunnel_at 0 (after client_gone)) Hl Ht) as (t' & Ht' & _ & H & _).
  exists t'. split; [exact Ht'|]. rewrite H. vm_compute. reflexivity.
Defined.

(** *** What [listTunnels] prints *)

Lemma listTunnels_listing s : listTunnels s = logf (LogTunnels (listing s)) s.
Proof. done. Qed.

(** The lines a step logs; a listing among them shows the registry as the
    step leaves it. *)
Lemma step_log a s s' :
  step a s = Some s' →
  ∃ ls, log s' = log s ++ ls ∧ ∀ m, LogTunnels m ∈ ls → m = listing s'.
Proof.
  intros H. apply step_inv in H as [Hp H].
  assert (∀ x : State, log x = log s → ∃ ls, log x = log s ++ ls ∧
                                     ∀ m, LogTunnels m ∈ ls → m = listing x) as Hsame.
  { intros x E. exists []. rewrite app_nil_r. split; [done|].
    intros m Hm. by apply not_elem_of_nil in Hm. }
  assert (∀ (x : State) (y : LogLine), log x = log s ++ [y] →
            (∀ m, y ≠ LogTunnels m) →
            ∃ ls, log x = log s ++ ls ∧ ∀ m, LogTunnels m ∈ ls → m = listing x) as Hone.
  { intros x y E Hy. exists [y]. split; [done|].
    intros m Hm. apply list_elem_of_singleton in Hm. by destruct (Hy m). }
  destruct a; simpl in H.
  - destruct H as [_ ->]. destruct o; [by apply Hsame|by eapply Hone].
  - destruct H as (c & _ & _ & ->). by apply Hsame.
  - destruct H as (c & Hr & ->). destruct o; [by apply Hsame|by eapply Hone].
  - destruct H as (p & t & Hr & Ht & ->).
    exists [LogAdded (tid t) (String t);
            LogTunnels (listing (set_realmG AtSelect (join_register p t s)))].
    split; [simpl; by rewrite <- app_assoc|].
    intros m Hm. apply elem_of_cons in Hm as [Hm|Hm]; [done|].
    apply list_elem_of_singleton in Hm. by injection Hm.
  - destruct H as (t & Ht & _ & ->).
    destruct (readFromConn _ _ _) as [[c pm]|]; by apply Hsame.
  - destruct H as (t & b & Ht & _ & _ & ->). by apply Hsame.
  - destruct H as (t & b & Ht & _ & ->).
    destruct (writeToConn _ _ _) as [[c pm]|]; by apply Hsame.
  - destruct H as (t & Ht & H). unfold pump_exit, leave_close in H. simpl in H.
    destruct (pump k t).
    1-4,8: done.
    + injection H as <-. unfold leave_delete. destruct (decide (err = EOF)).
      * exists [LogClosed (String t); LogLeaving (String t)].
        split; [simpl; by rewrite <- app_assoc|].
        intros m Hm. apply elem_of_cons in Hm as [Hm|Hm]; [done|].
        by apply list_elem_of_singleton in Hm.
      * exists [LogError err; LogClosed (String t); LogLeaving (String t)].
        split; [simpl; by rewrite <- !app_assoc|].
        intros m Hm. apply elem_of_cons in Hm as [Hm|Hm]; [done|].
        apply elem_of_cons in Hm as [Hm|Hm]; [done|].
        by apply list_elem_of_singleton in Hm.
    + destruct (inbound t) as [c|]; [destruct (conn_Close c)|];
        injection H as <-; by apply Hsame.
    + destruct (outbound t) as [c|]; [destruct (conn_Close c) as [e c']|];
        injection H as <-; [|by apply Hsame].
      eexists [LogTunnels _]. split; [reflexivity|].
      intros m Hm. apply list_elem_of_singleton in Hm. by injection Hm.
Qed.

(** X8.  The listings in the log are truthful: every map printed by
    [listTunnels], at any time before, shows under each identity the
    [String] of a tunnel that was allocated and carries that identity, as
    the tunnel would print now. *)
Theorem listings_truthful (s : State) :
  reachable s →
  ∀ m id str, LogTunnels m ∈ log s → m !! id = Some str →
              ∃ p t, heap s !! p = Some t ∧ tid t = id ∧ String t = str.
Proof.
  induction 1 as [|a s s' Hr IH Hs] using reachable_ind.
  { intros m id str Hm. simpl in Hm. by apply not_elem_of_nil in Hm. }
  intros m id str Hm Hid. destruct (step_log a s s' Hs) as (ls & E & Hls).
  rewrite E in Hm. apply elem_of_app in Hm as [Hm|Hm].
  - destruct (IH m id str Hm Hid) as (p & t & Ht & Hi & HS).
    destruct (step_lookup a s s' p t Hs Ht) as (t' & Ht' & [->|[calls Hst]]);
      [by exists p, t|].
    apply tunnel_step_same in Hst. exists p, t'. split; [done|].
    rewrite (same_tunnel_String _ _ Hst). destruct Hst as (-> & _). done.
  - rewrite (Hls m Hm) in Hid. unfold listing in Hid.
    rewrite lookup_fmap in Hid. destruct (tunnels (realm s') !! id) as [p|] eqn:Ep; [|done].
    simpl in Hid. injection Hid as <-.
    destruct (registry_wf_reachable s' (reachable_step a s s' Hr Hs)) as [Hwf _].
    destruct (Hwf id p Ep) as (t & Ht & Hi). exists p, t. rewrite Ht. done.
Qed.

Lemma listings_truthful_witness :
  ∃ p t, heap (after (admission "client" "server")) !! p = Some t ∧ tid t = "1" ∧
         String t = "client -> server".
Proof.
  apply (listings_truthful (after (admission "client" "server"))
           (reachable_after _ admission_run)
           {[ "1" := "client -> server" ]} "1" "client -> server").
  - vm_compute. apply list_elem_of_further, list_elem_of_here.
  - vm_compute. reflexivity.
Defined.

(** *** Who closes a handle *)

Lemma tunnel_step_closed_by_leave t calls t' :
  tunnel_step t calls t' → closed_by_leave t → closed_by_leave t'.
Proof.
  intros Hs [H1 H2].
  assert (∀ k, pump k t = CloseOutbound ∨ pump k t = Finished →
               pump k t' = CloseOutbound ∨ pump k t' = Finished) as Hk1.
  { intros k. destruct Hs as [d0 data err c pm Hp Hr|d0 bytes Hp Hw|d0 bytes o c pm Hp Hw
                              |k0 e Hp|k0 c Hp Hc|k0 c Hp Hc];
      pump_cases; rewrite ?Hp, ?Hw; intros [H|H]; simplify_eq; auto. }
  assert (∀ k, pump k t = Finished → pump k t' = Finished) as Hk2.
  { intros k. destruct Hs as [d0 data err c pm Hp Hr|d0 bytes Hp Hw|d0 bytes o c pm Hp Hw
                              |k0 e Hp|k0 c Hp Hc|k0 c Hp Hc];
      pump_cases; rewrite ?Hp, ?Hw; intros H; simplify_eq; auto. }
  assert (closed (inbound t') = true →
          closed (inbound t) = true ∨ ∃ k, pump k t' = CloseOutbound) as Hi.
  { destruct Hs as [d0 data err c pm Hp Hr|d0 bytes Hp Hw|d0 bytes o c pm Hp Hw
                   |k0 e Hp|k0 c Hp Hc|k0 c Hp Hc]; simpl; auto.
    - destruct d0; simpl in *; auto. destruct (inbound t) as [c0|] eqn:Ec; [|done].
      apply readFromConn_open in Hr. simpl. rewrite Hr. auto.
    - destruct d0; simpl in *; auto. destruct (inbound t) as [c0|] eqn:Ec; [|done].
      apply writeToConn_open in Hw. simpl. rewrite Hw. auto.
    - intros _. right. exists k0. apply pump_set_pump. }
  assert (closed (outbound t') = true →
          closed (outbound t) = true ∨ ∃ k, pump k t' = Finished) as Ho.
  { destruct Hs as [d0 data err c pm Hp Hr|d0 bytes Hp Hw|d0 bytes o c pm Hp Hw
                   |k0 e Hp|k0 c Hp Hc|k0 c Hp Hc]; simpl; auto.
    - destruct d0; simpl in *; auto. destruct (outbound t) as [c0|] eqn:Ec; [|done].
      apply readFromConn_open in Hr. simpl. rewrite Hr. auto.
    - destruct d0; simpl in *; auto. destruct (outbound t) as [c0|] eqn:Ec; [|done].
      apply writeToConn_open in Hw. simpl. rewrite Hw. auto.
    - intros _. right. exists k0. apply pump_set_pump. }
  split.
  - intros Hc. destruct (Hi Hc) as [Hc0|[k Hk]]; [|eauto].
    destruct (H1 Hc0) as [k Hk]. exists k. auto.
  - intros Hc. destruct (Ho Hc) as [Hc0|[k Hk]]; [|eauto].
    destruct (H2 Hc0) as [k Hk]. exists k. auto.
Qed.

Lemma closed_by_leave_reachable s :
  reachable s → ∀ p t, heap s !! p = Some t → closed_by_leave t.
Proof.
  apply tunnels_reachable.
  - intros t ((_ & _ & _ & Hi) & (_ & _ & _ & Ho) & _) _. split; congruence.
  - exact tunnel_step_closed_by_leave.
Qed.

(** X11.  Nothing but [leave] closes a handle.  In every reachable state
    the inbound handle of a tunnel is closed exactly when one of its four
    pumps is past the first Close of its teardown, and the outbound handle
    exactly when one of them has finished its teardown: [readFromConn] and
    [writeToConn] close nothing, whatever error they meet. *)
Theorem closed_only_by_leave (s : State) (p : nat) (t : TCPTunnel) :
  reachable s → heap s !! p = Some t →
  (closed (inbound t) = true ↔ ∃ k, pump k t = CloseOutbound ∨ pump k t = Finished) ∧
  (closed (outbound t) = true ↔ ∃ k, pump k t = Finished).
Proof.
  intros Hr Ht. destruct (closed_by_leave_reachable s Hr p t Ht) as [H1 H2].
  pose proof (finished_inv_reachable s Hr p t Ht) as Hf.
  split; (split; [done|]).
  - intros [k [Hk|Hk]]; destruct (Hf k) as [Hf1 Hf2]; [auto|]. by destruct (Hf2 Hk).
  - intros [k Hk]. destruct (Hf k) as [_ Hf2]. by destruct (Hf2 Hk).
Qed.

Lemma closed_only_by_leave_witness :
  closed (inbound (tunnel_at 0 (after (client_gone ++ teardown 0 RdIn)))) = true ↔
  ∃ k, pump k (tunnel_at 0 (after (client_gone ++ teardown 0 RdIn))) = CloseOutbound ∨
       pump k (tunnel_at 0 (after (client_gone ++ teardown 0 RdIn))) = Finished.
Proof.
  apply (closed_only_by_leave (after (client_gone ++ teardown 0 RdIn)) 0).
  - apply reachable_after. vm_compute. reflexivity.
  - vm_compute. reflexivity.
Defined.

(** *** The size of what is buffered *)

Lemma readFromConn_small oc data err c bytes :
  readFromConn oc data err = Done (c, AtSend bytes) → small bytes.
Proof.
  destruct oc as [c0|]; [|done]. intros H.
  destruct (isOpen c0) eqn:Ho; [destruct err as [e|]|].
  - rewrite readFromConn_error in H by done. simplify_eq.
  - rewrite readFromConn_data in H by done. simplify_eq.
    unfold small. rewrite length_take. lia.
  - rewrite readFromConn_closed in H by done. simplify_eq.
Qed.

Lemma bounded_fresh t : fresh_tunnel t → bounded t.
Proof.
  intros ((Hi1 & Hi2 & _) & (Ho1 & Ho2 & _) & H1 & H2 & H3 & H4). split.
  - intros [|]; simpl; rewrite ?Hi1, ?Hi2, ?Ho1, ?Ho2; by split.
  - intros k b. destruct k; simpl; rewrite ?H1, ?H2, ?H3, ?H4; by intros [?|?].
Qed.

Lemma bounded_set_conn sd c t :
  Forall small (received c) → Forall small (sent c) →
  (∀ sd, Forall small (received_of (conn sd t)) ∧ Forall small (sent_of (conn sd t))) →
  ∀ sd', Forall small (received_of (conn sd' (set_conn sd c t))) ∧
         Forall small (sent_of (conn sd' (set_conn sd c t))).
Proof. intros H1 H2 H sd'. specialize (H sd'). by destruct sd, sd'. Qed.

Lemma bounded_set_pump k pm t :
  (∀ b, pm = AtSend b ∨ pm = AtWrite b → small b) →
  (∀ k b, pump k t = AtSend b ∨ pump k t = AtWrite b → small b) →
  ∀ k' b, pump k' (set_pump k pm t) = AtSend b ∨ pump k' (set_pump k pm t) = AtWrite b →
          small b.
Proof.
  intros H1 H2 k' b. destruct (decide (k = k')) as [->|Hne].
  - rewrite pump_set_pump. apply H1.
  - rewrite pump_set_pump_ne by done. apply H2.
Qed.

Lemma tunnel_step_bounded t calls t' : tunnel_step t calls t' → bounded t → bounded t'.
Proof.
  intros Hs [Hc Hp0].
  destruct Hs as [d0 data err c pm Hp Hr|d0 bytes Hp Hw|d0 bytes o c pm Hp Hw
                  |k e Hp|k c Hp Hcl|k c Hp Hcl].
  - assert (∀ b, pm = AtSend b ∨ pm = AtWrite b → small b) as Hpm.
    { intros b [->| ->]; [by eapply readFromConn_small|].
      apply readFromConn_logs in Hr as (c0 & _ & _ & _ & [(b0 & ? & _)|(e & ? & _)]); done. }
    apply readFromConn_logs in Hr as (c0 & Hc0 & Hsent & Htorn & Hrd).
    destruct (Hc (srcSide d0)) as [Ha Hb]. rewrite Hc0 in Ha, Hb. simpl in Ha, Hb.
    split.
    + apply bounded_set_conn; [|by rewrite Hsent|done].
      destruct Hrd as [(b & -> & ->)|(e & -> & ->)]; [|done].
      apply Forall_app. split; [done|]. apply Forall_singleton. apply Hpm. auto.
    + apply bounded_set_pump; [done|]. intros k b. rewrite pump_set_conn. apply Hp0.
  - assert (small bytes) as Hb by (apply (Hp0 (reader d0)); auto).
    split; [done|]. apply bounded_set_pump; [by intros b [[= <-]|[= <-]]|].
    apply bounded_set_pump; [by intros b [?|?]|done].
  - assert (small bytes) as Hb by (apply (Hp0 (writer d0)); auto).
    apply writeToConn_logs in Hw as (c0 & Hc0 & Hrecv & Hw).
    destruct (Hc (dstSide d0)) as [Ha Hb']. rewrite Hc0 in Ha, Hb'. simpl in Ha, Hb'.
    split.
    + apply bounded_set_conn; [by rewrite Hrecv| |done].
      destruct Hw as [(-> & -> & _)|(e & n & -> & -> & _)]; [|done].
      apply Forall_app. split; [done|]. by apply Forall_singleton.
    + apply bounded_set_pump.
      * intros b Hk. by destruct Hw as [(-> & _)|(e & n & -> & _)], Hk.
      * intros k b. rewrite pump_set_conn. apply Hp0.
  - split; [done|]. apply bounded_set_pump; [by intros b [?|?]|done].
  - destruct (conn_Close_logs c) as (E1 & E2 & _).
    destruct (Hc Inbound) as [Ha Hb]. simpl in Ha, Hb. rewrite Hcl in Ha, Hb.
    split.
    + apply bounded_set_conn; [by rewrite E1|by rewrite E2|done].
    + apply bounded_set_pump; [by intros b [?|?]|].
      intros k0 b. rewrite pump_set_conn. apply Hp0.
  - destruct (conn_Close_logs c) as (E1 & E2 & _).
    destruct (Hc Outbound) as [Ha Hb]. simpl in Ha, Hb. rewrite Hcl in Ha, Hb.
    split.
    + apply bounded_set_conn; [by rewrite E1|by rewrite E2|done].
    + apply bounded_set_pump; [by intros b [?|?]|].
      intros k0 b. rewrite pump_set_conn. apply Hp0.
Qed.

Lemma bounded_reachable s : reachable s → ∀ p t, heap s !! p = Some t → bounded t.
Proof.
  apply tunnels_reachable.
  - intros t Hf _. by apply bounded_fresh.
  - exact tunnel_step_bounded.
Qed.

Lemma small_concat (l : list chunk) :
  Forall small l → (length (concat l) ≤ length l * readBufSize)%nat.
Proof.
  induction 1 as [|b l Hb Hl IH]; [done|]. cbn [concat length].
  rewrite length_app. unfold small in Hb. lia.
Qed.

(** X4.  What a tunnel buffers is bounded.  In every reachable state each
    chunk read, written or held by a pump has at most [readBufSize] bytes,
    and as long as the writer of a direction is in its loop the reader is
    at most two chunks ahead of it: the chunks read are the chunks written
    followed by at most two more, of at most [2 * readBufSize] bytes in
    all.  The unbuffered channel holds the reader back. *)
Theorem buffering_bounded (s : State) (p : nat) (t : TCPTunnel) (d : Dir) :
  reachable s → heap s !! p = Some t →
  Forall small (chunks_read d t) ∧ Forall small (chunks_written d t) ∧
  (∀ k b, pump k t = AtSend b ∨ pump k t = AtWrite b → small b) ∧
  (gone (pump (writer d) t) = false →
   chunks_read d t = chunks_written d t ++ in_flight d t ∧
   (length (in_flight d t) ≤ 2)%nat ∧
   (length (concat (in_flight d t)) ≤ 2 * readBufSize)%nat).
Proof.
  intros Hr Ht. destruct (bounded_reachable s Hr p t Ht) as [Hc Hp].
  pose proof (relay_inv_reachable s Hr p t d Ht) as Hinv.
  split; [apply (Hc (srcSide d))|]. split; [apply (Hc (dstSide d))|]. split; [done|].
  intros Hg.
  assert (∃ fl, chunks_read d t = chunks_written d t ++ fl ∧ (length fl ≤ 2)%nat)
    as (fl & E & Hfl).
  { unfold relay_inv in Hinv. destruct (pump (writer d) t) eqn:Ew; try done.
    - destruct Hinv as [E _]. eexists. split; [exact E|].
      destruct (pump (reader d) t); simpl; lia.
    - destruct Hinv as [E _]. eexists. split; [exact E|].
      destruct (pump (reader d) t); simpl; lia. }
  assert (in_flight d t = fl) as Ef.
  { unfold in_flight. rewrite E. by rewrite drop_app_length. }
  rewrite Ef. split; [done|]. split; [done|].
  assert (Forall small fl) as Hsm.
  { assert (Forall small (chunks_read d t)) as Hrd by apply (Hc (srcSide d)).
    rewrite E in Hrd. by apply Forall_app in Hrd as [_ ?]. }
  apply small_concat in Hsm. nia.
Qed.

Lemma relaying_bounded_run :
  run relaying sample = Some (after relaying) ∧
  heap (after relaying) !! 0%nat = Some (tunnel_at 0 (after relaying)) ∧
  gone (pump (writer ToRemote) (tunnel_at 0 (after relaying))) = false.
Proof. evaluate. Qed.

Lemma buffering_bounded_witness :
  (length (in_flight ToRemote (tunnel_at 0 (after relaying))) ≤ 2)%nat.
Proof.
  destruct relaying_bounded_run as (Hl & Ht & Hg).
  destruct (buffering_bounded (after relaying) 0 (tunnel_at 0 (after relaying)) ToRemote
              (reachable_after _ Hl) Ht) as (_ & _ & _ & H).
  exact (proj1 (proj2 (H Hg))).
Defined.

(** *** A tunnel and the others *)

Lemma tids_distinct s p q t t' :
  uniq_ids s → Z.of_nat (length (heap s)) ≤ maxInt →
  heap s !! p = Some t → heap s !! q = Some t' → tid t = tid t' → p = q.
Proof.
  intros [_ Hu] Hb Hp Hq E. rewrite (Hu p t Hp), (Hu q t' Hq) in E.
  apply Itoa_inj in E. apply lookup_lt_Some in Hp, Hq.
  rewrite !wrap_int_small in E by (unfold maxInt, intSize in *; lia). lia.
Qed.

(** X6.  Tunnels do not interfere.  A step taken by anything but the
    pumps of a tunnel leaves that tunnel as it is, its handles and its four
    pumps, and leaves its registry entry as it is unless the step is the
    insert of that very tunnel by [join].  (Identities are distinct as long
    as the counter has not wrapped around.) *)
Theorem tunnels_isolated (a : Act) (s s' : State) (q : nat) (t : TCPTunnel) :
  reachable s → Z.of_nat (length (heap s)) ≤ maxInt →
  step a s = Some s' → heap s !! q = Some t → tunnel_of a ≠ Some q →
  heap s' !! q = Some t ∧
  (tunnels (realm s') !! tid t = tunnels (realm s) !! tid t ∨
   (a = DoRegister ∧ realmG s = AtRegister q ∧ tunnels (realm s') !! tid t = Some q)).
Proof.
  intros Hr Hb Hs Hq Ha. pose proof (uniq_ids_reachable s Hr) as Hu.
  destruct (tunnel_of_cases a) as [[p Hp]|Hn].
  - assert (p ≠ q) as Hne by congruence.
    destruct (step_pump a s s' p Hs Hp) as (tp & Htp & _ & _ & _ & _ & [[-> _]|Hst]);
      [by auto|].
    destruct Hst as (calls & t' & _ & E & _ & _ & Hreg). split.
    + rewrite E. by rewrite list_lookup_insert_ne.
    + left. destruct Hreg as [-> | ->]; [done|]. apply lookup_delete_ne.
      intros Eid. apply Hne. by eapply tids_distinct.
  - split.
    + destruct (step_admission a s s' Hs Hn) as [_ [(E & _)|(c & peer & _ & _ & _ & _ & E)]];
        rewrite E; [done|]. by apply lookup_app_l_Some.
    + destruct (step_registry a s s' Hs)
        as [[E _]|[(p & t0 & Ea & Hg & Ht0 & _ & _ & E)|(p & t0 & Hp & _)]].
      * left. by rewrite E.
      * destruct (decide (p = q)) as [->|Hne].
        -- right. simplify_eq. rewrite E. by rewrite lookup_insert_eq.
        -- left. rewrite E. apply lookup_insert_ne. intros Eid. apply Hne.
           by eapply tids_distinct.
      * congruence.
Qed.

Lemma two_tunnels_run :
  let l := admission "c1" "server" ++ admission "c2" "server" in
  run l sample = Some (after l) ∧
  Z.of_nat (length (heap (after l))) ≤ maxInt ∧
  step (DoRead 0 ToRemote ping None) (after l)
  = Some (after (l ++ [DoRead 0 ToRemote ping None])) ∧
  heap (after l) !! 1%nat = Some (tunnel_at 1 (after l)).
Proof.
  intros l. split; [vm_compute; reflexivity|]. split; [by vm_compute|].
  split; vm_compute; reflexivity.
Qed.

Lemma tunnels_isolated_witness :
  let l := admission "c1" "server" ++ admission "c2" "server" in
  heap (after (l ++ [DoRead 0 ToRemote ping None])) !! 1%nat = Some (tunnel_at 1 (after l)).
Proof.
  intros l. destruct two_tunnels_run as (Hl & Hb & Hs & Ht).
  apply (tunnels_isolated (DoRead 0 ToRemote ping None) (after l)
           (after (l ++ [DoRead 0 ToRemote ping None])) 1 (tunnel_at 1 (after l))
           (reachable_after _ Hl) Hb Hs Ht).
  simpl. discriminate.
Defined.

(** *** The admission path *)

Lemma step_DoRegister p t s :
  proc s = Running → realmG s = AtRegister p → heap s !! p = Some t →
  step DoRegister s = Some (set_realmG AtSelect (join_register p t s)).
Proof. intros Hp Hg Ht. unfold step. rewrite Hp, Hg, Ht. done. Qed.

Lemma step_DoJoining c s :
  proc s = Running → mainG s = AtJoining c → realmG s = AtSelect →
  step DoJoining s = Some (set_realmG (AtJoin c) (set_mainG AtAccept s)).
Proof. intros Hp Hm Hg. unfold step. rewrite Hp, Hm, Hg. done. Qed.

Lemma step_DoDial c peer s :
  proc s = Running → realmG s = AtJoin c →
  step (DoDial (DialOk peer)) s
  = Some (set_realmG (AtRegister (length (heap s))) (newTCPTunnel c (DialOk peer) s).1).
Proof. intros Hp Hg. unfold step. rewrite Hp, Hg. done. Qed.

Lemma step_DoAccept o s :
  proc s = Running → mainG s = AtAccept →
  step (DoAccept o) s = Some (main_accept o s).
Proof. intros Hp Hm. unfold step. rewrite Hp, Hm. done. Qed.

(** X13.  Admission never deadlocks and never waits for a tunnel.  From
    every reachable state in which the process runs, at most three steps
    of the realm goroutine and of [main], none of a pump, bring [main] back
    to its Accept, provided the pending dial succeeds: the realm finishes
    the [join] it is in and takes the connection [main] offers. *)
Theorem accept_loop_proceeds (s : State) (peer : string) :
  reachable s → proc s = Running →
  ∃ l s', (length l ≤ 3)%nat ∧
          Forall (λ a, tunnel_of a = None ∧ healthy a = true) l ∧
          run l s = Some s' ∧ mainG s' = AtAccept ∧ proc s' = Running.
Proof.
  intros Hr Hp. destruct (registry_wf_reachable s Hr) as [_ Hwf].
  destruct (mainG s) as [|c] eqn:Hm.
  { exists [], s. simpl. split; [lia|]. by split. }
  assert (∀ s1, proc s1 = Running → mainG s1 = AtJoining c → realmG s1 = AtSelect →
                ∃ s', run [DoJoining] s1 = Some s' ∧ mainG s' = AtAccept ∧
                      proc s' = Running) as Hjoin.
  { intros s1 Hp1 Hm1 Hg1. eexists. simpl. rewrite (step_DoJoining c s1) by done.
    simpl. split; [done|]. by split. }
  assert (∀ s1 p t, proc s1 = Running → mainG s1 = AtJoining c →
                    realmG s1 = AtRegister p → heap s1 !! p = Some t →
                    ∃ s', run [DoRegister; DoJoining] s1 = Some s' ∧ mainG s' = AtAccept ∧
                          proc s' = Running) as Hreg.
  { intros s1 p t Hp1 Hm1 Hg1 Ht1.
    destruct (Hjoin (set_realmG AtSelect (join_register p t s1))) as (s' & Hs' & H);
      try done.
    exists s'. split; [|done]. cbn [run]. rewrite (step_DoRegister p t s1) by done.
    exact Hs'. }
  destruct (realmG s) as [|c'|p] eqn:Hg.
  - destruct (Hjoin s) as (s' & Hs' & H); try done. exists [DoJoining], s'.
    split; [simpl; lia|]. split; [|done]. by repeat constructor.
  - destruct (Hreg (set_realmG (AtRegister (length (heap s)))
                      (newTCPTunnel c' (DialOk peer) s).1)
                (length (heap s))
                {| tid := (generateID (id s)).2; inbound := c';
                   outbound := Some (newConn peer);
                   readFromInbound := AtRead; writeToOutbound := AtRecv;
                   readFromOutbound := AtRead; writeToInbound := AtRecv |})
      as (s' & Hs' & H); try done.
    { simpl. by apply list_lookup_middle. }
    exists [DoDial (DialOk peer); DoRegister; DoJoining], s'.
    split; [simpl; lia|]. split; [by repeat constructor|]. split; [|done].
    cbn [run]. rewrite (step_DoDial c' peer s) by done. exact Hs'.
  - destruct (Hwf p eq_refl) as [t Ht].
    destruct (Hreg s p t) as (s' & Hs' & H); try done.
    exists [DoRegister; DoJoining], s'.
    split; [simpl; lia|]. split; [|done]. by repeat constructor.
Qed.

Lemma accept_loop_proceeds_witness :
  ∃ l s', (length l ≤ 3)%nat ∧
          Forall (λ a, tunnel_of a = None ∧ healthy a = true) l ∧
          run l (after two_writers) = Some s' ∧ mainG s' = AtAccept ∧ proc s' = Running.
Proof.
  apply (accept_loop_proceeds (after two_writers) "server").
  - apply reachable_after. vm_compute. reflexivity.
  - vm_compute. reflexivity.
Defined.

(** *** The arguments of the program *)

Lemma step_config a s s' :
  step a s = Some s' →
  bindIF (realm s') = bindIF (realm s) ∧ bindPort (realm s') = bindPort (realm s) ∧
  dstHost (realm s') = dstHost (realm s) ∧ dstPort (realm s') = dstPort (realm s).
Proof.
  intros H. apply step_inv in H as [Hp H]. destruct a; simpl in H.
  - destruct H as [_ ->]. unfold main_accept. by destruct o.
  - by destruct H as (c & _ & _ & ->).
  - destruct H as (c & Hr & ->). by destruct o.
  - by destruct H as (p & t & Hr & Ht & ->).
  - destruct H as (t & Ht & _ & ->). by destruct (readFromConn _ _ _) as [[c pm]|].
  - by destruct H as (t & b & Ht & _ & _ & ->).
  - destruct H as (t & b & Ht & _ & ->). by destruct (writeToConn _ _ _) as [[c pm]|].
  - destruct H as (t & Ht & H). unfold pump_exit, leave_close in H. simpl in H.
    destruct (pump k t).
    1-4,8: done.
    + injection H as <-. unfold leave_delete. by destruct (decide _).
    + destruct (inbound t) as [c|]; [destruct (conn_Close c)|]; by injection H as <-.
    + destruct (outbound t) as [c|]; [destruct (conn_Close c)|]; by injection H as <-.
Qed.

Lemma run_config l : ∀ s s',
  run l s = Some s' →
  bindIF (realm s') = bindIF (realm s) ∧ bindPort (realm s') = bindPort (realm s) ∧
  dstHost (realm s') = dstHost (realm s) ∧ dstPort (realm s') = dstPort (realm s).
Proof.
  induction l as [|a l IH]; intros s s' H; simpl in H.
  - by injection H as <-.
  - destruct (step a s) as [s1|] eqn:E; [|done]. simpl in H.
    destruct (step_config a s s1 E) as (H1 & H2 & H3 & H4).
    destruct (IH s1 s' H) as (H1' & H2' & H3' & H4'). repeat split; congruence.
Qed.

(** X10.  What [main] does with its arguments.  The realm is configured
    once, from the first three arguments left by [flag.Parse], a missing
    one being the empty string, and never changes: in every state reached
    from the start the bind interface is empty, the bind port is the first
    argument, and every dial made went to the second and third argument
    joined by a colon.  The listener address is the loopback address with
    the first argument as port, whatever the bind interface.  When
    [net.Listen] fails the error is dropped and the process is over at its
    first Accept, with nothing logged and no action possible. *)
Theorem main_uses_arguments (args : list string) (l : list Act) (s : State) :
  run l (started (main_start args None)) = Some s →
  starting (main_start args None) = (flag_Arg args 0, flag_Arg args 1, flag_Arg args 2) ∧
  listening (main_start args None) = "127.0.0.1:" +:+ flag_Arg args 0 ∧
  bindIF (realm s) = "" ∧ bindPort (realm s) = flag_Arg args 0 ∧
  (∀ addr e, SysDial addr e ∈ syscalls s →
             addr = flag_Arg args 1 +:+ ":" +:+ flag_Arg args 2) ∧
  (∀ i, (length args ≤ i)%nat → flag_Arg args i = "") ∧
  (∀ err a, proc (started (main_start args (Some err))) = Panicked ∧
            log (started (main_start args (Some err))) = [] ∧
            step a (started (main_start args (Some err))) = None).
Proof.
  intros Hl. split; [done|]. split; [done|].
  destruct (run_config l _ s Hl) as (H1 & H2 & H3 & H4). simpl in H1, H2, H3, H4.
  split; [done|]. split; [done|]. split; [|split].
  - intros addr e Hin.
    assert (reachable s) as Hr by (eexists _, _, _, _, l; exact Hl).
    destruct (dials_inv_reachable s Hr) as (Hd & _). rewrite (Hd addr e Hin).
    unfold destination. by rewrite H3, H4.
  - intros i Hi. unfold flag_Arg. by apply nth_overflow.
  - intros err a. done.
Qed.

Lemma main_uses_arguments_witness :
  bindPort (realm (after [DoAccept (AcceptOk "client"); DoJoining;
                          DoDial (DialOk "server")]))
  = flag_Arg ["9000"; "example.org"; "7"] 0 ∧
  ∀ addr e,
    SysDial addr e ∈ syscalls (after [DoAccept (AcceptOk "client"); DoJoining;
                                     DoDial (DialOk "server")]) →
    addr = flag_Arg ["9000"; "example.org"; "7"] 1 +:+ ":" +:+
           flag_Arg ["9000"; "example.org"; "7"] 2.
Proof.
  destruct (main_uses_arguments ["9000"; "example.org"; "7"]
              [DoAccept (AcceptOk "client"); DoJoining; DoDial (DialOk "server")]
              (after [DoAccept (AcceptOk "client"); DoJoining; DoDial (DialOk "server")]))
    as (_ & _ & _ & H1 & H2 & _).
  - vm_compute. reflexivity.
  - split; [exact H1|exact H2].
Defined.

(** *** Runs in which nothing fails *)

Lemma healthy_store p t t' s :
  healthy_inv s → heap s !! p = Some t → tid t' = tid t → healthy_tunnel t' →
  healthy_inv (store p t' s).
Proof.
  intros (H1 & H2 & H3 & H4 & H5 & H6 & H7) Ht Hid Ht'.
  split; [done|]. split; [done|]. split; [done|]. split; [|split; [done|split; [done|]]].
  - intros q t0 Hq. simpl in Hq. destruct (decide (p = q)) as [->|Hne].
    + rewrite list_lookup_insert_eq in Hq by by eapply lookup_lt_Some. by injection Hq as <-.
    + rewrite list_lookup_insert_ne in Hq by done. eauto.
  - simpl. rewrite length_insert. intros Hb q t0 Hq.
    destruct (decide (p = q)) as [->|Hne].
    + rewrite list_lookup_insert_eq in Hq by by eapply lookup_lt_Some.
      injection Hq as <-. rewrite Hid. eauto.
    + rewrite list_lookup_insert_ne in Hq by done. eauto.
Qed.

Lemma healthy_set_pump k pm t :
  gone pm = false → healthy_tunnel t → healthy_tunnel (set_pump k pm t).
Proof.
  intros Hpm (Hi & Ho & Hk). split; [done|]. split; [done|]. intros k'.
  destruct (decide (k = k')) as [->|Hne].
  - by rewrite pump_set_pump.
  - by rewrite pump_set_pump_ne.
Qed.

Lemma healthy_set_conn sd c t :
  isOpen c = true → healthy_tunnel t → healthy_tunnel (set_conn sd c t).
Proof.
  intros Hc (Hi & Ho & Hk). split; [|split].
  - destruct sd; simpl; [by exists c|done].
  - destruct sd; simpl; [done|by exists c].
  - intros k. by rewrite pump_set_conn.
Qed.

Lemma healthy_conn sd t : healthy_tunnel t → open_conn (conn sd t).
Proof. intros (Hi & Ho & _). by destruct sd. Qed.

Lemma elem_of_snoc {A} (l : list A) (x y : A) : y ∈ l ++ [x] → y ∈ l ∨ y = x.
Proof.
  intros H. apply elem_of_app in H as [H|H]; [by left|].
  apply list_elem_of_singleton in H. by right.
Qed.

Lemma healthy_step a s s' :
  reachable s → healthy a = true → healthy_inv s → step a s = Some s' → healthy_inv s'.
Proof.
  intros Hr Ha Hinv Hs. pose proof Hinv as (H1 & H2 & H3 & H4 & H5 & H6 & H7).
  apply step_inv in Hs as [_ Hs]. destruct a; simpl in Hs.
  - destruct Hs as [Hm ->]. destruct o as [peer|e]; [|done].
    split; [done|]. split; [|done]. intros c [= <-]. by exists (newConn peer).
  - destruct Hs as (c & Hm & Hg & ->).
    split; [done|]. split; [done|]. split; [|split; [done|split; [done|split; [done|]]]].
    + intros c' [= <-]. by apply H2.
    + simpl. intros Hb p t Ht. destruct (H7 Hb p t Ht) as [?|Hx]; [by left|congruence].
  - destruct Hs as (c & Hg & ->). destruct o as [peer|e]; [|done]. simpl.
    split; [done|]. split; [done|]. split; [done|]. split; [|split; [|split; [done|]]].
    + intros p t Ht. simpl in Ht. apply lookup_app_Some in Ht as [Ht|[_ Ht]]; [eauto|].
      apply list_lookup_singleton_Some in Ht as [_ <-].
      split; [by apply H3|]. split; [by exists (newConn peer)|]. by intros [].
    + intros x Hx. simpl in Hx. apply elem_of_snoc in Hx as [Hx| ->]; eauto.
    + simpl. rewrite length_app. simpl. intros Hb p t Ht.
      apply lookup_app_Some in Ht as [Ht|[Hl Ht]].
      * left. destruct (H7 ltac:(lia) p t Ht) as [?|Hx]; [done|congruence].
      * right. apply list_lookup_singleton_Some in Ht as [Hp _]. f_equal. lia.
  - destruct Hs as (p & t & Hg & Ht & ->).
    split; [done|]. split; [done|]. split; [done|]. split; [done|]. split; [done|].
    split.
    + intros x Hx. simpl in Hx.
      apply elem_of_snoc in Hx as [Hx| ->]; [|done].
      apply elem_of_snoc in Hx as [Hx| ->]; eauto.
    + simpl. intros Hb q t0 Hq. left. destruct (decide (p = q)) as [->|Hne].
      * simplify_eq. apply lookup_insert_eq.
      * rewrite lookup_insert_ne.
        -- destruct (H7 Hb q t0 Hq) as [?|Hx]; [done|congruence].
        -- intros E. apply Hne.
           by eapply (tids_distinct s p q t t0 (uniq_ids_reachable s Hr) Hb).
  - destruct Hs as (t & Ht & Hp & ->). destruct err as [e|]; [done|].
    pose proof (H4 p t Ht) as Hh.
    destruct (healthy_conn (srcSide d) t Hh) as (c0 & -> & Ho).
    rewrite readFromConn_data by done.
    apply (healthy_store p t); try done.
    apply healthy_set_pump; [done|]. by apply healthy_set_conn.
  - destruct Hs as (t & b & Ht & Hp & Hw & ->). pose proof (H4 p t Ht) as Hh.
    apply (healthy_store p t); try done. by do 2 (apply healthy_set_pump; [done|]).
  - destruct Hs as (t & b & Ht & Hp & ->). destruct o as [|n e]; [|done].
    pose proof (H4 p t Ht) as Hh.
    destruct (healthy_conn (dstSide d) t Hh) as (c0 & -> & Ho).
    rewrite writeToConn_ok by done.
    apply (healthy_store p t); try done.
    apply healthy_set_pump; [done|]. by apply healthy_set_conn.
  - destruct Hs as (t & Ht & Hs). destruct (H4 p t Ht) as (_ & _ & Hk). specialize (Hk k).
    unfold pump_exit in Hs. by destruct (pump k t).
Qed.

Lemma healthy_run l : ∀ s s',
  reachable s → healthy_inv s → Forall (λ a, healthy a = true) l →
  run l s = Some s' → healthy_inv s'.
Proof.
  induction l as [|a l IH]; intros s s' Hr Hinv Hl H; simpl in H.
  - by injection H as <-.
  - destruct (step a s) as [s1|] eqn:E; [|done]. simpl in H.
    apply Forall_cons in Hl as [Ha Hl].
    apply (IH s1 s'); eauto using reachable_step, healthy_step.
Qed.

(** X12.  As long as the network fails nothing, the forwarder keeps every
    connection.  After any actions from the start in which no Accept, Dial,
    Read or Write returned an error: the process runs; every tunnel has
    both handles, open, and its four pumps in their loops; the only calls
    made were dials that succeeded, so nothing was closed; only [join] has
    logged; and every tunnel allocated is in the registry under its
    identity, but for the one [join] is about to insert.  (The last part as
    long as the counter has not wrapped around.) *)
Theorem healthy_run_keeps_tunnels (b1 b2 d1 d2 : string) (l : list Act) (s : State) :
  run l (NewTunnelRealm b1 b2 d1 d2) = Some s →
  Forall (λ a, healthy a = true) l →
  proc s = Running ∧
  (∀ p t, heap s !! p = Some t →
          open_conn (inbound t) ∧ open_conn (outbound t) ∧ ∀ k, gone (pump k t) = false) ∧
  (∀ c, c ∈ syscalls s → dial_ok c = true) ∧
  (∀ x, x ∈ log s → quiet x = true) ∧
  (Z.of_nat (length (heap s)) ≤ maxInt →
   ∀ p t, heap s !! p = Some t →
          tunnels (realm s) !! tid t = Some p ∨ realmG s = AtRegister p).
Proof.
  intros Hl Hh.
  destruct (healthy_run l (NewTunnelRealm b1 b2 d1 d2) s) as (H1 & _ & _ & H4 & H5 & H6 & H7);
    try done.
  - by exists b1, b2, d1, d2, [].
  - split; [done|]. split; [done|]. split; [done|]. split; [done|].
    split; [|split; [|done]]; intros x Hx; simpl in Hx; by apply not_elem_of_nil in Hx.
Qed.

Lemma relaying_healthy : Forall (λ a, healthy a = true) relaying.
Proof. by repeat constructor. Qed.

Lemma healthy_run_keeps_tunnels_witness :
  proc (after relaying) = Running ∧
  ∀ p t, heap (after relaying) !! p = Some t →
         open_conn (inbound t) ∧ open_conn (outbound t) ∧ ∀ k, gone (pump k t) = false.
Proof.
  destruct (healthy_run_keeps_tunnels "" "9000" "example.org" "7" relaying (after relaying))
    as (H1 & H2 & _).
  - vm_compute. reflexivity.
  - exact relaying_healthy.
  - split; [exact H1|exact H2].
Defined.

(** *** Admission followed by teardown *)

Lemma admission_run_from peer dst s :
  proc s = Running → mainG s = AtAccept → realmG s = AtSelect →
  ∃ s1, run (admission peer dst) s = Some s1 ∧
        proc s1 = Running ∧ mainG s1 = AtAccept ∧ realmG s1 = AtSelect ∧
        id s1 = (generateID (id s)).1 ∧
        heap s1 = heap s ++ [tunnel_for peer dst s] ∧
        tunnels (realm s1)
        = <[tid (tunnel_for peer dst s) := length (heap s)]> (tunnels (realm s)).
Proof.
  intros Hp Hm Hg. eexists. split.
  - unfold admission. cbn [run]. rewrite (step_DoAccept _ s) by done.
    cbn [mbind option_bind].
    rewrite (step_DoJoining (Some (newConn peer))) by done.
    cbn [mbind option_bind].
    rewrite (step_DoDial (Some (newConn peer)) dst) by done.
    cbn [mbind option_bind].
    rewrite (step_DoRegister (length (heap s)) (tunnel_for peer dst s)); [done..|].
    simpl. by apply list_lookup_middle.
  - done.
Qed.

Lemma fresh_identity s :
  reachable s → Z.of_nat (length (heap s)) < maxInt →
  (generateID (id s)).1 = id s + 1 ∧
  (generateID (id s)).2 = Itoa (Z.of_nat (length (heap s)) + 1) ∧
  tunnels (realm s) !! (generateID (id s)).2 = None.
Proof.
  intros Hr Hb. destruct (uniq_ids_reachable s Hr) as [Hi Ht].
  assert (id s = Z.of_nat (length (heap s))) as Hid.
  { rewrite Hi. apply wrap_int_small. unfold maxInt, intSize in *. lia. }
  assert (wrap_int (id s + 1) = id s + 1) as Hw.
  { apply wrap_int_small. unfold maxInt, intSize in *. lia. }
  unfold generateID. simpl. rewrite Hw. split; [done|]. rewrite Hid. split; [done|].
  destruct (tunnels (realm s) !! Itoa (Z.of_nat (length (heap s)) + 1)) as [p|] eqn:E;
    [|done].
  destruct (registry_wf_reachable s Hr) as [Hwf _].
  destruct (Hwf _ p E) as (t & Hp & Htid). rewrite (Ht p t Hp) in Htid.
  apply lookup_lt_Some in Hp.
  rewrite wrap_int_small in Htid by (unfold maxInt, intSize in *; lia).
  apply Itoa_inj in Htid. lia.
Qed.

(** X9.  [join] and [leave] undo each other on the registry.  From a
    reachable state in which [main] and the realm goroutine are at rest, a
    connection is admitted under the next identity, which was not in the
    registry, at the next address; when its client goes away and the
    reader runs its teardown, the registry is again exactly what it was
    before the connection came, both handles of the tunnel are closed, the
    tunnels that were there have not changed, and the counter has moved on
    by one, so the identity is not given out again. *)
Theorem admission_then_teardown (s : State) (peer dst : string) (data : chunk) (e : error) :
  reachable s → proc s = Running → mainG s = AtAccept → realmG s = AtSelect →
  Z.of_nat (length (heap s)) < maxInt →
  ∃ s1 s2,
    run (admission peer dst) s = Some s1 ∧
    tunnels (realm s) !! Itoa (id s + 1) = None ∧
    tunnels (realm s1) = <[Itoa (id s + 1) := length (heap s)]> (tunnels (realm s)) ∧
    heap s1 = heap s ++ [tunnel_for peer dst s] ∧
    run (hangup (length (heap s)) data e) s1 = Some s2 ∧
    tunnels (realm s2) = tunnels (realm s) ∧
    torn_down (length (heap s)) s2 = true ∧
    take (length (heap s)) (heap s2) = heap s ∧
    id s2 = id s + 1 ∧
    proc s2 = Running ∧ mainG s2 = AtAccept ∧ realmG s2 = AtSelect.
Proof.
  intros Hr Hp Hm Hg Hb.
  destruct (admission_run_from peer dst s Hp Hm Hg)
    as (s1 & Hrun & Hp1 & Hm1 & Hg1 & Hid1 & Hh1 & Hreg1).
  destruct (fresh_identity s Hr Hb) as (Hgen1 & Hgen2 & Hfresh).
  assert ((generateID (id s)).2 = Itoa (id s + 1)) as Hname.
  { unfold generateID in *. simpl in *. by rewrite Hgen1. }
  set (p := length (heap s)) in *. set (t := tunnel_for peer dst s) in *.
  assert (heap s1 !! p = Some t) as Ht by (rewrite Hh1; apply list_lookup_middle; reflexivity).
  set (t1 := set_pump RdIn (Returned e) (set_conn Inbound (newConn peer) t)).
  assert (step (DoRead p ToRemote data (Some e)) s1 = Some (store p t1 s1)) as Hread.
  { by apply (step_DoRead p ToRemote data (Some e) t). }
  assert (heap (store p t1 s1) !! p = Some t1) as Ht1.
  { simpl. apply list_lookup_insert_eq. by eapply lookup_lt_Some. }
  pose proof (teardown_run p RdIn t1 e (newConn peer) (newConn dst) (store p t1 s1)
                Hp1 Ht1 eq_refl eq_refl eq_refl) as Htd.
  destruct (after_teardown_proj p RdIn t1 e (newConn peer) (newConn dst) (store p t1 s1) Ht1)
    as (E1 & E2 & E3 & E4 & E5 & E6 & _).
  exists s1, (after_teardown p RdIn t1 e (newConn peer) (newConn dst) (store p t1 s1)).
  split; [done|]. rewrite <- Hname. split; [done|]. split; [done|]. split; [done|].
  split; [unfold hangup; cbn [run]; rewrite Hread; exact Htd|].
  split; [|split; [|split; [|split]]].
  - rewrite E5. change (tunnels (realm (store p t1 s1))) with (tunnels (realm s1)).
    rewrite Hreg1. change (tid t1) with (tid t). by apply delete_insert_id.
  - unfold torn_down. rewrite E6.
    rewrite list_lookup_insert_eq by (simpl; rewrite length_insert; by eapply lookup_lt_Some).
    done.
  - rewrite E6. simpl. rewrite list_insert_insert_eq, Hh1.
    rewrite insert_app_r_alt by done. rewrite Nat.sub_diag. simpl.
    apply take_app_length'. reflexivity.
  - rewrite E2. simpl. by rewrite Hid1.
  - rewrite E1, E3, E4. done.
Qed.

Lemma admission_then_teardown_witness :
  ∃ s1 s2,
    run (admission "c2" "server") (after (admission "c1" "server")) = Some s1 ∧
    run (hangup 1 [] EOF) s1 = Some s2 ∧
    tunnels (realm s2) = tunnels (realm (after (admission "c1" "server"))).
Proof.
  destruct (admission_then_teardown (after (admission "c1" "server")) "c2" "server" [] EOF)
    as (s1 & s2 & H1 & _ & _ & _ & H2 & H3 & _).
  - apply reachable_after. vm_compute. reflexivity.
  - vm_compute. reflexivity.
  - vm_compute. reflexivity.
  - vm_compute. reflexivity.
  - vm_compute. reflexivity.
  - exists s1, s2. split; [exact H1|]. split; [exact H2|exact H3].
Defined.

(** *** One Close per pump and handle *)

Lemma tunnel_step_closers sd t calls t' :
  tunnel_step t calls t' →
  closers sd t'
  = (closers sd t + sum_list_with (λ x, Nat.b2n (bool_decide (x.1 = sd))) calls)%nat.
Proof.
  intros Hs. unfold closers.
  destruct Hs as [d0 data err c pm Hp Hr|d0 bytes Hp Hw|d0 bytes o c pm Hp Hw
                  |k e Hp|k c Hp Hc|k c Hp Hc].
  - assert (past_close sd pm = false) as Hpm.
    { apply readFromConn_logs in Hr as (c0 & _ & _ & _ & [(b & -> & _)|(e & -> & _)]);
        by destruct sd. }
    destruct d0, sd; simpl in *; rewrite Hp, Hpm; simpl; lia.
  - destruct d0, sd; simpl in *; rewrite Hp, Hw; simpl; lia.
  - assert (past_close sd pm = false) as Hpm.
    { apply writeToConn_logs in Hw as (c0 & _ & _ & [(-> & _)|(e & n & -> & _)]);
        by destruct sd. }
    destruct d0, sd; simpl in *; rewrite Hp, Hpm; simpl; lia.
  - destruct k, sd; simpl in *; rewrite Hp; simpl; lia.
  - destruct k, sd; simpl in *; rewrite Hp; simpl; lia.
  - destruct k, sd; simpl in *; rewrite Hp; simpl; lia.
Qed.

Lemma sum_list_with_cons {A} (f : A → nat) (x : A) (l : list A) :
  sum_list_with f (x :: l) = (f x + sum_list_with f l)%nat.
Proof. done. Qed.

Lemma close_count_calls p q sd calls :
  sum_list_with (λ c, Nat.b2n (is_close q sd c)) (close_calls p calls)
  = if decide (p = q)
    then sum_list_with (λ x, Nat.b2n (bool_decide (x.1 = sd))) calls
    else 0%nat.
Proof.
  unfold close_calls. induction calls as [|[sd' e] calls IH]; [by destruct (decide _)|].
  rewrite fmap_cons, !sum_list_with_cons, IH. destruct (decide (p = q)) as [->|Hne].
  - f_equal. f_equal. apply bool_decide_ext. simpl. split; [by intros [_ ?]|done].
  - simpl. rewrite bool_decide_eq_false_2; [done|]. by intros [? _].
Qed.

Lemma close_count_app p sd s l x :
  syscalls x = syscalls s ++ l →
  close_count p sd x
  = (close_count p sd s + sum_list_with (λ c, Nat.b2n (is_close p sd c)) l)%nat.
Proof. intros E. unfold close_count. by rewrite E, sum_list_with_app. Qed.

Lemma closers_le sd t : (closers sd t ≤ 4)%nat.
Proof.
  unfold closers. simpl.
  destruct (past_close sd (readFromInbound t)), (past_close sd (writeToOutbound t)),
    (past_close sd (readFromOutbound t)), (past_close sd (writeToInbound t)); simpl; lia.
Qed.

Lemma close_count_inv_reachable s : reachable s → close_count_inv s.
Proof.
  induction 1 as [|a s s' Hr IH Hs] using reachable_ind; [by split|].
  intros q sd. destruct (IH q sd) as [IH1 IH2].
  destruct (tunnel_of_cases a) as [[p Ha]|Ha].
  - destruct (step_pump a s s' p Hs Ha) as (t & Ht & _ & _ & _ & _ & [[-> _]|Hst]);
      [by split|].
    destruct Hst as (calls & t' & Hst & Eh & _ & Es & _).
    rewrite (close_count_app q sd s _ s' Es), close_count_calls, Eh, length_insert.
    destruct (decide (p = q)) as [->|Hne].
    + split.
      * intros t0 Hq. rewrite list_lookup_insert_eq in Hq by by eapply lookup_lt_Some.
        injection Hq as <-. rewrite (tunnel_step_closers sd t calls t' Hst).
        by rewrite (IH1 t Ht).
      * intros Hl. apply lookup_lt_Some in Ht. lia.
    + rewrite Nat.add_0_r. split; [|done].
      intros t0 Hq. rewrite list_lookup_insert_ne in Hq by done. eauto.
  - assert (close_count q sd s' = close_count q sd s) as Ec.
    { destruct (step_admission a s s' Hs Ha)
        as [_ [(_ & _ & [Es|(e & _ & _ & Es)])|(c & peer & _ & _ & _ & Es & _)]].
      - unfold close_count. by rewrite Es.
      - rewrite (close_count_app q sd s _ s' Es). simpl. lia.
      - rewrite (close_count_app q sd s _ s' Es). simpl. lia. }
    rewrite Ec.
    destruct (step_admission a s s' Hs Ha) as [_ [(Eh & _)|(c & peer & _ & _ & _ & _ & Eh)]];
      rewrite Eh; [by split|].
    split.
    + intros t0 Hq. apply lookup_app_Some in Hq as [Hq|[Hl Hq]]; [eauto|].
      apply list_lookup_singleton_Some in Hq as [_ <-]. rewrite IH2 by done.
      by destruct sd.
    + rewrite length_app. simpl. intros Hl. apply IH2. lia.
Qed.

(** X14.  Each pump closes each handle at most once.  In every reachable
    state the Close calls made on a handle of a tunnel, whatever they
    returned, are as many as the pumps of that tunnel that are past that
    Close in their [leave]: at most four, one per pump.  Of these exactly
    one has succeeded when the handle is closed, and none when it is not. *)
Theorem close_calls_counted (s : State) (p : nat) (t : TCPTunnel) (sd : Side) :
  reachable s → heap s !! p = Some t →
  close_count p sd s = closers sd t ∧
  (close_count p sd s ≤ 4)%nat ∧
  closes p sd s = (if closed (conn sd t) then 1 else 0)%nat.
Proof.
  intros Hr Ht. destruct (close_count_inv_reachable s Hr p sd) as [H _].
  rewrite (H t Ht). split; [done|]. split; [apply closers_le|].
  destruct (closed_once_reachable s Hr) as [Hc _]. by apply Hc.
Qed.

Lemma closing_teardowns_run :
  let l := closing ++ teardown 0 RdIn ++ teardown 0 RdOut in
  run l sample = Some (after l) ∧ heap (after l) !! 0%nat = Some (tunnel_at 0 (after l)) ∧
  closers Inbound (tunnel_at 0 (after l)) = 2%nat.
Proof. intros l. split; [|split]; vm_compute; reflexivity. Qed.

Lemma close_calls_counted_witness :
  let l := closing ++ teardown 0 RdIn ++ teardown 0 RdOut in
  close_count 0 Inbound (after l) = 2%nat ∧ closes 0 Inbound (after l) = 1%nat.
Proof.
  intros l. destruct closing_teardowns_run as (Hl & Ht & Hn).
  destruct (close_calls_counted (after l) 0 (tunnel_at 0 (after l)) Inbound
              (reachable_after _ Hl) Ht) as (H1 & _ & H2).
  split; [by rewrite H1|]. rewrite H2. vm_compute. reflexivity.
Defined.
